(** * perception_online_evaluator: the metrics calculator

    A shallow embedding of
    [evaluator/perception_online_evaluator/src/metrics_calculator.cpp]
    (class [MetricsCalculator]) and the properties of its object-history
    store, its path smoother and its deviation-metrics engine.

    Conventions of the embedding.
    - [rclcpp::Time] and [rclcpp::Duration] are signed 64-bit nanosecond
      counts; they are integers in [Z].  Stamps of ROS messages and their
      differences stay far inside the 64-bit range, so the overflow
      exceptions of the rclcpp operators are not modelled, nor is the
      clock type a stamp carries.
    - The stamp of a message is the same nanosecond count.  An
      [rclcpp::Time] built from a message stamp refuses a negative one
      with a [std::runtime_error]: [setPredictedObjects] raises it where
      it takes the header stamp of the incoming batch, so no stamp
      stored through it is negative.  The metrics rebuild an
      [rclcpp::Time] from the header of the batch that [calculate] made
      at a stamp some stored stamp does not exceed; that conversion is
      not modelled.
    - [double] is idealised as an exact rational ([Q], equality [==]);
      the square roots and arc tangents of tier4_autoware_utils are
      parameters of the functions that call them.
    - [size_t] is an integer in [Z] with the modulo-2^64 wrap-around of
      unsigned arithmetic written out.
    - [std::map<rclcpp::Time, PredictedObject>] is an association list in
      increasing key order; an iterator is an index into it.
    - [std::unordered_map] is an association list.  The standard leaves
      the order of its iteration unspecified: the maps of the state
      ([object_map_] and its companions) are listed in the order the
      container iterates, and a map built inside a function is listed in
      insertion order and visited through the parameter [iteration].
    - C++ exceptions are values of [exn] carried by [result]; a member
      function is a function of the state [self], and a function that
      writes a member returns its new value.
    - [generateHistoryPathWithPrev], which nothing in the file calls, is
      modelled on its own. *)

From Stdlib Require Import ZArith QArith Qabs Qround List String Bool Lia.
From Stdlib Require Import Permutation DecimalString.
Import ListNotations.

Local Open Scope list_scope.
Local Open Scope Z_scope.

(** ** Exceptions *)

Inductive exn : Type :=
| runtime_error (what : string)
| out_of_range
| undefined_behaviour.

Inductive result (A : Type) : Type :=
| Ok (a : A)
| Throw (e : exn).
Arguments Ok {A} a.
Arguments Throw {A} e.

Definition bind {A B : Type} (c : result A) (k : A -> result B) : result B :=
  match c with
  | Ok a => k a
  | Throw e => Throw e
  end.

Notation "x <- c ;; k" := (bind c (fun x => k))
  (at level 61, c at next level, right associativity).

(** ** Numbers *)

Definition Qlt_bool (x y : Q) : bool := negb (Qle_bool y x).

(** [std::numeric_limits<int64_t>::max()] *)
Definition INT64_MAX : Z := 2 ^ 63 - 1.

(** [std::numeric_limits<double>::max()] *)
Definition DBL_MAX : Q := inject_Z (2 ^ 1024 - 2 ^ 971).

(** [rclcpp::Duration::from_seconds]: seconds times 1e9, converted to
    [int64_t] by truncation. *)
Definition from_seconds (seconds : Q) : Z :=
  Z.quot (Qnum seconds * 1000000000) (Z.pos (Qden seconds)).

(** [rclcpp::Duration::seconds] *)
Definition seconds (nanoseconds : Z) : Q := nanoseconds # 1000000000.

(** Unsigned 64-bit arithmetic of [size_t]. *)
Definition SIZE_MOD : Z := 2 ^ 64.
Definition size_sub (a b : Z) : Z := (a - b) mod SIZE_MOD.
Definition size_add (a b : Z) : Z := (a + b) mod SIZE_MOD.

(** [std::max_element]: the first greatest element. *)
Definition max_element (l : list Q) : option Q :=
  match l with
  | [] => None
  | x :: tl =>
      Some (fold_left (fun largest y => if Qlt_bool largest y then y else largest) tl x)
  end.

(** [std::min_element] on stamps: the first smallest element. *)
Definition min_element (l : list Z) : option Z :=
  match l with
  | [] => None
  | x :: tl =>
      Some (fold_left (fun smallest y => if y <? smallest then y else smallest) tl x)
  end.

(** [std::accumulate(first, last, init)] *)
Definition accumulate (l : list Q) (init : Q) : Q :=
  fold_left Qplus l init.

(** ** Messages *)

Record Point : Type := { x : Q; y : Q; z : Q }.

Record Quaternion : Type := { qx : Q; qy : Q; qz : Q; qw : Q }.

Record Pose : Type := { position : Point; orientation : Quaternion }.

(** [autoware_auto_perception_msgs::msg::PredictedPath] *)
Record PredictedPath : Type := {
  path : list Pose;
  time_step : Z;
  confidence : Q
}.

(** [autoware_auto_perception_msgs::msg::PredictedObject]; [object_id] is
    the identifier as [toHexString] prints it, and [pose] is
    [kinematics.initial_pose_with_covariance.pose]. *)
Record PredictedObject : Type := {
  object_id : string;
  pose : Pose;
  predicted_paths : list PredictedPath
}.

Record PredictedObjects : Type := {
  header_stamp : Z;
  objects : list PredictedObject
}.

(** ** Containers *)

(** *** [std::unordered_map<Key, V>] *)

Section UnorderedMap.
Context {K V : Type}.
Variable eqb : K -> K -> bool.

Fixpoint find (m : list (K * V)) (k : K) : option V :=
  match m with
  | [] => None
  | (k', v) :: m' => if eqb k' k then Some v else find m' k
  end.

(** [m.at(k)] *)
Definition at_ (m : list (K * V)) (k : K) : result V :=
  match find m k with
  | Some v => Ok v
  | None => Throw out_of_range
  end.

(** [m[k] = v] on an existing key; a new key takes some place in the
    iteration order, here the end. *)
Fixpoint assign (m : list (K * V)) (k : K) (v : V) : list (K * V) :=
  match m with
  | [] => [(k, v)]
  | (k', v') :: m' =>
      if eqb k' k then (k', v) :: m' else (k', v') :: assign m' k v
  end.

(** [m.erase(k)]; the order of the other elements is kept. *)
Definition erase (m : list (K * V)) (k : K) : list (K * V) :=
  filter (fun e => negb (eqb (fst e) k)) m.

Fixpoint nodup_keys (m : list (K * V)) : bool :=
  match m with
  | [] => true
  | (k, _) :: m' =>
      match find m' k with
      | Some _ => false
      | None => nodup_keys m'
      end
  end.
End UnorderedMap.

(** *** [std::map<rclcpp::Time, PredictedObject>] *)

Definition Track : Type := list (Z * PredictedObject).

(** [std::lower_bound(first, last, val, pair.first < val)]: the position
    of the first entry whose stamp is not before [val]; the length of the
    track stands for [end()]. *)
Fixpoint lower_bound (m : Track) (val : Z) : nat :=
  match m with
  | [] => O
  | (first, _) :: m' => if first <? val then S (lower_bound m' val) else O
  end.

(** [m[stamp] = object] of the ordered map. *)
Fixpoint insert_or_assign (m : Track) (stamp : Z) (object : PredictedObject) : Track :=
  match m with
  | [] => [(stamp, object)]
  | (first, second) :: m' =>
      if stamp <? first then (stamp, object) :: m
      else if stamp =? first then (stamp, object) :: m'
      else (first, second) :: insert_or_assign m' stamp object
  end.

(** Keys strictly increasing, the invariant of [std::map]. *)
Fixpoint sorted (m : Track) : bool :=
  match m with
  | [] => true
  | (k1, _) :: m' =>
      match m' with
      | [] => true
      | (k2, _) :: _ => (k1 <? k2) && sorted m'
      end
  end.

(** The entry stored at exactly [stamp], if any. *)
Fixpoint entry_at (m : Track) (stamp : Z) : option PredictedObject :=
  match m with
  | [] => None
  | (first, second) :: m' => if first =? stamp then Some second else entry_at m' stamp
  end.

(** ** The calculator's state *)

(** The members of [Parameters] that the calculator reads. *)
Record Parameters : Type := {
  prediction_time_horizons : list Q;
  smoothing_window_size : Z
}.

Record ObjectData : Type := {
  object : PredictedObject;
  path_pairs : list (Pose * Pose)
}.

(** Modelled from the spec: [Stat<double>] (stat.hpp, absent here) is "a
    named statistic (count, mean, min, max or equivalent summary)"; of its
    interface the calculator uses the empty statistic and [add].  It is
    kept as the sequence of the values given to [add], of which count,
    mean, min and max are functions. *)
Definition Stat : Type := list Q.
Definition stat_empty : Stat := [].
Definition stat_add (s : Stat) (v : Q) : Stat := s ++ [v].
Definition stat_count (s : Stat) : nat := List.length s.

Definition MetricStatMap : Type := list (string * Stat).

(** The enumerators that the [switch] of [calculate] names, and [SIZE]
    for the enumerators of its [default] branch. *)
Inductive Metric : Type :=
| lateral_deviation
| yaw_deviation
| predicted_path_deviation
| SIZE.

Record MetricsCalculator : Type := {
  parameters_ : Parameters;
  current_stamp_ : Z;
  object_map_ : list (string * Track);
  history_path_map_ : list (string * (list Pose * list Pose));
  debug_target_object_ : list (string * ObjectData)
}.

(** The invariant of the store between two calls: keys are unique, and
    every track is sorted and holds at least one entry. *)
Definition track_ok (m : Track) : bool :=
  sorted m && negb (Nat.eqb (List.length m) 0).

Definition store_ok (object_map : list (string * Track)) : bool :=
  nodup_keys String.eqb object_map && forallb (fun e => track_ok (snd e)) object_map.

(** ** The object-history store *)

Section Store.
Variable self : MetricsCalculator.

(** [MetricsCalculator::getTimeDelay] *)
Definition getTimeDelay : result Q :=
  match max_element (prediction_time_horizons (parameters_ self)) with
  | Some max_element_it => Ok max_element_it
  | None => Throw (runtime_error "prediction_time_horizons is empty")
  end.

(** [MetricsCalculator::hasPassedTime(uuid, stamp)];
    [begin()->first] of an empty track is undefined. *)
Definition hasPassedTime_uuid (uuid : string) (stamp : Z) : result bool :=
  match find String.eqb (object_map_ self) uuid with
  | None => Ok false
  | Some stamp_and_objects =>
      match stamp_and_objects with
      | [] => Throw undefined_behaviour
      | (oldest_stamp, _) :: _ => Ok (oldest_stamp <=? stamp)
      end
  end.

(** [MetricsCalculator::hasPassedTime(stamp)] *)
Definition hasPassedTime (stamp : Z) : bool :=
  let timestamps :=
    flat_map (fun e : string * Track =>
                match snd e with
                | [] => []
                | (first, _) :: _ => [first]
                end) (object_map_ self) in
  match min_element timestamps with
  | Some oldest_stamp => if stamp <? oldest_stamp then false else true
  | None => true
  end.

(** One turn of the loop of [getClosestStamp]; the state is
    [(closest_stamp, min_duration)]. *)
Definition closest_step (stamp : Z) (acc : Z * Z) (e : string * Track) : Z * Z :=
  let stamp_and_objects := snd e in
  match stamp_and_objects with
  | [] => acc
  | _ :: _ =>
      let it := lower_bound stamp_and_objects stamp in
      (* check the upper bound *)
      let acc1 :=
        match nth_error stamp_and_objects it with
        | Some (first, _) =>
            let duration := first - stamp in
            if Z.abs duration <? snd acc then (first, duration) else acc
        | None => acc
        end in
      (* check the lower bound (if it is not the first element) *)
      match it with
      | O => acc1
      | S prev_it =>
          match nth_error stamp_and_objects prev_it with
          | Some (first, _) =>
              let duration := stamp - first in
              if Z.abs duration <? snd acc1 then (first, duration) else acc1
          | None => acc1
          end
      end
  end.

(** [MetricsCalculator::getClosestStamp]; a default-constructed
    [rclcpp::Time] is 0. *)
Definition getClosestStamp (stamp : Z) : Z :=
  fst (fold_left (closest_step stamp) (object_map_ self) (0, INT64_MAX)).

(** The lookup shared by [getObjectByStamp] and [getObjectsByStamp]:
    [lower_bound] followed by the test [it != end && it->first == stamp]. *)
Definition lookup_exact (m : Track) (closest_stamp : Z) : option PredictedObject :=
  match nth_error m (lower_bound m closest_stamp) with
  | Some (first, second) => if first =? closest_stamp then Some second else None
  | None => None
  end.

(** [MetricsCalculator::getObjectByStamp] *)
Definition getObjectByStamp (uuid : string) (stamp : Z) : result (option PredictedObject) :=
  let closest_stamp := getClosestStamp stamp in
  m <- at_ String.eqb (object_map_ self) uuid ;;
  Ok (lookup_exact m closest_stamp).

(** [MetricsCalculator::getObjectsByStamp] *)
Definition getObjectsByStamp (stamp : Z) : PredictedObjects :=
  let closest_stamp := getClosestStamp stamp in
  {| header_stamp := stamp;
     objects :=
       flat_map (fun e : string * Track =>
                   match lookup_exact (snd e) closest_stamp with
                   | Some second => [second]
                   | None => []
                   end) (object_map_ self) |}.
End Store.

(** ** Loops *)

(** A range-[for] whose body may throw. *)
Fixpoint for_each {A S : Type} (l : list A) (body : S -> A -> result S) (s : S) : result S :=
  match l with
  | [] => Ok s
  | a :: tl => s' <- body s a ;; for_each tl body s'
  end.

(** [std::to_string] of a [size_t] *)
Definition to_string (i : nat) : string :=
  NilEmpty.string_of_uint (Nat.to_uint i).

(** [stream << std::fixed << std::setprecision(2) << value]: the decimal
    expansion rounded to two places, halves to even. *)
Definition round_half_even (q : Q) : Z :=
  let n := Qfloor q in
  match Qcompare (q - inject_Z n)%Q (1 # 2) with
  | Gt => n + 1
  | Eq => if Z.even n then n else n + 1
  | Lt => n
  end.

Definition digits (n : Z) : string :=
  NilEmpty.string_of_uint (N.to_uint (Z.to_N n)).

Definition fixed2 (value : Q) : string :=
  let hundredths := round_half_even (Qabs value * 100)%Q in
  let sign : string := if Qlt_bool value 0 then "-"%string else EmptyString in
  let pad : string := if hundredths mod 100 <? 10 then "0"%string else EmptyString in
  String.concat EmptyString
    [sign; digits (hundredths / 100); "."%string; pad; digits (hundredths mod 100)].

(** ** The path smoother *)

Definition default_pose : Pose :=
  {| position := {| x := 0; y := 0; z := 0 |};
     orientation := {| qx := 0; qy := 0; qz := 0; qw := 1 |} |}.

(** [path[j]] for a [size_t] index *)
Definition at_index (path : list Pose) (j : Z) : Pose :=
  nth (Z.to_nat j) path default_pose.

Definition set_orientation (p : Pose) (q : Quaternion) : Pose :=
  {| position := position p; orientation := q |}.

(** [v[i] = p] on a vector *)
Fixpoint replace_nth (i : nat) (p : Pose) (v : list Pose) : list Pose :=
  match v, i with
  | [], _ => []
  | _ :: tl, O => p :: tl
  | a :: tl, S i' => a :: replace_nth i' p tl
  end.

Record Sums : Type := {
  sum_x : Q;
  sum_y : Q;
  sum_z : Q;
  valid_points : Z
}.

Definition no_sums : Sums :=
  {| sum_x := 0; sum_y := 0; sum_z := 0; valid_points := 0 |}.

(** The inner loop of the position pass, [turns] turns from index [j]. *)
Fixpoint window_loop (path : list Pose) (j : Z) (turns : nat) (acc : Sums) : Sums :=
  match turns with
  | O => acc
  | S turns' =>
      let p := position (at_index path j) in
      window_loop path (j + 1) turns'
        {| sum_x := (sum_x acc + x p)%Q;
           sum_y := (sum_y acc + y p)%Q;
           sum_z := (sum_z acc + z p)%Q;
           valid_points := valid_points acc + 1 |}
  end.

(** The bounds of the inner loop as the source computes them: both
    operands of [std::max] and [std::min] are [size_t]. *)
Definition window_first (half_window i : Z) : Z :=
  Z.max (size_sub i half_window) 0.

Definition window_last (size half_window i : Z) : Z :=
  Z.min (size_add i half_window) (size_sub size 1).

(** One turn of the position pass: the pose pushed for index [i]. *)
Definition average_pose (path : list Pose) (half_window i : Z) : Pose :=
  let first := window_first half_window i in
  let last := window_last (Z.of_nat (List.length path)) half_window i in
  (* j runs while j <= last *)
  let s := window_loop path first (Z.to_nat (last + 1 - first)) no_sums in
  {| position :=
       if 0 <? valid_points s
       then {| x := (sum_x s / inject_Z (valid_points s))%Q;
               y := (sum_y s / inject_Z (valid_points s))%Q;
               z := (sum_z s / inject_Z (valid_points s))%Q |}
       else position (at_index path i);
     orientation := orientation (at_index path i) |}.

Definition position_pass (path : list Pose) (window_size : Z) : list Pose :=
  let half_window := window_size / 2 in
  map (fun i => average_pose path half_window (Z.of_nat i)) (seq 0 (List.length path)).

Section Smoother.
(** Helpers of tier4_autoware_utils, taken as given. *)
Variable calcDistance2d : Point -> Point -> Q.
Variable calcAzimuthAngle : Point -> Point -> Q.
Variable createQuaternionFromYaw : Q -> Quaternion.

(** One turn of the orientation pass, on the vector being rewritten. *)
Definition orientation_step (filtered_path : list Pose) (i : nat) : list Pose :=
  let size := List.length filtered_path in
  let p := nth i filtered_path default_pose in
  let p_prev := nth (i - 1) filtered_path default_pose in
  if (0 <? i)%nat && Qlt_bool (calcDistance2d (position p_prev) (position p)) (1 # 10)
  then replace_nth i (set_orientation p (orientation p_prev)) filtered_path
  else if (i <? size - 1)%nat
  then
    let yaw :=
      calcAzimuthAngle (position p) (position (nth (i + 1) filtered_path default_pose)) in
    replace_nth i (set_orientation p (createQuaternionFromYaw yaw)) filtered_path
  else if (1 <? size)%nat
  then replace_nth i (set_orientation p (orientation p_prev)) filtered_path
  else filtered_path.

Definition orientation_pass (filtered_path : list Pose) : list Pose :=
  fold_left orientation_step (seq 0 (List.length filtered_path)) filtered_path.

(** [MetricsCalculator::averageFilterPath] *)
Definition averageFilterPath (path : list Pose) (window_size : Z) : list Pose :=
  orientation_pass (position_pass path window_size).
End Smoother.

(** ** The deviation-metrics engine *)

(** [deviation_map_for_paths]: per object, per hypothesis index, the
    distances recorded for it. *)
Definition DeviationMap : Type := list (string * list (nat * list Q)).

(** [debug_predicted_path_pairs_map] *)
Definition PairsMap : Type := list (string * list (Pose * Pose)).

Definition DebugMap : Type := list (string * ObjectData).

(** [m[k]] read on a map, a missing key reading as the default value. *)
Definition get_or {K V : Type} (eqb : K -> K -> bool) (m : list (K * V)) (k : K) (d : V) : V :=
  match find eqb m k with
  | Some v => v
  | None => d
  end.

(** [deviation_map_for_paths[uuid][i].push_back(distance)] *)
Definition push_deviation (dm : DeviationMap) (uuid : string) (i : nat) (distance : Q)
  : DeviationMap :=
  let inner := get_or String.eqb dm uuid [] in
  assign String.eqb dm uuid
    (assign Nat.eqb inner i (get_or Nat.eqb inner i [] ++ [distance])).

(** [debug_predicted_path_pairs_map[path_id].push_back(pair)] *)
Definition push_pair (pm : PairsMap) (path_id : string) (pair : Pose * Pose) : PairsMap :=
  assign String.eqb pm path_id (get_or String.eqb pm path_id [] ++ [pair]).

Section Engine.
Variable calcDistance2d : Point -> Point -> Q.
Variable calcAzimuthAngle : Point -> Point -> Q.
Variable createQuaternionFromYaw : Q -> Quaternion.
(** [metrics::calcLateralDeviation] and [metrics::calcYawDeviation] *)
Variable calcLateralDeviation : list Pose -> Pose -> Q.
Variable calcYawDeviation : list Pose -> Pose -> Q.
(** The order in which a range-[for] visits an [unordered_map] built
    inside a function. *)
Variable iteration : forall K V : Type, list (K * V) -> list (K * V).

Variable self : MetricsCalculator.

(** The body of the loop shared by [calcLateralDeviationMetrics] and
    [calcYawDeviationMetrics], with the deviation function as argument. *)
Definition deviation_step (deviation : list Pose -> Pose -> Q) (stamp : Z)
           (stat : Stat) (object : PredictedObject) : result Stat :=
  let uuid := object_id object in
  passed <- hasPassedTime_uuid self uuid stamp ;;
  if negb passed then Ok stat
  else
    let object_pose := pose object in
    paths <- at_ String.eqb (history_path_map_ self) uuid ;;
    let history_path := snd paths in
    match history_path with
    | [] => Ok stat
    | _ :: _ => Ok (stat_add stat (deviation history_path object_pose))
    end.

(** [MetricsCalculator::calcLateralDeviationMetrics] *)
Definition calcLateralDeviationMetrics (objects_ : PredictedObjects) : result MetricStatMap :=
  let stamp := header_stamp objects_ in
  stat <- for_each (objects objects_) (deviation_step calcLateralDeviation stamp) stat_empty ;;
  Ok (assign String.eqb [] "lateral_deviation"%string stat).

(** [MetricsCalculator::calcYawDeviationMetrics] *)
Definition calcYawDeviationMetrics (objects_ : PredictedObjects) : result MetricStatMap :=
  let stamp := header_stamp objects_ in
  stat <- for_each (objects objects_) (deviation_step calcYawDeviation stamp) stat_empty ;;
  Ok (assign String.eqb [] "yaw_deviation"%string stat).

(** The loop over the poses [j], [j+1], ... of one predicted path. *)
Fixpoint walk_path (uuid : string) (i : nat) (path_id : string) (step : Z)
         (time_horizon : Q) (stamp : Z) (poses : list Pose) (j : Z)
         (acc : DeviationMap * PairsMap) : result (DeviationMap * PairsMap) :=
  match poses with
  | [] => Ok acc
  | p :: rest =>
      let time_duration := (seconds step * inject_Z j)%Q in
      if Qlt_bool time_horizon time_duration then Ok acc
      else
        let target_stamp := stamp + from_seconds time_duration in
        passed <- hasPassedTime_uuid self uuid target_stamp ;;
        if negb passed
        then walk_path uuid i path_id step time_horizon stamp rest (j + 1) acc
        else
          history_object_opt <- getObjectByStamp self uuid target_stamp ;;
          match history_object_opt with
          | None => walk_path uuid i path_id step time_horizon stamp rest (j + 1) acc
          | Some history_object =>
              let history_pose := pose history_object in
              let distance := calcDistance2d (position p) (position history_pose) in
              walk_path uuid i path_id step time_horizon stamp rest (j + 1)
                (push_deviation (fst acc) uuid i distance,
                 push_pair (snd acc) path_id (p, history_pose))
          end
  end.

(** The loop over the predicted paths [i], [i+1], ... of one object. *)
Fixpoint walk_paths (uuid : string) (time_horizon : Q) (stamp : Z)
         (paths : list PredictedPath) (i : nat)
         (acc : DeviationMap * PairsMap) : result (DeviationMap * PairsMap) :=
  match paths with
  | [] => Ok acc
  | predicted_path :: rest =>
      let path_id := String.append uuid (String.append "_" (to_string i)) in
      acc' <- walk_path uuid i path_id (time_step predicted_path) time_horizon stamp
                (path predicted_path) 0 acc ;;
      walk_paths uuid time_horizon stamp rest (S i) acc'
  end.

(** The first loop of [calcPredictedPathDeviationMetrics(objects,
    time_horizon)]: the distances recorded for every object and path. *)
Definition record_deviations (objects_ : PredictedObjects) (time_horizon : Q)
  : result (DeviationMap * PairsMap) :=
  for_each (objects objects_)
    (fun acc object =>
       walk_paths (object_id object) time_horizon (header_stamp objects_)
         (predicted_paths object) 0 acc)
    ([], []).

(** The inner loop of the selection; the state is
    [(min_deviation_index, min_sum_deviation)]. *)
Definition select_step (acc : nat * Q) (e : nat * list Q) : nat * Q :=
  match snd e with
  | [] => acc
  | _ :: _ =>
      let sum := accumulate (snd e) 0 in
      if Qlt_bool sum (snd acc) then (fst e, sum) else acc
  end.

Definition min_deviation_index (deviation_map : list (nat * list Q)) : nat :=
  fst (fold_left select_step (iteration _ _ deviation_map) (O, DBL_MAX)).

(** The body of the second loop: the selected path of one object, and
    the debug record of that object. *)
Definition select_path (stamp : Z) (pairs : PairsMap)
           (acc : list (string * list Q) * DebugMap)
           (e : string * list (nat * list Q))
  : result (list (string * list Q) * DebugMap) :=
  let uuid := fst e in
  let deviation_map := snd e in
  let index := min_deviation_index deviation_map in
  deviations <- at_ Nat.eqb deviation_map index ;;
  let deviation_map_for_objects := assign String.eqb (fst acc) uuid deviations in
  let path_id := String.append uuid (String.append "_" (to_string index)) in
  target_stamp_object <- getObjectByStamp self uuid stamp ;;
  match target_stamp_object with
  | Some o =>
      Ok (deviation_map_for_objects,
          assign String.eqb (snd acc) uuid
            {| object := o; path_pairs := get_or String.eqb pairs path_id [] |})
  | None => Ok (deviation_map_for_objects, snd acc)
  end.

(** The third loop: every retained distance goes into the statistic. *)
Definition store_deviations (deviation_map_for_objects : list (string * list Q)) : Stat :=
  fold_left
    (fun stat e => fold_left stat_add (snd e) stat)
    (iteration _ _ deviation_map_for_objects) stat_empty.

(** [MetricsCalculator::calcPredictedPathDeviationMetrics(objects,
    time_horizon)]; the second component is [debug_target_object_]
    after the call. *)
Definition calcPredictedPathDeviationMetrics_horizon
           (objects_ : PredictedObjects) (time_horizon : Q) (debug : DebugMap)
  : result (Stat * DebugMap) :=
  recorded <- record_deviations objects_ time_horizon ;;
  selected <- for_each (iteration _ _ (fst recorded))
                (select_path (header_stamp objects_) (snd recorded)) ([], debug) ;;
  Ok (store_deviations (fst selected), snd selected).

(** [MetricsCalculator::calcPredictedPathDeviationMetrics(objects)] *)
Definition calcPredictedPathDeviationMetrics
           (objects_ : PredictedObjects) (debug : DebugMap)
  : result (MetricStatMap * DebugMap) :=
  let time_horizons := prediction_time_horizons (parameters_ self) in
  for_each time_horizons
    (fun acc time_horizon =>
       r <- calcPredictedPathDeviationMetrics_horizon objects_ time_horizon (snd acc) ;;
       let time_horizon_str := fixed2 time_horizon in
       Ok (assign String.eqb (fst acc)
             (String.append "predicted_path_deviation_" time_horizon_str) (fst r),
           snd r))
    ([], debug).

(** [MetricsCalculator::calculate]; the second component is
    [debug_target_object_] after the call. *)
Definition calculate (metric : Metric) : result (option MetricStatMap * DebugMap) :=
  let debug := debug_target_object_ self in
  match object_map_ self with
  | [] => Ok (None, debug)
  | _ :: _ =>
      time_delay <- getTimeDelay self ;;
      let target_stamp := current_stamp_ self - from_seconds time_delay in
      if negb (hasPassedTime self target_stamp) then Ok (None, debug)
      else
        let target_objects := getObjectsByStamp self target_stamp in
        match metric with
        | lateral_deviation =>
            m <- calcLateralDeviationMetrics target_objects ;; Ok (Some m, debug)
        | yaw_deviation =>
            m <- calcYawDeviationMetrics target_objects ;; Ok (Some m, debug)
        | predicted_path_deviation =>
            r <- calcPredictedPathDeviationMetrics target_objects debug ;;
            Ok (Some (fst r), snd r)
        | SIZE => Ok (None, debug)
        end
  end.

(** ** Ingest *)

(** The first loop of [deleteOldObjects] on one track. *)
Fixpoint erase_old (stamp_and_objects : Track) (cutoff : Z) : Track :=
  match stamp_and_objects with
  | [] => []
  | (first, second) :: rest =>
      if first <? cutoff then erase_old rest cutoff else stamp_and_objects
  end.

(** The body of the second loop of [deleteOldObjects]. *)
Definition purge_empty (s : MetricsCalculator) (e : string * Track) : MetricsCalculator :=
  match snd e with
  | [] =>
      {| parameters_ := parameters_ s;
         current_stamp_ := current_stamp_ s;
         object_map_ := erase String.eqb (object_map_ s) (fst e);
         history_path_map_ := erase String.eqb (history_path_map_ s) (fst e);
         debug_target_object_ := erase String.eqb (debug_target_object_ s) (fst e) |}
  | _ :: _ => s
  end.

(** [MetricsCalculator::deleteOldObjects] *)
Definition deleteOldObjects (stamp : Z) : result MetricsCalculator :=
  time_delay <- getTimeDelay self ;;
  let cutoff := stamp - from_seconds (time_delay * 2)%Q in
  let trimmed :=
    {| parameters_ := parameters_ self;
       current_stamp_ := current_stamp_ self;
       object_map_ :=
         map (fun e : string * Track => (fst e, erase_old (snd e) cutoff)) (object_map_ self);
       history_path_map_ := history_path_map_ self;
       debug_target_object_ := debug_target_object_ self |} in
  let object_map := object_map_ trimmed in
  Ok (fold_left purge_empty object_map trimmed).

(** [MetricsCalculator::updateObjects] *)
Definition updateObjects (uuid : string) (stamp : Z) (object : PredictedObject)
  : MetricsCalculator :=
  {| parameters_ := parameters_ self;
     current_stamp_ := current_stamp_ self;
     object_map_ :=
       assign String.eqb (object_map_ self) uuid
         (insert_or_assign (get_or String.eqb (object_map_ self) uuid []) stamp object);
     history_path_map_ := history_path_map_ self;
     debug_target_object_ := debug_target_object_ self |}.

(** [MetricsCalculator::updateHistoryPath] *)
Definition updateHistoryPath : MetricsCalculator :=
  let window_size := smoothing_window_size (parameters_ self) in
  {| parameters_ := parameters_ self;
     current_stamp_ := current_stamp_ self;
     object_map_ := object_map_ self;
     history_path_map_ :=
       fold_left
         (fun hm (e : string * Track) =>
            let history_path := map (fun so => pose (snd so)) (snd e) in
            assign String.eqb hm (fst e)
              (history_path,
               averageFilterPath calcDistance2d calcAzimuthAngle createQuaternionFromYaw
                 history_path window_size))
         (object_map_ self) (history_path_map_ self);
     debug_target_object_ := debug_target_object_ self |}.
End Engine.

Section Ingest.
Variable calcDistance2d : Point -> Point -> Q.
Variable calcAzimuthAngle : Point -> Point -> Q.
Variable createQuaternionFromYaw : Q -> Quaternion.
(** [filterDeviationCheckObjects] of utils/objects_filtering, with the
    object parameters of the configuration applied. *)
Variable filterDeviationCheckObjects : PredictedObjects -> PredictedObjects.

(** [MetricsCalculator::setPredictedObjects]; the assignment
    [current_stamp_ = objects.header.stamp] builds an [rclcpp::Time] from
    the stamp of the message, which raises on a negative stamp before
    anything is written. *)
Definition setPredictedObjects (self : MetricsCalculator) (objects_ : PredictedObjects)
  : result MetricsCalculator :=
  if header_stamp objects_ <? 0
  then Throw (runtime_error "cannot store a negative time point in rclcpp::Time")
  else
  let stamped :=
    {| parameters_ := parameters_ self;
       current_stamp_ := header_stamp objects_;
       object_map_ := object_map_ self;
       history_path_map_ := history_path_map_ self;
       debug_target_object_ := debug_target_object_ self |} in
  let deviation_check_objects := filterDeviationCheckObjects objects_ in
  let stored :=
    fold_left
      (fun s object => updateObjects s (object_id object) (current_stamp_ s) object)
      (objects deviation_check_objects) stamped in
  trimmed <- deleteOldObjects stored (current_stamp_ stored) ;;
  Ok (updateHistoryPath calcDistance2d calcAzimuthAngle createQuaternionFromYaw trimmed).
End Ingest.

(** A sequence of batches, one call of [setPredictedObjects] each. *)
Definition ingest_all
           (calcDistance2d : Point -> Point -> Q)
           (calcAzimuthAngle : Point -> Point -> Q)
           (createQuaternionFromYaw : Q -> Quaternion)
           (filterDeviationCheckObjects : PredictedObjects -> PredictedObjects)
           (batches : list PredictedObjects) (self : MetricsCalculator)
  : result MetricsCalculator :=
  for_each batches
    (setPredictedObjects calcDistance2d calcAzimuthAngle createQuaternionFromYaw
       filterDeviationCheckObjects)
    self.

(** ** Statements of the specification

    Each definition below follows the words of the specification; the
    theorems compare them with the functions above. *)

Definition Point_eq (p q : Point) : Prop :=
  (x p == x q /\ y p == y q /\ z p == z q)%Q.

(** "[snapshotAt(key, timestamp)]: exact-match lookup; returns not found
    if no entry in [key]'s track has exactly that timestamp": a snapshot
    is returned only if the track holds it at the requested stamp, and
    not-found is returned otherwise. *)
Definition spec_snapshotAt (self : MetricsCalculator) (uuid : string) (stamp : Z) : Prop :=
  forall m, find String.eqb (object_map_ self) uuid = Some m ->
            (forall o, getObjectByStamp self uuid stamp = Ok (Some o) -> In (stamp, o) m)
            /\ (entry_at m stamp = None -> getObjectByStamp self uuid stamp = Ok None).

(** "Lookups on an unknown key ... are local return values (absent/empty),
    never propagated as fatal." *)
Definition spec_unknown_key_local (self : MetricsCalculator) (uuid : string) (stamp : Z) : Prop :=
  find String.eqb (object_map_ self) uuid = None ->
  getObjectByStamp self uuid stamp = Ok None /\ hasPassedTime_uuid self uuid stamp = Ok false.

(** The newest entry of a track. *)
Definition newest (m : Track) : option (Z * PredictedObject) := last (map Some m) None.

(** "Eviction never removes the newest entry of a non-empty track even if
    it is older than the retention window." *)
Definition spec_keeps_newest (self : MetricsCalculator) (stamp : Z) : Prop :=
  forall after uuid m e,
    deleteOldObjects self stamp = Ok after ->
    find String.eqb (object_map_ self) uuid = Some m ->
    newest m = Some e ->
    exists m', find String.eqb (object_map_ after) uuid = Some m' /\ newest m' = Some e.

(** "Position pass: for each index i, average the position of all poses
    within [i - windowSize/2, i + windowSize/2] clamped to the sequence
    bounds." *)
Definition spec_window (path : list Pose) (window_size : Z) (i : Z) : list Point :=
  let lo := Z.max 0 (i - window_size / 2) in
  let hi := Z.min (Z.of_nat (List.length path) - 1) (i + window_size / 2) in
  map position (firstn (Z.to_nat (hi + 1 - lo)) (skipn (Z.to_nat lo) path)).

Definition mean (l : list Q) : Q :=
  (fold_right Qplus 0 l / inject_Z (Z.of_nat (List.length l)))%Q.

Definition spec_window_mean (path : list Pose) (window_size : Z) (i : Z) : Point :=
  let w := spec_window path window_size i in
  {| x := mean (map x w); y := mean (map y w); z := mean (map z w) |}.

(** "For each index i except the last, if the 2-D distance between pose i
    and pose i+1 is below a fixed threshold (0.1 distance units), copy the
    orientation from pose i-1; otherwise set pose i's orientation to the
    bearing from pose i to pose i+1.  The last pose copies the orientation
    of the second-to-last pose."  [averaged] is the sequence after the
    position pass and [smoothed] the result. *)
Definition spec_orientation_rule
           (calcDistance2d : Point -> Point -> Q)
           (calcAzimuthAngle : Point -> Point -> Q)
           (createQuaternionFromYaw : Q -> Quaternion)
           (averaged smoothed : list Pose) : Prop :=
  forall i : nat,
    (i < List.length averaged)%nat ->
    let p := nth i averaged default_pose in
    let p_next := nth (i + 1) averaged default_pose in
    if (i + 1 <? List.length averaged)%nat
    then
      if Qlt_bool (calcDistance2d (position p) (position p_next)) (1 # 10)
      then orientation (nth i smoothed default_pose)
           = orientation (nth (i - 1) smoothed default_pose)
      else orientation (nth i smoothed default_pose)
           = createQuaternionFromYaw (calcAzimuthAngle (position p) (position p_next))
    else orientation (nth i smoothed default_pose)
         = orientation (nth (i - 1) smoothed default_pose).

(** Collinear, evenly spaced poses: pose [k] lies at [origin + k * step]. *)
Definition evenly_spaced (origin step : Point) (path : list Pose) : Prop :=
  forall k : nat,
    (k < List.length path)%nat ->
    Point_eq (position (nth k path default_pose))
             {| x := (x origin + inject_Z (Z.of_nat k) * x step)%Q;
                y := (y origin + inject_Z (Z.of_nat k) * y step)%Q;
                z := (z origin + inject_Z (Z.of_nat k) * z step)%Q |}.

(** "Metrics with no contributing data are omitted rather than emitted as
    zero/empty." *)
Definition spec_omits_empty (m : MetricStatMap) : Prop :=
  forall name stat, In (name, stat) m -> stat_count stat <> O.

(** "Ties broken by first-seen hypothesis index": no hypothesis with a
    smaller index has the same sum of recorded distances. *)
Definition spec_smallest_index (deviation_map : list (nat * list Q)) (index : nat) : Prop :=
  forall j ds_j ds,
    find Nat.eqb deviation_map index = Some ds ->
    find Nat.eqb deviation_map j = Some ds_j ->
    (accumulate ds_j 0 == accumulate ds 0)%Q ->
    (index <= j)%nat.

(** ** Sample data

    Rational stand-ins for the geometry helpers of tier4_autoware_utils:
    the distance of two points on a common axis-parallel line, the
    bearing counted in quarter turns along the unit diamond, and a
    quaternion that keeps the yaw it is made from. *)

Definition axis_distance (p q : Point) : Q :=
  (Qabs (x q - x p) + Qabs (y q - y p))%Q.

Definition diamond_azimuth (p q : Point) : Q :=
  let dx := (x q - x p)%Q in
  let dy := (y q - y p)%Q in
  let n := (Qabs dx + Qabs dy)%Q in
  if Qeq_bool n 0 then 0%Q
  else if Qle_bool 0 dx then (dy / n)%Q
  else if Qle_bool 0 dy then (2 - dy / n)%Q
  else (- 2 - dy / n)%Q.

Definition yaw_quaternion (yaw : Q) : Quaternion :=
  {| qx := 0; qy := 0; qz := yaw; qw := 1 |}.

Definition identity_order (K V : Type) (m : list (K * V)) : list (K * V) := m.

(** The order libstdc++ gives to a small table: newest key first. *)
Definition newest_first (K V : Type) (m : list (K * V)) : list (K * V) := rev m.

Definition pose_at (px py : Q) : Pose :=
  {| position := {| x := px; y := py; z := 0 |};
     orientation := {| qx := 0; qy := 0; qz := 0; qw := 1 |} |}.

Definition object_at (uuid : string) (px py : Q) : PredictedObject :=
  {| object_id := uuid; pose := pose_at px py; predicted_paths := [] |}.

Definition sample_parameters (horizons : list Q) : Parameters :=
  {| prediction_time_horizons := horizons; smoothing_window_size := 1 |}.

Definition second : Z := 1000000000.

(** One object seen at 10 s; horizons [5 s]. *)
Definition one_track : MetricsCalculator :=
  {| parameters_ := sample_parameters [5%Q];
     current_stamp_ := 10 * second;
     object_map_ := [("a"%string, [(10 * second, object_at "a" 20 0)])];
     history_path_map_ := [("a"%string, ([pose_at 20 0], [pose_at 20 0]))];
     debug_target_object_ := [] |}.

(** The same store 100 s later. *)
Definition one_stale_track : MetricsCalculator :=
  {| parameters_ := sample_parameters [5%Q];
     current_stamp_ := 110 * second;
     object_map_ := object_map_ one_track;
     history_path_map_ := history_path_map_ one_track;
     debug_target_object_ := [] |}.

(** The store of [one_track] configured with no horizon. *)
Definition one_track_no_horizon : MetricsCalculator :=
  {| parameters_ := sample_parameters [];
     current_stamp_ := current_stamp_ one_track;
     object_map_ := object_map_ one_track;
     history_path_map_ := history_path_map_ one_track;
     debug_target_object_ := [] |}.

(** An empty store configured with no horizon. *)
Definition empty_store : MetricsCalculator :=
  {| parameters_ := sample_parameters [];
     current_stamp_ := 0;
     object_map_ := [];
     history_path_map_ := [];
     debug_target_object_ := [] |}.

(** Two objects: [a] seen at 0 s and 10 s, [b] at 6 s and 10 s; the
    current stamp is 15 s and the only horizon 10 s, so the evaluated
    stamp is 5 s. *)
Definition two_tracks : MetricsCalculator :=
  {| parameters_ := sample_parameters [10%Q];
     current_stamp_ := 15 * second;
     object_map_ :=
       [("a"%string, [(0, object_at "a" 0 0); (10 * second, object_at "a" 20 0)]);
        ("b"%string, [(6 * second, object_at "b" 12 5); (10 * second, object_at "b" 20 5)])];
     history_path_map_ :=
       [("a"%string, ([pose_at 0 0; pose_at 20 0], [pose_at 0 0; pose_at 20 0]));
        ("b"%string, ([pose_at 12 5; pose_at 20 5], [pose_at 12 5; pose_at 20 5]))];
     debug_target_object_ := [] |}.

(** The batches that lead to [two_tracks], and the store they reach. *)
Definition two_tracks_batches : list PredictedObjects :=
  [{| header_stamp := 0; objects := [object_at "a" 0 0] |};
   {| header_stamp := 6 * second; objects := [object_at "b" 12 5] |};
   {| header_stamp := 10 * second; objects := [object_at "a" 20 0; object_at "b" 20 5] |};
   {| header_stamp := 15 * second; objects := [] |}].

Definition fresh_store (horizons : list Q) : MetricsCalculator :=
  {| parameters_ := sample_parameters horizons;
     current_stamp_ := 0;
     object_map_ := [];
     history_path_map_ := [];
     debug_target_object_ := [] |}.

(** Three poses on the x axis, the last gap wider than the first. *)
Definition uneven_path : list Pose := [pose_at 0 0; pose_at 1 0; pose_at 3 0].

(** Three poses one unit apart on the x axis. *)
Definition straight_path : list Pose := [pose_at 0 0; pose_at 1 0; pose_at 2 0].

(** A unit step along x followed by a step of 0.05 along y. *)
Definition corner_path : list Pose := [pose_at 0 0; pose_at 1 0; pose_at 1 (1 # 20)].

(** Two hypotheses whose recorded distances have the same sum. *)
Definition tied_paths : list (nat * list Q) := [(0%nat, [1%Q; 1%Q]); (1%nat, [2%Q; 0%Q])].

(** One object seen at 0 s and at 1 s, and the batch of 0 s in which it
    carries two predicted paths of two poses, one second apart; the
    first path stays one unit off the track at both poses, the second
    two units off at the first pose and on the track at the second. *)
Definition tie_object : PredictedObject :=
  {| object_id := "a";
     pose := pose_at 0 0;
     predicted_paths :=
       [{| path := [pose_at 0 1; pose_at 1 1]; time_step := second; confidence := 1 |};
        {| path := [pose_at 0 2; pose_at 1 0]; time_step := second; confidence := 1 |}] |}.

Definition tie_store : MetricsCalculator :=
  {| parameters_ := sample_parameters [1%Q];
     current_stamp_ := second;
     object_map_ := [("a"%string, [(0, tie_object); (second, object_at "a" 1 0)])];
     history_path_map_ := [("a"%string, ([pose_at 0 0; pose_at 1 0], [pose_at 0 0; pose_at 1 0]))];
     debug_target_object_ := [] |}.

Definition tie_batch : PredictedObjects :=
  {| header_stamp := 0; objects := [tie_object] |}.

(** "Requesting an empty horizon list raises the fatal configuration error
    instead of returning an empty mapping." *)
Definition spec_empty_horizons_fatal
           (calcDistance2d : Point -> Point -> Q)
           (calcLateralDeviation calcYawDeviation : list Pose -> Pose -> Q)
           (iteration : forall K V : Type, list (K * V) -> list (K * V))
           (self : MetricsCalculator) (metric : Metric) : Prop :=
  prediction_time_horizons (parameters_ self) = [] ->
  exists what,
    calculate calcDistance2d calcLateralDeviation calcYawDeviation iteration self metric
    = Throw (runtime_error what).

(** A stand-in for [metrics::calcLateralDeviation] and
    [metrics::calcYawDeviation] where their value plays no part. *)
Definition no_deviation (history_path : list Pose) (object_pose : Pose) : Q := 0.

(** ** Loop invariants *)

(** The loop invariant of [getClosestStamp]: the smallest distance seen
    is not negative, and it is zero only at the requested stamp. *)
Definition closest_inv (stamp : Z) (acc : Z * Z) : Prop :=
  0 <= snd acc /\ (snd acc = 0 -> fst acc = stamp).

(** The state of that loop once the requested stamp itself was met. *)
Definition closest_hit (stamp : Z) (acc : Z * Z) : Prop :=
  snd acc = 0 /\ fst acc = stamp.

(** The same statement on what [calculate] returns. *)
Definition spec_no_empty_metric
           (calcDistance2d : Point -> Point -> Q)
           (calcLateralDeviation calcYawDeviation : list Pose -> Pose -> Q)
           (iteration : forall K V : Type, list (K * V) -> list (K * V))
           (self : MetricsCalculator) (metric : Metric) : Prop :=
  forall m debug,
    calculate calcDistance2d calcLateralDeviation calcYawDeviation iteration self metric
    = Ok (Some m, debug) ->
    spec_omits_empty m.

(** The name under which the statistic of a horizon is stored. *)
Definition horizon_name (time_horizon : Q) : string :=
  String.append "predicted_path_deviation_" (fixed2 time_horizon).

(** The names a returned mapping holds, by metric. *)
Definition names_present (horizons : list Q) (metric : Metric) (m : MetricStatMap) : Prop :=
  match metric with
  | lateral_deviation => exists stat, m = [("lateral_deviation"%string, stat)]
  | yaw_deviation => exists stat, m = [("yaw_deviation"%string, stat)]
  | predicted_path_deviation =>
      forall h, In h horizons -> exists stat, find String.eqb m (horizon_name h) = Some stat
  | SIZE => False
  end.

(** Whether the second loop of [deleteOldObjects] erases [uuid]. *)
Definition purged (uuid : string) (e : string * Track) : bool :=
  match snd e with
  | [] => String.eqb (fst e) uuid
  | _ :: _ => false
  end.

(** "For a sequence of collinear, evenly spaced poses, the smoothed path
    equals the input path." *)
Definition spec_smoothing_identity
           (calcDistance2d : Point -> Point -> Q)
           (calcAzimuthAngle : Point -> Point -> Q)
           (createQuaternionFromYaw : Q -> Quaternion)
           (path : list Pose) (window_size : Z) : Prop :=
  (exists origin step, evenly_spaced origin step path) ->
  forall i : nat,
    (i < List.length path)%nat ->
    Point_eq
      (position
         (nth i (averageFilterPath calcDistance2d calcAzimuthAngle createQuaternionFromYaw
                   path window_size) default_pose))
      (position (nth i path default_pose)).

(** ** The selection of a predicted path *)

(** The type of the order of a visit. *)
Definition Iteration : Type := forall K V : Type, list (K * V) -> list (K * V).

(** The sum of the distances recorded for one hypothesis. *)
Definition sum_of (deviations : list Q) : Q := accumulate deviations 0.

(** Among the hypotheses visited in [order], the one with index [index]
    and distances [ds] is the first of minimal sum: every hypothesis
    visited before it has a greater sum, none after it a smaller one. *)
Definition first_minimum (order : list (nat * list Q)) (index : nat) (ds : list Q) : Prop :=
  exists before after,
    order = before ++ (index, ds) :: after
    /\ Forall (fun e => (sum_of ds < sum_of (snd e))%Q) before
    /\ Forall (fun e => (sum_of ds <= sum_of (snd e))%Q) after.

(** The loop invariant of the selection, after the hypotheses [visited]. *)
Definition select_inv (visited : list (nat * list Q)) (init acc : nat * Q) : Prop :=
  (acc = init /\ Forall (fun e => (snd init <= sum_of (snd e))%Q) visited)
  \/ (exists ds, snd acc = sum_of ds
                 /\ (sum_of ds < snd init)%Q
                 /\ first_minimum visited (fst acc) ds).

(** What the recording loops keep true of [deviation_map_for_paths]: an
    object is entered once, it is an object of the store, and each of its
    hypotheses is entered once, with at least one distance. *)
Definition recorded_ok (self : MetricsCalculator) (dm : DeviationMap) : Prop :=
  nodup_keys String.eqb dm = true
  /\ forall uuid inner,
      find String.eqb dm uuid = Some inner ->
      find String.eqb (object_map_ self) uuid <> None
      /\ nodup_keys Nat.eqb inner = true
      /\ inner <> []
      /\ forall i ds, find Nat.eqb inner i = Some ds -> ds <> [].

(** No recorded sum reaches the largest [double]. *)
Definition sums_bounded (dm : DeviationMap) : Prop :=
  forall uuid inner i ds,
    find String.eqb dm uuid = Some inner ->
    find Nat.eqb inner i = Some ds ->
    (sum_of ds < DBL_MAX)%Q.

(** ** The closest stamp *)

(** Every stamp some track of the store holds. *)
Definition stamps_of (object_map : list (string * Track)) : list Z :=
  flat_map (fun e : string * Track => map fst (snd e)) object_map.

(** The loop invariant of [getClosestStamp] after the tracks holding
    [stamps]: no stamp seen is nearer than the distance kept, and the
    stamp kept is one of them, at that distance, unless none was seen. *)
Definition nearest_inv (stamp : Z) (stamps : list Z) (acc : Z * Z) : Prop :=
  (forall k, In k stamps -> snd acc <= Z.abs (k - stamp))
  /\ ((acc = (0, INT64_MAX) /\ stamps = [])
      \/ (snd acc = Z.abs (fst acc - stamp) /\ In (fst acc) stamps)).

(** ** The incremental history path *)

Section Incremental.
Variable calcDistance2d : Point -> Point -> Q.
Variable calcAzimuthAngle : Point -> Point -> Q.
Variable createQuaternionFromYaw : Q -> Quaternion.

(** [MetricsCalculator::generateHistoryPathWithPrev]; the iterators
    [prev_history_path.end() - half_window_size] and
    [prev_history_path.end() - half_window_size * 2] are defined only
    when the path is that long. *)
Definition generateHistoryPathWithPrev
           (prev_history_path : list Pose) (new_pose : Pose) (window_size : Z)
  : result (list Pose) :=
  let half_window_size := window_size / 2 in
  let size := Z.of_nat (List.length prev_history_path) in
  let twice := (half_window_size * 2) mod SIZE_MOD in
  if (size <? half_window_size) || (size <? twice) then Throw undefined_behaviour
  else
    let history_path := firstn (Z.to_nat (size - half_window_size)) prev_history_path in
    let updated_poses := skipn (Z.to_nat (size - twice)) prev_history_path ++ [new_pose] in
    let updated_poses :=
      averageFilterPath calcDistance2d calcAzimuthAngle createQuaternionFromYaw
        updated_poses window_size in
    Ok (history_path ++ skipn (Z.to_nat half_window_size) updated_poses).
End Incremental.

(** ** Invariants of the state *)

(** Every key of the store has a history path, raw and smoothed, as long
    as its track. *)
Definition history_ok (self : MetricsCalculator) : bool :=
  forallb
    (fun e : string * Track =>
       match find String.eqb (history_path_map_ self) (fst e) with
       | Some (raw, smoothed) =>
           Nat.eqb (List.length raw) (List.length (snd e))
           && Nat.eqb (List.length smoothed) (List.length (snd e))
       | None => false
       end)
    (object_map_ self).

(** The oldest stamp of every track that holds one, as the store-wide
    [hasPassedTime] collects them. *)
Definition oldest_stamps (object_map : list (string * Track)) : list Z :=
  flat_map (fun e : string * Track =>
              match snd e with
              | [] => []
              | (first, _) :: _ => [first]
              end) object_map.

(** Whether a track still holds an entry. *)
Definition has_entries (e : string * Track) : bool :=
  match snd e with
  | [] => false
  | _ :: _ => true
  end.

(** The store after the first loop of [deleteOldObjects]. *)
Definition trim_tracks (cutoff : Z) (object_map : list (string * Track))
  : list (string * Track) :=
  map (fun e : string * Track => (fst e, erase_old (snd e) cutoff)) object_map.

(** The loop of [setPredictedObjects] that stores the objects of a batch. *)
Definition store_objects (self : MetricsCalculator) (batch : list PredictedObject)
  : MetricsCalculator :=
  fold_left
    (fun s object => updateObjects s (object_id object) (current_stamp_ s) object)
    batch self.

(** A store of two objects seen once each, 100 s apart, and a batch that
    names one object twice. *)
Definition far_apart : MetricsCalculator :=
  {| parameters_ := sample_parameters [5%Q];
     current_stamp_ := 100 * second;
     object_map_ :=
       [("a"%string, [(0, object_at "a" 0 0)]);
        ("b"%string, [(100 * second, object_at "b" 7 7)])];
     history_path_map_ :=
       [("a"%string, ([pose_at 0 0], [pose_at 0 0]));
        ("b"%string, ([pose_at 7 7], [pose_at 7 7]))];
     debug_target_object_ := [] |}.

Definition repeated_batch : PredictedObjects :=
  {| header_stamp := 101 * second;
     objects := [object_at "a" 1 1; object_at "c" 2 2; object_at "a" 3 3] |}.

(** What the recording loops keep true of [deviation_map_for_paths] with
    respect to the batch: an entry [(uuid, i)] stands for hypothesis [i]
    of an object of the batch with identifier [uuid]. *)
Definition from_batch (batch : list PredictedObject) (dm : DeviationMap) : Prop :=
  forall uuid inner i ds,
    find String.eqb dm uuid = Some inner ->
    find Nat.eqb inner i = Some ds ->
    exists o, In o batch /\ object_id o = uuid
              /\ (i < List.length (predicted_paths o))%nat.

(** * Properties *)

(** ** Auxiliary facts *)

(** Case analysis on the outcome of the loop the goal runs. *)
Ltac case_for_each r E :=
  match goal with
  | |- context [for_each ?l ?body ?s] => destruct (for_each l body s) as [r|] eqn:E
  end.

Lemma Qlt_bool_iff (a b : Q) : Qlt_bool a b = true <-> (a < b)%Q.
Proof.
  unfold Qlt_bool. rewrite negb_true_iff. split; intro H.
  - apply Qnot_le_lt. intro Hle. apply Qle_bool_iff in Hle. congruence.
  - destruct (Qle_bool b a) eqn:E; [|reflexivity].
    apply Qle_bool_iff in E. exfalso. exact (Qlt_not_le _ _ H E).
Qed.

Lemma Qlt_bool_false_iff (a b : Q) : Qlt_bool a b = false <-> (b <= a)%Q.
Proof.
  unfold Qlt_bool. rewrite negb_false_iff. apply Qle_bool_iff.
Qed.

Lemma store_ok_nodup om : store_ok om = true -> nodup_keys String.eqb om = true.
Proof. unfold store_ok. intro H. apply andb_true_iff in H. tauto. Qed.

Lemma store_ok_tracks om :
  store_ok om = true -> forall e, In e om -> track_ok (snd e) = true.
Proof.
  unfold store_ok. intro H. apply andb_true_iff in H. destruct H as [_ H].
  rewrite forallb_forall in H. exact H.
Qed.

Lemma track_ok_sorted m : track_ok m = true -> sorted m = true.
Proof. unfold track_ok. intro H. apply andb_true_iff in H. tauto. Qed.

Lemma track_ok_not_nil m : track_ok m = true -> m <> [].
Proof.
  unfold track_ok. intros H ->. apply andb_true_iff in H. destruct H as [_ H].
  discriminate H.
Qed.

(** *** Association lists with a decidable key equality *)

Section KeyedMaps.
Context {K V : Type} {eqb : K -> K -> bool}.
Hypothesis eqb_eq : forall a b, eqb a b = true <-> a = b.

Lemma eqb_same a : eqb a a = true.
Proof. now apply eqb_eq. Qed.

Lemma eqb_differ a b : a <> b -> eqb a b = false.
Proof.
  intro Hne. destruct (eqb a b) eqn:E; [|reflexivity].
  apply eqb_eq in E. contradiction.
Qed.

Lemma find_In (m : list (K * V)) k v : find eqb m k = Some v -> In (k, v) m.
Proof.
  induction m as [|[k' v'] m IH]; simpl; [discriminate|].
  destruct (eqb k' k) eqn:E.
  - intro H. injection H as ->. apply eqb_eq in E. subst. now left.
  - intro H. right. now apply IH.
Qed.

Lemma find_None_not_In (m : list (K * V)) k :
  find eqb m k = None -> forall v, ~ In (k, v) m.
Proof.
  induction m as [|[k' v'] m IH]; simpl; intros H v; [tauto|].
  destruct (eqb k' k) eqn:E; [discriminate|].
  intros [Heq|Hin].
  - injection Heq as -> _. rewrite eqb_same in E. discriminate.
  - exact (IH H v Hin).
Qed.

Lemma In_find_Some (m : list (K * V)) k v :
  In (k, v) m -> exists v', find eqb m k = Some v'.
Proof.
  intro Hin. destruct (find eqb m k) as [v'|] eqn:E; [now exists v'|].
  exfalso. exact (find_None_not_In _ _ E _ Hin).
Qed.

Lemma nodup_keys_find (m : list (K * V)) k v :
  nodup_keys eqb m = true -> In (k, v) m -> find eqb m k = Some v.
Proof.
  induction m as [|[k1 v1] m IH]; intros Hnd Hin; [destruct Hin|].
  simpl in Hnd. destruct (find eqb m k1) eqn:Ef; [discriminate|].
  destruct Hin as [Heq|Hin]; simpl.
  - injection Heq as -> ->. now rewrite eqb_same.
  - destruct (eqb k1 k) eqn:E; [|now apply IH].
    apply eqb_eq in E. subst k1.
    exfalso. exact (find_None_not_In _ _ Ef _ Hin).
Qed.

Lemma find_assign_same (m : list (K * V)) k v :
  find eqb (assign eqb m k v) k = Some v.
Proof.
  induction m as [|[k' v'] m IH]; simpl.
  - now rewrite eqb_same.
  - destruct (eqb k' k) eqn:E; simpl; rewrite E; [reflexivity|exact IH].
Qed.

Lemma find_assign_other (m : list (K * V)) k k' v :
  k <> k' -> find eqb (assign eqb m k v) k' = find eqb m k'.
Proof.
  intro Hne. induction m as [|[k1 v1] m IH]; simpl.
  - now rewrite (eqb_differ _ _ Hne).
  - destruct (eqb k1 k) eqn:E; simpl.
    + apply eqb_eq in E. subst k1. now rewrite (eqb_differ _ _ Hne).
    + now rewrite IH.
Qed.

Lemma key_eq_dec (a b : K) : {a = b} + {a <> b}.
Proof.
  destruct (eqb a b) eqn:E.
  - left. now apply eqb_eq.
  - right. intro H. apply eqb_eq in H. congruence.
Qed.

Lemma find_assign_keeps (m : list (K * V)) k k' v :
  (exists s, find eqb m k' = Some s) ->
  exists s, find eqb (assign eqb m k v) k' = Some s.
Proof.
  intros [s Hs]. destruct (key_eq_dec k k') as [->|Hne].
  - exists v. apply find_assign_same.
  - exists s. now rewrite find_assign_other.
Qed.

Lemma find_erase (m : list (K * V)) k' k :
  find eqb (erase eqb m k') k = if eqb k' k then None else find eqb m k.
Proof.
  unfold erase. induction m as [|[k1 v1] m IH]; simpl.
  - now destruct (eqb k' k).
  - destruct (eqb k1 k') eqn:E1; simpl.
    + apply eqb_eq in E1. subst k1. rewrite IH.
      now destruct (eqb k' k).
    + rewrite IH. destruct (eqb k' k) eqn:E2; [|reflexivity].
      apply eqb_eq in E2. subst k'. now rewrite E1.
Qed.

Lemma nodup_keys_assign (m : list (K * V)) k v :
  nodup_keys eqb m = true -> nodup_keys eqb (assign eqb m k v) = true.
Proof.
  induction m as [|[k1 v1] m IH]; intro Hnd; simpl; [reflexivity|].
  simpl in Hnd. destruct (find eqb m k1) eqn:Ef; [discriminate|].
  destruct (eqb k1 k) eqn:E; simpl.
  - now rewrite Ef.
  - rewrite find_assign_other, Ef; [now apply IH|].
    intros ->. rewrite eqb_same in E. discriminate.
Qed.
End KeyedMaps.

(** *** Sorted tracks *)

Lemma sorted_tail k v m : sorted ((k, v) :: m) = true -> sorted m = true.
Proof.
  simpl. destruct m as [|[k2 v2] m]; [reflexivity|].
  intro H. apply andb_true_iff in H. tauto.
Qed.

Lemma sorted_head_lt m : forall k v,
  sorted ((k, v) :: m) = true -> Forall (fun e => k < fst e) m.
Proof.
  induction m as [|[k2 v2] m IH]; intros k v H; constructor.
  - simpl in H. apply andb_true_iff in H. destruct H as [H _]. simpl. lia.
  - simpl in H. apply andb_true_iff in H. destruct H as [H1 H2].
    apply Z.ltb_lt in H1.
    specialize (IH k2 v2 H2).
    eapply Forall_impl; [|exact IH]. simpl. intros. lia.
Qed.

Lemma entry_at_above m stamp :
  Forall (fun e => stamp < fst e) m -> entry_at m stamp = None.
Proof.
  induction 1 as [|[k v] m Hlt _ IH]; simpl; [reflexivity|].
  simpl in Hlt. destruct (k =? stamp) eqn:E; [lia|exact IH].
Qed.

(** On a sorted track, [lower_bound] followed by the equality test is the
    exact-match lookup. *)
Lemma lookup_exact_entry_at m stamp :
  sorted m = true -> lookup_exact m stamp = entry_at m stamp.
Proof.
  unfold lookup_exact.
  induction m as [|[k v] m IH]; intro Hs; simpl; [reflexivity|].
  destruct (k <? stamp) eqn:Elt; simpl.
  - rewrite (IH (sorted_tail _ _ _ Hs)).
    destruct (k =? stamp) eqn:E; [lia|reflexivity].
  - destruct (k =? stamp) eqn:E; [reflexivity|].
    symmetry. apply entry_at_above.
    eapply Forall_impl; [|exact (sorted_head_lt _ _ _ Hs)].
    simpl. intros. lia.
Qed.

Lemma entry_at_In m stamp o : entry_at m stamp = Some o -> In (stamp, o) m.
Proof.
  induction m as [|[k v] m IH]; simpl; [discriminate|].
  destruct (k =? stamp) eqn:E.
  - intro H. injection H as ->. apply Z.eqb_eq in E. subst. now left.
  - intro H. right. now apply IH.
Qed.

Lemma In_entry_at m stamp o :
  sorted m = true -> In (stamp, o) m -> entry_at m stamp = Some o.
Proof.
  induction m as [|[k v] m IH]; intros Hs Hin; [destruct Hin|].
  destruct Hin as [Heq|Hin]; simpl.
  - injection Heq as -> ->. now rewrite Z.eqb_refl.
  - pose proof (sorted_head_lt _ _ _ Hs) as Hlt.
    rewrite Forall_forall in Hlt. specialize (Hlt _ Hin). simpl in Hlt.
    destruct (k =? stamp) eqn:E; [lia|].
    apply IH; [|exact Hin]. exact (sorted_tail _ _ _ Hs).
Qed.

(** *** The closest stamp *)

(** Entries before the lower bound are earlier than the value, and the
    entry at the lower bound is not. *)
Lemma lower_bound_not_before m val k v :
  nth_error m (lower_bound m val) = Some (k, v) -> val <= k.
Proof.
  induction m as [|[k' v'] m IH]; simpl; [discriminate|].
  destruct (k' <? val) eqn:E; simpl.
  - exact IH.
  - intro H. injection H as -> _. lia.
Qed.

Lemma lower_bound_before m val : forall i k v,
  (i < lower_bound m val)%nat -> nth_error m i = Some (k, v) -> k < val.
Proof.
  induction m as [|[k' v'] m IH]; simpl; intros i k v Hi; [lia|].
  destruct (k' <? val) eqn:E; [|lia].
  destruct i as [|i]; simpl.
  - intro H. injection H as -> _. lia.
  - apply IH. lia.
Qed.

Lemma closest_step_inv stamp acc e :
  closest_inv stamp acc -> closest_inv stamp (closest_step stamp acc e).
Proof.
  intros [Hnn Hz]. unfold closest_step.
  destruct (snd e) as [|e0 m0] eqn:Em; [split; assumption|].
  rewrite <- Em. clear Em e0 m0. set (m := snd e).
  set (acc1 := match nth_error m (lower_bound m stamp) with
               | Some (first, _) =>
                   if Z.abs (first - stamp) <? snd acc then (first, first - stamp) else acc
               | None => acc
               end).
  assert (H1 : closest_inv stamp acc1).
  { unfold acc1. destruct (nth_error m (lower_bound m stamp)) as [[k v]|] eqn:En;
      [|split; assumption].
    pose proof (lower_bound_not_before _ _ _ _ En).
    destruct (Z.abs (k - stamp) <? snd acc); [|split; assumption].
    split; simpl; lia. }
  destruct (lower_bound m stamp) as [|p] eqn:El; [exact H1|].
  destruct (nth_error m p) as [[k v]|] eqn:En; [|exact H1].
  assert (k < stamp).
  { apply (lower_bound_before m stamp p k v); [rewrite El; lia|exact En]. }
  destruct (Z.abs (stamp - k) <? snd acc1); [|exact H1].
  split; simpl; lia.
Qed.

Lemma closest_step_keeps_hit stamp acc e :
  closest_hit stamp acc -> closest_step stamp acc e = acc.
Proof.
  intros [Hz Hs]. unfold closest_step.
  destruct (snd e) as [|e0 m0] eqn:Em; [reflexivity|].
  rewrite <- Em. clear Em e0 m0. set (m := snd e).
  assert (H1 : match nth_error m (lower_bound m stamp) with
               | Some (first, _) =>
                   if Z.abs (first - stamp) <? snd acc then (first, first - stamp) else acc
               | None => acc
               end = acc).
  { destruct (nth_error m (lower_bound m stamp)) as [[k v]|]; [|reflexivity].
    destruct (Z.abs (k - stamp) <? snd acc) eqn:E; [lia|reflexivity]. }
  rewrite H1.
  destruct (lower_bound m stamp) as [|p]; [reflexivity|].
  destruct (nth_error m p) as [[k v]|]; [|reflexivity].
  destruct (Z.abs (stamp - k) <? snd acc) eqn:E; [lia|reflexivity].
Qed.

Lemma closest_step_hits stamp acc uuid m o :
  closest_inv stamp acc ->
  sorted m = true ->
  entry_at m stamp = Some o ->
  closest_hit stamp (closest_step stamp acc (uuid, m)).
Proof.
  intros [Hnn Hz] Hs He.
  rewrite <- (lookup_exact_entry_at _ _ Hs) in He. unfold lookup_exact in He.
  unfold closest_step. simpl snd.
  destruct m as [|e0 m0] eqn:Em; [discriminate|].
  rewrite <- Em in *. clear Em e0 m0.
  destruct (nth_error m (lower_bound m stamp)) as [[k v]|] eqn:En; [|discriminate].
  destruct (k =? stamp) eqn:Ek; [|discriminate]. apply Z.eqb_eq in Ek. subst k.
  set (acc1 := if Z.abs (stamp - stamp) <? snd acc then (stamp, stamp - stamp) else acc).
  assert (H1 : closest_hit stamp acc1).
  { unfold acc1. rewrite Z.sub_diag. simpl Z.abs.
    destruct (0 <? snd acc) eqn:E; unfold closest_hit; simpl; [lia|].
    assert (snd acc = 0) by lia. split; [assumption|auto]. }
  destruct (lower_bound m stamp) as [|p]; [exact H1|].
  destruct (nth_error m p) as [[k' v']|]; [|exact H1].
  destruct H1 as [H1z H1s].
  destruct (Z.abs (stamp - k') <? snd acc1) eqn:E; [lia|]. split; assumption.
Qed.

Lemma fold_closest_keeps_hit stamp om : forall acc,
  closest_hit stamp acc -> fold_left (closest_step stamp) om acc = acc.
Proof.
  induction om as [|e om IH]; intros acc H; simpl; [reflexivity|].
  rewrite (closest_step_keeps_hit _ _ _ H). now apply IH.
Qed.

Lemma fold_closest_hits stamp om : forall acc uuid m o,
  closest_inv stamp acc ->
  (forall e, In e om -> sorted (snd e) = true) ->
  In (uuid, m) om ->
  entry_at m stamp = Some o ->
  closest_hit stamp (fold_left (closest_step stamp) om acc).
Proof.
  induction om as [|e om IH]; intros acc uuid m o Hinv Hsorted Hin He; simpl.
  - destruct Hin.
  - destruct Hin as [-> | Hin].
    + assert (Hh : closest_hit stamp (closest_step stamp acc (uuid, m))).
      { eapply closest_step_hits; eauto. apply (Hsorted (uuid, m)). now left. }
      rewrite (fold_closest_keeps_hit _ _ _ Hh). exact Hh.
    + eapply IH; eauto.
      * now apply closest_step_inv.
      * intros e' He'. apply Hsorted. now right.
Qed.

(** A stamp that some track holds is its own closest stamp. *)
Lemma getClosestStamp_exact self stamp uuid m o :
  store_ok (object_map_ self) = true ->
  In (uuid, m) (object_map_ self) ->
  entry_at m stamp = Some o ->
  getClosestStamp self stamp = stamp.
Proof.
  intros Hok Hin He. unfold getClosestStamp.
  assert (H : closest_hit stamp
                (fold_left (closest_step stamp) (object_map_ self) (0, INT64_MAX))).
  { eapply fold_closest_hits; eauto.
    - split; simpl; [unfold INT64_MAX; lia|]. unfold INT64_MAX. simpl. lia.
    - intros e Hine. apply track_ok_sorted. now apply (store_ok_tracks _ Hok). }
  exact (proj2 H).
Qed.

(** ** The snapshot lookup *)

(** C1, as the specification states it, fails: with one entry at 10 s, a
    request for 12 s resolves to 10 s and returns the snapshot stored
    there, although the track has no entry at 12 s. *)
Lemma getObjectByStamp_returns_other_stamp :
  ~ spec_snapshotAt one_track "a" (12 * second).
Proof.
  intro H. destruct (H _ eq_refl) as [_ Hnone].
  specialize (Hnone eq_refl). vm_compute in Hnone. discriminate Hnone.
Qed.

(** C1, amended: for a key of the store, [getObjectByStamp] returns the
    entry that the key's track holds at exactly the store-wide closest
    stamp of the request, and not-found when the track has no entry
    there; when the track holds an entry at the requested stamp itself,
    that entry is the one returned. *)
Theorem getObjectByStamp_closest self uuid stamp m :
  store_ok (object_map_ self) = true ->
  find String.eqb (object_map_ self) uuid = Some m ->
  getObjectByStamp self uuid stamp = Ok (entry_at m (getClosestStamp self stamp))
  /\ (forall o, entry_at m stamp = Some o ->
                getObjectByStamp self uuid stamp = Ok (Some o)).
Proof.
  intros Hok Hfind.
  assert (Hs : sorted m = true).
  { apply track_ok_sorted. apply (store_ok_tracks _ Hok (uuid, m)).
    now apply (find_In String.eqb_eq). }
  assert (Hget : getObjectByStamp self uuid stamp
                 = Ok (entry_at m (getClosestStamp self stamp))).
  { unfold getObjectByStamp, at_. rewrite Hfind. simpl.
    now rewrite lookup_exact_entry_at. }
  split; [exact Hget|].
  intros o Ho. rewrite Hget.
  rewrite (getClosestStamp_exact self stamp uuid m o Hok (find_In String.eqb_eq _ _ _ Hfind) Ho).
  now rewrite Ho.
Qed.

Lemma getObjectByStamp_closest_witness :
  getObjectByStamp one_track "a" (12 * second)
  = Ok (entry_at [(10 * second, object_at "a" 20 0)]
          (getClosestStamp one_track (12 * second)))
  /\ (forall o, entry_at [(10 * second, object_at "a" 20 0)] (12 * second) = Some o ->
                getObjectByStamp one_track "a" (12 * second) = Ok (Some o)).
Proof.
  apply (getObjectByStamp_closest one_track "a" (12 * second)); reflexivity.
Defined.

(** ** Unknown keys *)

(** C8, as the specification states it, fails: [getObjectByStamp] reads the
    track with [at], which throws on a key the store does not hold. *)
Lemma getObjectByStamp_unknown_key_throws :
  ~ spec_unknown_key_local one_track "b" 0.
Proof.
  intro H. destruct (H eq_refl) as [H1 _]. vm_compute in H1. discriminate H1.
Qed.

Lemma walk_path_unknown_key dist self uuid i path_id step h stamp poses :
  find String.eqb (object_map_ self) uuid = None ->
  forall j acc,
    walk_path dist self uuid i path_id step h stamp poses j acc = Ok acc.
Proof.
  intro Hnone.
  induction poses as [|p rest IH]; intros j acc; simpl; [reflexivity|].
  destruct (Qlt_bool h (seconds step * inject_Z j)); [reflexivity|].
  unfold hasPassedTime_uuid. rewrite Hnone. simpl. apply IH.
Qed.

(** C8, amended: on a key the store does not hold, [hasPassedTime] returns
    false without raising, while [getObjectByStamp] raises
    [std::out_of_range]; the engine asks [hasPassedTime] first, so its
    loops skip such a key and never reach the raising lookup. *)
Theorem unknown_key_lookups self uuid stamp :
  find String.eqb (object_map_ self) uuid = None ->
  hasPassedTime_uuid self uuid stamp = Ok false
  /\ getObjectByStamp self uuid stamp = Throw out_of_range
  /\ (forall dist i path_id step h poses j acc,
         walk_path dist self uuid i path_id step h stamp poses j acc = Ok acc)
  /\ (forall deviation stat o,
         object_id o = uuid -> deviation_step self deviation stamp stat o = Ok stat).
Proof.
  intro Hnone. repeat split.
  - unfold hasPassedTime_uuid. now rewrite Hnone.
  - unfold getObjectByStamp, at_. now rewrite Hnone.
  - intros. now apply walk_path_unknown_key.
  - intros deviation stat o <-. unfold deviation_step, hasPassedTime_uuid.
    now rewrite Hnone.
Qed.

Lemma unknown_key_lookups_witness :
  hasPassedTime_uuid one_track "b" 0 = Ok false
  /\ getObjectByStamp one_track "b" 0 = Throw out_of_range
  /\ (forall dist i path_id step h poses j acc,
         walk_path dist one_track "b" i path_id step h 0 poses j acc = Ok acc)
  /\ (forall deviation stat o,
         object_id o = "b"%string ->
         deviation_step one_track deviation 0 stat o = Ok stat).
Proof.
  apply (unknown_key_lookups one_track "b" 0). reflexivity.
Defined.

(** ** The batch of a stamp *)

(** In [two_tracks] the request for 5 s resolves to 6 s: the batch holds
    the snapshot of [b] stored at 6 s under the header stamp 5 s, and
    [b] has reached 6 s but not 5 s. *)
Example batch_header_differs_from_stored_stamp :
  getClosestStamp two_tracks (5 * second) = 6 * second
  /\ getObjectsByStamp two_tracks (5 * second)
     = {| header_stamp := 5 * second; objects := [object_at "b" 12 5] |}
  /\ hasPassedTime_uuid two_tracks "b" (5 * second) = Ok false
  /\ hasPassedTime_uuid two_tracks "b" (6 * second) = Ok true.
Proof. repeat split. Qed.

(** ** The empty horizon list *)

(** C6, as the specification states it, fails: on an empty store
    [calculate] returns before it looks at the horizons. *)
Lemma calculate_empty_store_no_error :
  ~ spec_empty_horizons_fatal axis_distance no_deviation no_deviation identity_order
      empty_store lateral_deviation.
Proof.
  intro H. destruct (H eq_refl) as [what Hw]. vm_compute in Hw. discriminate Hw.
Qed.

(** C6, amended: with an empty horizon list, [calculate] raises the
    configuration error for every metric whenever the store holds a key,
    and returns the absent result, without raising, on an empty store. *)
Theorem calculate_empty_horizons dist lateral yaw iteration self metric :
  prediction_time_horizons (parameters_ self) = [] ->
  (object_map_ self <> [] ->
   calculate dist lateral yaw iteration self metric
   = Throw (runtime_error "prediction_time_horizons is empty"))
  /\ (object_map_ self = [] ->
      calculate dist lateral yaw iteration self metric
      = Ok (None, debug_target_object_ self)).
Proof.
  intro Hh. unfold calculate, getTimeDelay. rewrite Hh. simpl.
  split; intro Hom.
  - destruct (object_map_ self); [contradiction|reflexivity].
  - now rewrite Hom.
Qed.

Lemma calculate_empty_horizons_witness :
  (object_map_ empty_store <> [] ->
   calculate axis_distance no_deviation no_deviation identity_order
     empty_store yaw_deviation
   = Throw (runtime_error "prediction_time_horizons is empty"))
  /\ (object_map_ empty_store = [] ->
      calculate axis_distance no_deviation no_deviation identity_order
        empty_store yaw_deviation
      = Ok (None, debug_target_object_ empty_store)).
Proof.
  apply (calculate_empty_horizons axis_distance no_deviation no_deviation identity_order
           empty_store yaw_deviation).
  reflexivity.
Defined.

(** A store that holds a key raises, whatever the metric. *)
Example calculate_raises_without_horizon :
  forall metric,
    calculate axis_distance no_deviation no_deviation identity_order
      one_track_no_horizon metric
    = Throw (runtime_error "prediction_time_horizons is empty").
Proof. intros []; reflexivity. Qed.

(** *** The closest stamp is a nearest stored stamp *)

Lemma sorted_lower_bound_after m val :
  sorted m = true ->
  forall k o, In (k, o) m -> val <= k ->
  exists hk ho, nth_error m (lower_bound m val) = Some (hk, ho) /\ hk <= k.
Proof.
  induction m as [|[k0 v0] m IH]; intros Hs k o Hin Hle; [destruct Hin|].
  simpl lower_bound. destruct (k0 <? val) eqn:E.
  - destruct Hin as [Heq|Hin]; [injection Heq as -> ->; lia|].
    simpl. exact (IH (sorted_tail _ _ _ Hs) k o Hin Hle).
  - exists k0, v0. split; [reflexivity|].
    destruct Hin as [Heq|Hin]; [injection Heq as -> ->; lia|].
    pose proof (sorted_head_lt _ _ _ Hs) as Hlt. rewrite Forall_forall in Hlt.
    specialize (Hlt _ Hin). simpl in Hlt. lia.
Qed.

Lemma sorted_lower_bound_before m val :
  sorted m = true ->
  forall k o, In (k, o) m -> k < val ->
  exists p lk lo,
    lower_bound m val = S p /\ nth_error m p = Some (lk, lo) /\ k <= lk /\ lk < val.
Proof.
  induction m as [|[k0 v0] m IH]; intros Hs k o Hin Hlt; [destruct Hin|].
  pose proof (sorted_head_lt _ _ _ Hs) as Hhead. rewrite Forall_forall in Hhead.
  simpl lower_bound. destruct (k0 <? val) eqn:E.
  - destruct (lower_bound m val) as [|p'] eqn:El.
    + exists O, k0, v0. repeat split; [|lia].
      destruct Hin as [Heq|Hin]; [injection Heq as -> ->; lia|].
      destruct (IH (sorted_tail _ _ _ Hs) k o Hin Hlt) as [p [lk [lo [Hp _]]]].
      discriminate Hp.
    + destruct (nth_error m p') as [[lk lo]|] eqn:En.
      * exists (S p'), lk, lo.
        assert (Hlk : lk < val).
        { apply (lower_bound_before m val p' lk lo); [rewrite El; lia|exact En]. }
        repeat split; [exact En| |exact Hlk].
        destruct Hin as [Heq|Hin].
        -- injection Heq as -> ->.
           specialize (Hhead _ (nth_error_In _ _ En)). simpl in Hhead. lia.
        -- destruct (IH (sorted_tail _ _ _ Hs) k o Hin Hlt)
             as [p [lk' [lo' [Hp [Hn [Hle _]]]]]].
           injection Hp as <-. rewrite En in Hn. injection Hn as <- <-. exact Hle.
      * exfalso. apply nth_error_None in En.
        assert (lower_bound m val <= List.length m)%nat.
        { clear. induction m as [|[a b] m IHm]; simpl; [lia|].
          destruct (a <? val); simpl; lia. }
        lia.
  - exfalso. destruct Hin as [Heq|Hin]; [injection Heq as -> ->; lia|].
    specialize (Hhead _ Hin). simpl in Hhead. lia.
Qed.

(** One turn of the loop on a sorted track: the state is kept or moves to
    a stamp of the track, and ends no farther than any stamp of the track. *)
Lemma closest_step_nearest stamp acc uuid m :
  sorted m = true ->
  let r := closest_step stamp acc (uuid, m) in
  (r = acc \/ (snd r = Z.abs (fst r - stamp) /\ In (fst r) (map fst m) /\ snd r < snd acc))
  /\ snd r <= snd acc
  /\ (forall k o, In (k, o) m -> snd r <= Z.abs (k - stamp)).
Proof.
  intros Hs. cbv zeta. unfold closest_step. simpl snd.
  destruct m as [|e0 m0] eqn:Em.
  { split; [now left|]. split; [lia|]. intros k o []. }
  rewrite <- Em in *. clear Em e0 m0.
  set (it := lower_bound m stamp).
  set (acc1 := match nth_error m it with
               | Some (first, _) =>
                   if Z.abs (first - stamp) <? snd acc then (first, first - stamp) else acc
               | None => acc
               end).
  assert (H1 : (acc1 = acc
                \/ (snd acc1 = Z.abs (fst acc1 - stamp) /\ In (fst acc1) (map fst m)
                    /\ snd acc1 < snd acc))
               /\ snd acc1 <= snd acc
               /\ (forall k o, In (k, o) m -> stamp <= k -> snd acc1 <= Z.abs (k - stamp))).
  { unfold acc1. destruct (nth_error m it) as [[hk ho]|] eqn:En.
    - pose proof (lower_bound_not_before _ _ _ _ En) as Hge.
      assert (Hafter : forall k o, In (k, o) m -> stamp <= k -> hk <= k).
      { intros k o Hin Hle.
        destruct (sorted_lower_bound_after m stamp Hs k o Hin Hle) as [hk' [ho' [Hn Hk]]].
        fold it in Hn. rewrite En in Hn. now injection Hn as <- <-. }
      destruct (Z.abs (hk - stamp) <? snd acc) eqn:E.
      + simpl. split; [right|split].
        * split; [lia|]. split; [|lia].
          apply in_map_iff. exists (hk, ho). split; [reflexivity|exact (nth_error_In _ _ En)].
        * lia.
        * intros k o Hin Hle. specialize (Hafter k o Hin Hle). lia.
      + split; [now left|]. split; [lia|].
        intros k o Hin Hle. specialize (Hafter k o Hin Hle). lia.
    - split; [now left|]. split; [lia|].
      intros k o Hin Hle.
      destruct (sorted_lower_bound_after m stamp Hs k o Hin Hle) as [hk' [ho' [Hn _]]].
      fold it in Hn. rewrite En in Hn. discriminate Hn. }
  destruct H1 as [Hc1 [Hle1 Hafter1]].
  assert (Hbefore : forall k o, In (k, o) m -> k < stamp ->
                      exists p lk lo, it = S p /\ nth_error m p = Some (lk, lo)
                                      /\ k <= lk /\ lk < stamp).
  { intros k o Hin Hlt. exact (sorted_lower_bound_before m stamp Hs k o Hin Hlt). }
  destruct it as [|p] eqn:Eit.
  - split; [exact Hc1|]. split; [exact Hle1|].
    intros k o Hin. destruct (Z.lt_ge_cases k stamp) as [Hlt|Hge].
    + destruct (Hbefore k o Hin Hlt) as [p [lk [lo [Hp _]]]]. discriminate Hp.
    + now apply (Hafter1 k o).
  - destruct (nth_error m p) as [[lk lo]|] eqn:En.
    + assert (Hlk : lk < stamp).
      { apply (lower_bound_before m stamp p lk lo); [fold it; rewrite Eit; lia|exact En]. }
      destruct (Z.abs (stamp - lk) <? snd acc1) eqn:E.
      * simpl. split; [right|split].
        -- split; [lia|]. split; [|lia].
           apply in_map_iff. exists (lk, lo). split; [reflexivity|exact (nth_error_In _ _ En)].
        -- lia.
        -- intros k o Hin. destruct (Z.lt_ge_cases k stamp) as [Hlt|Hge].
           ++ destruct (Hbefore k o Hin Hlt) as [p' [lk' [lo' [Hp [Hn [Hle _]]]]]].
              injection Hp as <-. rewrite En in Hn. injection Hn as <- <-. lia.
           ++ specialize (Hafter1 k o Hin Hge). lia.
      * split; [exact Hc1|]. split; [exact Hle1|].
        intros k o Hin. destruct (Z.lt_ge_cases k stamp) as [Hlt|Hge].
        -- destruct (Hbefore k o Hin Hlt) as [p' [lk' [lo' [Hp [Hn [Hle _]]]]]].
           injection Hp as <-. rewrite En in Hn. injection Hn as <- <-. lia.
        -- now apply (Hafter1 k o).
    + split; [exact Hc1|]. split; [exact Hle1|].
      intros k o Hin. destruct (Z.lt_ge_cases k stamp) as [Hlt|Hge].
      * destruct (Hbefore k o Hin Hlt) as [p' [lk' [lo' [Hp [Hn _]]]]].
        injection Hp as <-. rewrite En in Hn. discriminate Hn.
      * now apply (Hafter1 k o).
Qed.

Lemma closest_step_nearest_inv stamp stamps acc uuid m :
  track_ok m = true ->
  (forall k, In k (map fst m) -> Z.abs (k - stamp) < INT64_MAX) ->
  nearest_inv stamp stamps acc ->
  nearest_inv stamp (stamps ++ map fst m) (closest_step stamp acc (uuid, m)).
Proof.
  intros Hok Hrange [Hmin Hwhich].
  pose proof (track_ok_sorted _ Hok) as Hs.
  pose proof (track_ok_not_nil _ Hok) as Hnn.
  destruct (closest_step_nearest stamp acc uuid m Hs) as [Hcase [Hle Hnear]].
  set (r := closest_step stamp acc (uuid, m)) in *.
  split.
  - intros k Hk. apply in_app_or in Hk. destruct Hk as [Hk|Hk].
    + specialize (Hmin k Hk). lia.
    + apply in_map_iff in Hk. destruct Hk as [[k' o] [<- Hin]]. exact (Hnear _ _ Hin).
  - right. destruct Hcase as [Hsame|[Hd [Hin _]]].
    + destruct Hwhich as [[Hinit _]|[Hd Hin]].
      * exfalso. destruct m as [|[k o] m']; [contradiction|].
        specialize (Hnear k o (or_introl eq_refl)).
        specialize (Hrange k (or_introl eq_refl)).
        rewrite Hsame, Hinit in Hnear. simpl in Hnear. lia.
      * rewrite Hsame. split; [exact Hd|]. apply in_or_app. now left.
    + split; [exact Hd|]. apply in_or_app. now right.
Qed.

Lemma fold_closest_nearest_inv stamp om : forall stamps acc,
  (forall e, In e om -> track_ok (snd e) = true) ->
  (forall k, In k (stamps_of om) -> Z.abs (k - stamp) < INT64_MAX) ->
  nearest_inv stamp stamps acc ->
  nearest_inv stamp (stamps ++ stamps_of om) (fold_left (closest_step stamp) om acc).
Proof.
  induction om as [|[uuid m] om IH]; intros stamps acc Hok Hrange Hinv; simpl.
  - now rewrite app_nil_r.
  - unfold stamps_of in *. simpl flat_map in *. rewrite app_assoc. apply IH.
    + intros e He. apply Hok. now right.
    + intros k Hk. apply Hrange. apply in_or_app. now right.
    + apply closest_step_nearest_inv; [|intros k Hk; apply Hrange; apply in_or_app; now left|].
      * apply (Hok (uuid, m)). now left.
      * exact Hinv.
Qed.

(** X3: on a well-formed store that holds a key, [getClosestStamp]
    returns a stamp that some track holds, and no stored stamp is nearer
    to the request. *)
Theorem getClosestStamp_nearest self stamp :
  store_ok (object_map_ self) = true ->
  object_map_ self <> [] ->
  (forall k, In k (stamps_of (object_map_ self)) -> Z.abs (k - stamp) < INT64_MAX) ->
  In (getClosestStamp self stamp) (stamps_of (object_map_ self))
  /\ forall k, In k (stamps_of (object_map_ self)) ->
               Z.abs (getClosestStamp self stamp - stamp) <= Z.abs (k - stamp).
Proof.
  intros Hok Hne Hrange. unfold getClosestStamp.
  destruct (fold_closest_nearest_inv stamp (object_map_ self) [] (0, INT64_MAX))
    as [Hmin Hwhich].
  - intros e He. exact (store_ok_tracks _ Hok e He).
  - exact Hrange.
  - split; [intros k []|]. left. now split.
  - simpl app in *.
    destruct Hwhich as [[_ Hnil]|[Hd Hin]].
    + exfalso. destruct (object_map_ self) as [|[uuid m] om] eqn:E; [now apply Hne|].
      pose proof (store_ok_tracks _ Hok (uuid, m) (or_introl eq_refl)) as Ht.
      apply track_ok_not_nil in Ht. simpl in Ht.
      destruct m as [|[k o] m]; [contradiction|]. discriminate Hnil.
    + split; [exact Hin|]. intros k Hk. rewrite <- Hd. now apply Hmin.
Qed.

(** ** The names of a returned mapping *)

Lemma horizons_loop_names dist iteration self batch hs : forall acc r,
  for_each hs
    (fun acc time_horizon =>
       r <- calcPredictedPathDeviationMetrics_horizon dist iteration self batch
              time_horizon (snd acc) ;;
       Ok (assign String.eqb (fst acc)
             (String.append "predicted_path_deviation_" (fixed2 time_horizon)) (fst r),
           snd r))
    acc = Ok r ->
  (forall k, (exists s, find String.eqb (fst acc) k = Some s) ->
             exists s, find String.eqb (fst r) k = Some s)
  /\ (forall h, In h hs -> exists s, find String.eqb (fst r) (horizon_name h) = Some s).
Proof.
  induction hs as [|h hs IH]; intros acc r; simpl.
  - intro H. injection H as <-. split; [auto|intros h []].
  - destruct (calcPredictedPathDeviationMetrics_horizon dist iteration self batch h (snd acc))
      as [r1|e]; simpl; [|discriminate].
    intro H. destruct (IH _ _ H) as [Hkeep Hnew]. simpl in Hkeep. split.
    + intros k Hk. apply Hkeep. now apply (find_assign_keeps String.eqb_eq).
    + intros h' [<-|Hin]; [|now apply Hnew].
      apply Hkeep. eexists. apply (find_assign_same String.eqb_eq).
Qed.

(** [two_tracks] is the store after four batches: [a] at 0 s, [b] at 6 s,
    both at 10 s, none at 15 s. *)
Example two_tracks_reached :
  exists s,
    ingest_all axis_distance diamond_azimuth yaw_quaternion (fun batch => batch)
      two_tracks_batches (fresh_store [10%Q]) = Ok s
    /\ parameters_ s = parameters_ two_tracks
    /\ current_stamp_ s = current_stamp_ two_tracks
    /\ object_map_ s = object_map_ two_tracks
    /\ map fst (history_path_map_ s) = map fst (history_path_map_ two_tracks).
Proof. eexists. split; [vm_compute; reflexivity|]. repeat split. Qed.

(** C7, as the specification states it, fails: in [two_tracks] the batch
    of the evaluated stamp holds one object, which has not reached that
    stamp, and the mapping comes back with the name [lateral_deviation]
    on a statistic of count zero. *)
Lemma calculate_emits_empty_statistic :
  ~ spec_no_empty_metric axis_distance no_deviation no_deviation identity_order
      two_tracks lateral_deviation.
Proof.
  intro H. specialize (H [("lateral_deviation"%string, stat_empty)] [] eq_refl).
  apply (H "lateral_deviation"%string stat_empty); [now left|reflexivity].
Qed.

(** C7, amended: a mapping that [calculate] returns always holds the
    names of the requested metric, [lateral_deviation], [yaw_deviation]
    or one name per configured horizon, whatever the count of their
    statistics; a statistic that nothing contributed to is stored empty
    under its name. *)
Theorem calculate_names_present dist lateral yaw iteration self metric m debug :
  calculate dist lateral yaw iteration self metric = Ok (Some m, debug) ->
  names_present (prediction_time_horizons (parameters_ self)) metric m.
Proof.
  unfold calculate.
  destruct (object_map_ self) as [|e om]; [discriminate|].
  destruct (getTimeDelay self) as [time_delay|]; simpl; [|discriminate].
  destruct (hasPassedTime self (current_stamp_ self - from_seconds time_delay));
    simpl; [|discriminate].
  set (batch := getObjectsByStamp self (current_stamp_ self - from_seconds time_delay)).
  destruct metric; simpl.
  - unfold calcLateralDeviationMetrics.
    case_for_each stat E; simpl; [|discriminate].
    intro H. injection H as <- _. now exists stat.
  - unfold calcYawDeviationMetrics.
    case_for_each stat E; simpl; [|discriminate].
    intro H. injection H as <- _. now exists stat.
  - unfold calcPredictedPathDeviationMetrics.
    case_for_each r E; simpl; [|discriminate].
    intro H. injection H as <- _.
    exact (proj2 (horizons_loop_names _ _ _ _ _ _ _ E)).
  - discriminate.
Qed.

Lemma calculate_names_present_witness :
  names_present (prediction_time_horizons (parameters_ two_tracks)) lateral_deviation
    [("lateral_deviation"%string, stat_empty)].
Proof.
  apply (calculate_names_present axis_distance no_deviation no_deviation identity_order
           two_tracks lateral_deviation _ []).
  reflexivity.
Defined.

(** ** Eviction *)

Lemma find_map_values {V W : Type} (f : V -> W) (m : list (string * V)) k :
  find String.eqb (map (fun e => (fst e, f (snd e))) m) k
  = option_map f (find String.eqb m k).
Proof.
  induction m as [|[k' v'] m IH]; simpl; [reflexivity|].
  destruct (String.eqb k' k); [reflexivity|exact IH].
Qed.

(** The second loop of [deleteOldObjects], seen from one key. *)
Lemma purge_loop_find uuid l : forall s,
  find String.eqb (object_map_ (fold_left purge_empty l s)) uuid
  = if existsb (purged uuid) l then None else find String.eqb (object_map_ s) uuid.
Proof.
  induction l as [|e l IH]; intro s; simpl; [reflexivity|].
  rewrite IH. unfold purge_empty, purged at 2.
  destruct (snd e) as [|e0 t]; simpl; [|reflexivity].
  rewrite (find_erase String.eqb_eq).
  destruct (String.eqb (fst e) uuid); simpl; [|reflexivity].
  now destruct (existsb (purged uuid) l).
Qed.

Lemma purged_trimmed uuid m cutoff om :
  nodup_keys String.eqb om = true ->
  find String.eqb om uuid = Some m ->
  existsb (purged uuid) (map (fun e : string * Track => (fst e, erase_old (snd e) cutoff)) om)
  = match erase_old m cutoff with [] => true | _ :: _ => false end.
Proof.
  intros Hnd Hfind.
  destruct (existsb _ _) eqn:E.
  - apply existsb_exists in E. destruct E as [e' [Hin Hp]].
    apply in_map_iff in Hin. destruct Hin as [[k t] [<- Hin]].
    unfold purged in Hp. simpl in Hp.
    destruct (erase_old t cutoff) eqn:Et; [|discriminate].
    apply String.eqb_eq in Hp. subst k.
    rewrite (nodup_keys_find String.eqb_eq _ _ _ Hnd Hin) in Hfind. injection Hfind as <-.
    now rewrite Et.
  - destruct (erase_old m cutoff) eqn:Et; [|reflexivity].
    assert (Hex : existsb (purged uuid)
                    (map (fun e : string * Track => (fst e, erase_old (snd e) cutoff)) om)
                  = true).
    { apply existsb_exists. exists (uuid, erase_old m cutoff). split.
      - apply in_map_iff. exists (uuid, m). split; [reflexivity|now apply (find_In String.eqb_eq)].
      - unfold purged. simpl. rewrite Et. apply String.eqb_refl. }
    congruence.
Qed.

(** The first loop removes a prefix of stale entries and stops at the
    first entry inside the window. *)
Lemma erase_old_prefix m cutoff :
  exists stale,
    m = stale ++ erase_old m cutoff
    /\ Forall (fun e => fst e < cutoff) stale
    /\ match erase_old m cutoff with
       | [] => True
       | (first, _) :: _ => cutoff <= first
       end.
Proof.
  induction m as [|[k v] m IH]; simpl.
  - exists []. repeat split. constructor.
  - destruct (k <? cutoff) eqn:E.
    + destruct IH as [stale [Hm [Hst Hhd]]].
      exists ((k, v) :: stale). repeat split.
      * simpl. now rewrite <- Hm.
      * constructor; [simpl; lia|exact Hst].
      * exact Hhd.
    + exists []. repeat split; [constructor|lia].
Qed.

Lemma sorted_all_after m : forall k v,
  sorted ((k, v) :: m) = true -> forall cutoff, cutoff <= k ->
  Forall (fun e => cutoff <= fst e) ((k, v) :: m).
Proof.
  intros k v Hs cutoff Hle. constructor; [exact Hle|].
  eapply Forall_impl; [|exact (sorted_head_lt _ _ _ Hs)].
  simpl. intros. lia.
Qed.

Lemma sorted_erase_old m cutoff :
  sorted m = true -> sorted (erase_old m cutoff) = true.
Proof.
  induction m as [|[k v] m IH]; intro Hs; [reflexivity|].
  simpl erase_old. destruct (k <? cutoff); [|exact Hs].
  apply IH. exact (sorted_tail _ _ _ Hs).
Qed.

Lemma erase_old_kept_in_window m cutoff :
  sorted m = true -> Forall (fun e => cutoff <= fst e) (erase_old m cutoff).
Proof.
  intro Hs.
  destruct (erase_old_prefix m cutoff) as [stale [_ [_ Hhd]]].
  pose proof (sorted_erase_old m cutoff Hs) as Hs'.
  destruct (erase_old m cutoff) as [|[k v] kept]; [constructor|].
  now apply sorted_all_after.
Qed.

Lemma last_of_app {A : Type} (l l' : list A) (a d : A) :
  last (l ++ a :: l') d = last (a :: l') d.
Proof.
  induction l as [|b l IH]; [reflexivity|].
  change ((b :: l) ++ a :: l') with (b :: (l ++ a :: l')).
  destruct (l ++ a :: l') eqn:E; [now destruct l|].
  simpl in *. exact IH.
Qed.

Lemma newest_app stale kept e0 :
  newest (stale ++ e0 :: kept) = newest (e0 :: kept).
Proof.
  unfold newest. rewrite map_app. apply (last_of_app (map Some stale)).
Qed.

Lemma newest_In m e : newest m = Some e -> In e m.
Proof.
  unfold newest. induction m as [|a m IH]; [discriminate|].
  destruct m as [|b m]; simpl in *.
  - intro H. injection H as ->. now left.
  - intro H. right. exact (IH H).
Qed.

(** C2, as the specification states it, fails: a track whose only entry is
    older than the retention window loses that entry, and the key goes
    with it. *)
Lemma deleteOldObjects_removes_stale_newest :
  ~ spec_keeps_newest one_stale_track (110 * second).
Proof.
  intro H.
  destruct (H _ "a"%string _ _ eq_refl eq_refl eq_refl) as [m' [Hfind _]].
  vm_compute in Hfind. discriminate Hfind.
Qed.

(** C2, amended: eviction removes from a track exactly its oldest entries
    with a stamp before [stamp - 2 * delay], up to but excluding the first
    entry inside the window.  A track whose newest entry is inside the
    window keeps that entry and stays in the store; a track whose newest
    entry is older than the window loses every entry and its key is
    erased. *)
Theorem deleteOldObjects_trims_stale_prefix self stamp time_delay uuid m k o :
  nodup_keys String.eqb (object_map_ self) = true ->
  getTimeDelay self = Ok time_delay ->
  find String.eqb (object_map_ self) uuid = Some m ->
  sorted m = true ->
  newest m = Some (k, o) ->
  let cutoff := stamp - from_seconds (time_delay * 2) in
  exists after,
    deleteOldObjects self stamp = Ok after
    /\ (cutoff <= k ->
        exists stale kept,
          m = stale ++ kept
          /\ find String.eqb (object_map_ after) uuid = Some kept
          /\ Forall (fun e => fst e < cutoff) stale
          /\ Forall (fun e => cutoff <= fst e) kept
          /\ newest kept = Some (k, o))
    /\ (k < cutoff -> find String.eqb (object_map_ after) uuid = None).
Proof.
  intros Hnd Hdelay Hfind Hs Hnew cutoff.
  unfold deleteOldObjects. rewrite Hdelay. simpl bind.
  eexists. split; [reflexivity|].
  fold cutoff.
  rewrite purge_loop_find. simpl object_map_.
  rewrite (purged_trimmed uuid m cutoff _ Hnd Hfind).
  rewrite find_map_values with (f := fun t => erase_old t cutoff), Hfind. simpl option_map.
  destruct (erase_old_prefix m cutoff) as [stale [Hm [Hst _]]].
  pose proof (erase_old_kept_in_window m cutoff Hs) as Hkept.
  pose proof (newest_In _ _ Hnew) as Hin.
  destruct (erase_old m cutoff) as [|e0 kept] eqn:Ee.
  - split; [|reflexivity].
    intro Hle. exfalso. rewrite app_nil_r in Hm. subst stale.
    rewrite Forall_forall in Hst. specialize (Hst _ Hin). simpl in Hst. lia.
  - split.
    + intros _. exists stale, (e0 :: kept). repeat split; try assumption.
      rewrite Hm in Hnew. now rewrite newest_app in Hnew.
    + intro Hlt. exfalso.
      rewrite Hm, newest_app in Hnew. apply newest_In in Hnew.
      rewrite Forall_forall in Hkept. specialize (Hkept _ Hnew). simpl in Hkept. lia.
Qed.

Lemma deleteOldObjects_trims_stale_prefix_witness :
  exists after,
    deleteOldObjects two_tracks (25 * second) = Ok after
    /\ (25 * second - from_seconds (10 * 2) <= 10 * second ->
        exists stale kept,
          [(0, object_at "a" 0 0); (10 * second, object_at "a" 20 0)] = stale ++ kept
          /\ find String.eqb (object_map_ after) "a"%string = Some kept
          /\ Forall (fun e => fst e < 25 * second - from_seconds (10 * 2)) stale
          /\ Forall (fun e => 25 * second - from_seconds (10 * 2) <= fst e) kept
          /\ newest kept = Some (10 * second, object_at "a" 20 0))
    /\ (10 * second < 25 * second - from_seconds (10 * 2) ->
        find String.eqb (object_map_ after) "a"%string = None).
Proof.
  apply (deleteOldObjects_trims_stale_prefix two_tracks (25 * second) 10 "a"%string
           [(0, object_at "a" 0 0); (10 * second, object_at "a" 20 0)]
           (10 * second) (object_at "a" 20 0)); reflexivity.
Defined.

(** ** The path smoother *)

Lemma replace_nth_length i p v : List.length (replace_nth i p v) = List.length v.
Proof.
  revert i. induction v as [|a v IH]; intros [|i]; simpl; auto.
Qed.

Lemma nth_replace_nth_same i p v d :
  (i < List.length v)%nat -> nth i (replace_nth i p v) d = p.
Proof.
  revert i. induction v as [|a v IH]; intros [|i] Hi; simpl in *; try lia; auto.
  apply IH. lia.
Qed.

Lemma nth_replace_nth_other i j p v d :
  i <> j -> nth j (replace_nth i p v) d = nth j v d.
Proof.
  revert i j. induction v as [|a v IH]; intros [|i] [|j] Hne; simpl; auto; try lia.
Qed.

Lemma position_pass_length path window_size :
  List.length (position_pass path window_size) = List.length path.
Proof. unfold position_pass. now rewrite length_map, length_seq. Qed.

Lemma nth_position_pass path window_size i :
  (i < List.length path)%nat ->
  nth i (position_pass path window_size) default_pose
  = average_pose path (window_size / 2) (Z.of_nat i).
Proof.
  intro Hi. unfold position_pass.
  rewrite nth_indep with (d' := average_pose path (window_size / 2) (Z.of_nat 0))
    by now rewrite length_map, length_seq.
  rewrite (map_nth (fun i => average_pose path (window_size / 2) (Z.of_nat i))).
  now rewrite seq_nth.
Qed.

Section OrientationPass.
Variable calcDistance2d : Point -> Point -> Q.
Variable calcAzimuthAngle : Point -> Point -> Q.
Variable createQuaternionFromYaw : Q -> Quaternion.

Let step := orientation_step calcDistance2d calcAzimuthAngle createQuaternionFromYaw.

Lemma orientation_step_length fp i : List.length (step fp i) = List.length fp.
Proof.
  unfold step, orientation_step.
  repeat match goal with
         | |- context [if ?c then _ else _] => destruct c
         end; now rewrite ?replace_nth_length.
Qed.

Lemma orientation_step_other fp i j :
  i <> j -> nth j (step fp i) default_pose = nth j fp default_pose.
Proof.
  intro Hne. unfold step, orientation_step.
  repeat match goal with
         | |- context [if ?c then _ else _] => destruct c
         end; now rewrite ?nth_replace_nth_other.
Qed.

Lemma orientation_step_position fp i j :
  position (nth j (step fp i) default_pose) = position (nth j fp default_pose).
Proof.
  destruct (Nat.eq_dec i j) as [<-|Hne]; [|now rewrite orientation_step_other].
  destruct (Nat.lt_ge_cases i (List.length fp)) as [Hi|Hi].
  - unfold step, orientation_step.
    repeat match goal with
           | |- context [if ?c then _ else _] => destruct c
           end; now rewrite ?nth_replace_nth_same.
  - rewrite !nth_overflow; [reflexivity|lia|rewrite orientation_step_length; lia].
Qed.

(** The turns [start], ..., [start + len - 1] leave every other index
    as it was. *)
Lemma orientation_loop_other len : forall start fp j,
  (j < start \/ start + len <= j)%nat ->
  nth j (fold_left step (seq start len) fp) default_pose = nth j fp default_pose.
Proof.
  induction len as [|len IH]; intros start fp j Hj; simpl; [reflexivity|].
  rewrite IH by lia. apply orientation_step_other. lia.
Qed.

Lemma orientation_loop_length len : forall start fp,
  List.length (fold_left step (seq start len) fp) = List.length fp.
Proof.
  induction len as [|len IH]; intros start fp; simpl; [reflexivity|].
  now rewrite IH, orientation_step_length.
Qed.

Lemma orientation_loop_position len : forall start fp j,
  position (nth j (fold_left step (seq start len) fp) default_pose)
  = position (nth j fp default_pose).
Proof.
  induction len as [|len IH]; intros start fp j; simpl; [reflexivity|].
  now rewrite IH, orientation_step_position.
Qed.

(** The pose left at index [i] is the one written by turn [i], on the
    vector as the turns before it left it. *)
Lemma orientation_pass_nth fp i :
  (i < List.length fp)%nat ->
  nth i (orientation_pass calcDistance2d calcAzimuthAngle createQuaternionFromYaw fp)
    default_pose
  = nth i (step (fold_left step (seq 0 i) fp) i) default_pose.
Proof.
  intro Hi. unfold orientation_pass. fold step.
  replace (List.length fp) with (i + S (List.length fp - S i))%nat by lia.
  rewrite seq_app, fold_left_app. simpl.
  apply orientation_loop_other. lia.
Qed.

Lemma orientation_pass_prev fp i :
  (0 < i)%nat -> (i < List.length fp)%nat ->
  nth (i - 1) (fold_left step (seq 0 i) fp) default_pose
  = nth (i - 1)
      (orientation_pass calcDistance2d calcAzimuthAngle createQuaternionFromYaw fp)
      default_pose.
Proof.
  intros H0 Hi. unfold orientation_pass. fold step.
  replace (List.length fp) with (i + (List.length fp - i))%nat at 1 by lia.
  rewrite seq_app, fold_left_app. simpl.
  symmetry. apply orientation_loop_other. lia.
Qed.

(** C5, amended: after the position pass, index [i] takes the
    orientation already given to index [i-1] when [i > 0] and the 2-D
    distance between poses [i-1] and [i] is below 0.1; otherwise it takes
    the bearing from pose [i] to pose [i+1] when it is not the last
    index, the orientation of index [i-1] when it is the last index of a
    longer path, and keeps its own orientation in a path of one pose.
    Positions are those of the position pass. *)
Theorem averageFilterPath_orientation path window_size i :
  (i < List.length path)%nat ->
  let averaged := position_pass path window_size in
  let smoothed :=
    averageFilterPath calcDistance2d calcAzimuthAngle createQuaternionFromYaw
      path window_size in
  let p := nth i averaged default_pose in
  let p_prev := nth (i - 1) averaged default_pose in
  let p_next := nth (i + 1) averaged default_pose in
  position (nth i smoothed default_pose) = position p
  /\ orientation (nth i smoothed default_pose)
     = if (0 <? i)%nat && Qlt_bool (calcDistance2d (position p_prev) (position p)) (1 # 10)
       then orientation (nth (i - 1) smoothed default_pose)
       else if (i <? List.length path - 1)%nat
       then createQuaternionFromYaw (calcAzimuthAngle (position p) (position p_next))
       else if (1 <? List.length path)%nat
       then orientation (nth (i - 1) smoothed default_pose)
       else orientation (nth i path default_pose).
Proof.
  intros Hi averaged smoothed p p_prev p_next.
  assert (Hlen : List.length averaged = List.length path)
    by apply position_pass_length.
  unfold smoothed, averageFilterPath. fold averaged.
  split; [apply orientation_loop_position|].
  rewrite orientation_pass_nth by lia.
  set (before := fold_left step (seq 0 i) averaged).
  assert (Hblen : List.length before = List.length path).
  { unfold before. now rewrite orientation_loop_length. }
  assert (Hp : nth i before default_pose = p).
  { unfold before. apply orientation_loop_other. lia. }
  assert (Hnext : nth (i + 1) before default_pose = p_next).
  { unfold before. apply orientation_loop_other. lia. }
  assert (Hprev_pos : position (nth (i - 1) before default_pose) = position p_prev).
  { unfold before. apply orientation_loop_position. }
  assert (Hprev : (0 < i)%nat ->
                  nth (i - 1) before default_pose
                  = nth (i - 1)
                      (orientation_pass calcDistance2d calcAzimuthAngle
                         createQuaternionFromYaw averaged) default_pose).
  { intro H0. unfold before. apply orientation_pass_prev; lia. }
  unfold step at 1, orientation_step.
  rewrite Hp, Hnext, Hprev_pos, Hblen.
  destruct (0 <? i)%nat eqn:E0; simpl andb.
  - apply Nat.ltb_lt in E0. rewrite (Hprev E0).
    destruct (Qlt_bool (calcDistance2d (position p_prev) (position p)) (1 # 10)).
    + now rewrite nth_replace_nth_same by lia.
    + destruct (i <? List.length path - 1)%nat.
      * now rewrite nth_replace_nth_same by lia.
      * destruct (1 <? List.length path)%nat eqn:E1.
        -- now rewrite nth_replace_nth_same by lia.
        -- apply Nat.ltb_ge in E1. lia.
  - apply Nat.ltb_ge in E0. assert (i = 0)%nat by lia. subst i.
    destruct (0 <? List.length path - 1)%nat eqn:E2.
    + now rewrite nth_replace_nth_same by lia.
    + destruct (1 <? List.length path)%nat eqn:E1.
      * apply Nat.ltb_lt in E1. apply Nat.ltb_ge in E2. lia.
      * rewrite Hp. unfold p, averaged. now rewrite nth_position_pass.
Qed.
End OrientationPass.

Lemma averageFilterPath_orientation_witness :
  let averaged := position_pass corner_path 1 in
  let smoothed :=
    averageFilterPath axis_distance diamond_azimuth yaw_quaternion corner_path 1 in
  let p := nth 1 averaged default_pose in
  let p_prev := nth (1 - 1) averaged default_pose in
  let p_next := nth (1 + 1) averaged default_pose in
  position (nth 1 smoothed default_pose) = position p
  /\ orientation (nth 1 smoothed default_pose)
     = if (0 <? 1)%nat && Qlt_bool (axis_distance (position p_prev) (position p)) (1 # 10)
       then orientation (nth (1 - 1) smoothed default_pose)
       else if (1 <? List.length corner_path - 1)%nat
       then yaw_quaternion (diamond_azimuth (position p) (position p_next))
       else if (1 <? List.length corner_path)%nat
       then orientation (nth (1 - 1) smoothed default_pose)
       else orientation (nth 1 corner_path default_pose).
Proof.
  apply (averageFilterPath_orientation axis_distance diamond_azimuth yaw_quaternion
           corner_path 1 1).
  simpl. lia.
Defined.

(** C5, as the specification states it, fails: on [corner_path] the step
    from pose 1 to pose 2 is 0.05 long and the step from pose 0 to pose 1
    is 1 long; the statement gives pose 1 the orientation of pose 0, the
    code gives it the bearing towards pose 2. *)
Lemma orientation_rule_looks_back_not_ahead :
  ~ spec_orientation_rule axis_distance diamond_azimuth yaw_quaternion
      (position_pass corner_path 1)
      (averageFilterPath axis_distance diamond_azimuth yaw_quaternion corner_path 1).
Proof.
  intro H.
  assert (Hi : (1 < List.length (position_pass corner_path 1))%nat)
    by (vm_compute; lia).
  specialize (H 1%nat Hi). vm_compute in H. discriminate H.
Qed.

(** *** The position pass *)

(** The bounds of the window where the unsigned subtraction does not wrap. *)
Lemma window_first_no_wrap half_window i :
  0 <= half_window <= i -> i < SIZE_MOD -> window_first half_window i = i - half_window.
Proof.
  intros H Hi. unfold window_first, size_sub.
  rewrite Z.mod_small by lia. lia.
Qed.

Lemma window_last_inside size half_window i :
  0 <= half_window -> 0 <= i -> i + half_window < size -> size < SIZE_MOD ->
  window_last size half_window i = i + half_window.
Proof.
  intros Hh Hi Hin Hs. unfold window_last, size_add, size_sub.
  rewrite !Z.mod_small by lia. lia.
Qed.

(** Where it wraps, the window is empty. *)
Lemma window_empty_on_wrap size half_window i :
  0 <= i < half_window -> i < size -> half_window + size <= SIZE_MOD ->
  window_last size half_window i + 1 - window_first half_window i <= 0.
Proof.
  intros Hi Hs Hfit. unfold window_last, window_first, size_add, size_sub.
  assert (SIZE_MOD = 2 ^ 64) by reflexivity.
  rewrite (Z.mod_small (size - 1)) by lia.
  assert (Hwrap : (i - half_window) mod SIZE_MOD = i - half_window + SIZE_MOD).
  { symmetry. apply Z.mod_unique with (q := -1); lia. }
  rewrite Hwrap. lia.
Qed.

(** The first [window_size / 2] poses keep their position: the window of
    such an index is empty and the pose passes through. *)
Lemma position_pass_prefix_unsmoothed path window_size i :
  (i < List.length path)%nat ->
  Z.of_nat i < window_size / 2 ->
  window_size / 2 + Z.of_nat (List.length path) <= SIZE_MOD ->
  position (nth i (position_pass path window_size) default_pose)
  = position (nth i path default_pose).
Proof.
  intros Hi Hhalf Hfit. rewrite nth_position_pass by exact Hi.
  unfold average_pose.
  pose proof (window_empty_on_wrap (Z.of_nat (List.length path)) (window_size / 2)
                (Z.of_nat i)) as Hempty.
  assert (Hturns : Z.to_nat (window_last (Z.of_nat (List.length path)) (window_size / 2)
                               (Z.of_nat i) + 1
                             - window_first (window_size / 2) (Z.of_nat i)) = O) by lia.
  rewrite Hturns. simpl. unfold at_index. now rewrite Nat2Z.id.
Qed.

Lemma inject_Z_succ_nat n :
  (inject_Z (Z.of_nat (S n)) == inject_Z (Z.of_nat n) + 1)%Q.
Proof. now rewrite Nat2Z.inj_succ, <- Z.add_1_r, inject_Z_plus. Qed.

(** The sums of the inner loop over evenly spaced poses. *)
Lemma window_loop_evenly_spaced origin step path :
  evenly_spaced origin step path ->
  forall turns j acc,
    0 <= j -> j + Z.of_nat turns <= Z.of_nat (List.length path) ->
    let r := window_loop path j turns acc in
    let T := inject_Z (Z.of_nat turns) in
    let J := inject_Z j in
    valid_points r = valid_points acc + Z.of_nat turns
    /\ (sum_x r == sum_x acc + T * x origin + x step * (T * J + T * (T - 1) * (1 # 2)))%Q
    /\ (sum_y r == sum_y acc + T * y origin + y step * (T * J + T * (T - 1) * (1 # 2)))%Q
    /\ (sum_z r == sum_z acc + T * z origin + z step * (T * J + T * (T - 1) * (1 # 2)))%Q.
Proof.
  intro Heven. induction turns as [|turns IH]; intros j acc Hj Hfit.
  - simpl. repeat split; try lia; change (inject_Z (Z.of_nat 0)) with 0%Q; ring.
  - cbv zeta. simpl window_loop.
    assert (Hk : (Z.to_nat j < List.length path)%nat) by lia.
    destruct (Heven _ Hk) as [Hx [Hy Hz]]. simpl in Hx, Hy, Hz.
    rewrite Z2Nat.id in Hx, Hy, Hz by lia.
    edestruct (IH (j + 1)) as [Hv [Sx [Sy Sz]]]; [lia|lia|].
    split; [rewrite Hv; simpl; lia|].
    rewrite Sx, Sy, Sz. simpl sum_x. simpl sum_y. simpl sum_z.
    unfold at_index. rewrite Hx, Hy, Hz.
    rewrite inject_Z_succ_nat, inject_Z_plus.
    change (inject_Z 1) with 1%Q.
    repeat split; ring.
Qed.

Lemma skipn_nth_cons (path : list Pose) k :
  (k < List.length path)%nat ->
  skipn k path = nth k path default_pose :: skipn (S k) path.
Proof.
  revert k. induction path as [|a path IH]; intros [|k] Hk; simpl in *; try lia; auto.
  apply IH. lia.
Qed.

(** The sums of the inner loop are those of the poses it runs over. *)
Lemma window_loop_sums path :
  forall turns j acc,
    0 <= j -> j + Z.of_nat turns <= Z.of_nat (List.length path) ->
    let r := window_loop path j turns acc in
    let w := map position (firstn turns (skipn (Z.to_nat j) path)) in
    valid_points r = valid_points acc + Z.of_nat turns
    /\ (sum_x r == sum_x acc + fold_right Qplus 0 (map x w))%Q
    /\ (sum_y r == sum_y acc + fold_right Qplus 0 (map y w))%Q
    /\ (sum_z r == sum_z acc + fold_right Qplus 0 (map z w))%Q.
Proof.
  induction turns as [|turns IH]; intros j acc Hj Hfit.
  - simpl. repeat split; try lia; ring.
  - cbv zeta. simpl window_loop.
    rewrite (skipn_nth_cons path (Z.to_nat j)) by lia.
    edestruct (IH (j + 1)) as [Hv [Sx [Sy Sz]]]; [lia|lia|].
    replace (Z.to_nat (j + 1)) with (S (Z.to_nat j)) in Sx, Sy, Sz by lia.
    split; [rewrite Hv; simpl; lia|].
    rewrite Sx, Sy, Sz. simpl. unfold at_index.
    repeat split; ring.
Qed.

(** From index [window_size / 2] on, the position pass gives the mean
    over the clamped window of the specification. *)
Lemma position_pass_window_mean path window_size i :
  (i < List.length path)%nat ->
  0 <= window_size ->
  window_size / 2 <= Z.of_nat i ->
  Z.of_nat i + window_size / 2 < SIZE_MOD ->
  Z.of_nat (List.length path) < SIZE_MOD ->
  Point_eq (position (nth i (position_pass path window_size) default_pose))
           (spec_window_mean path window_size (Z.of_nat i)).
Proof.
  intros Hi Hw Hhalf Hfit Hsize.
  assert (Hh : 0 <= window_size / 2) by (apply Z.div_pos; lia).
  rewrite nth_position_pass by exact Hi.
  unfold average_pose, spec_window_mean, spec_window.
  rewrite window_first_no_wrap by lia.
  assert (Hlast : window_last (Z.of_nat (List.length path)) (window_size / 2) (Z.of_nat i)
                  = Z.min (Z.of_nat (List.length path) - 1)
                      (Z.of_nat i + window_size / 2)).
  { unfold window_last, size_add, size_sub. rewrite !Z.mod_small by lia. lia. }
  rewrite Hlast.
  replace (Z.max 0 (Z.of_nat i - window_size / 2)) with (Z.of_nat i - window_size / 2) by lia.
  set (first := Z.of_nat i - window_size / 2).
  set (last := Z.min (Z.of_nat (List.length path) - 1) (Z.of_nat i + window_size / 2)).
  set (turns := Z.to_nat (last + 1 - first)).
  assert (Hturns : 0 < Z.of_nat turns /\ first + Z.of_nat turns <= Z.of_nat (List.length path))
    by (unfold turns, first, last; lia).
  destruct (window_loop_sums path turns first no_sums) as [Hv [Sx [Sy Sz]]];
    [unfold first; lia|lia|].
  change (valid_points no_sums) with 0 in Hv.
  set (r := window_loop path first turns no_sums) in *.
  assert (Hpos : (0 <? valid_points r) = true) by (apply Z.ltb_lt; lia).
  rewrite Hpos.
  assert (Hlen : List.length (firstn turns (skipn (Z.to_nat first) path)) = turns).
  { rewrite length_firstn, length_skipn. lia. }
  unfold Point_eq, mean. simpl.
  rewrite !length_map, Hlen, Hv, Sx, Sy, Sz. simpl.
  repeat split; apply Qdiv_comp; try reflexivity; ring.
Qed.

Lemma mean_of_run (x0 dx J T : Q) :
  ~ (T == 0)%Q ->
  ((0 + T * x0 + dx * (T * J + T * (T - 1) * (1 # 2))) / T
   == x0 + (J + (T - 1) * (1 # 2)) * dx)%Q.
Proof. intro HT. field. exact HT. Qed.

(** On evenly spaced poses, from index [window_size / 2] on, the position
    pass returns the point midway between the two ends of the window. *)
Lemma position_pass_evenly_spaced origin step path window_size i :
  evenly_spaced origin step path ->
  0 <= window_size ->
  Z.of_nat (List.length path) < SIZE_MOD ->
  (i < List.length path)%nat ->
  window_size / 2 <= Z.of_nat i ->
  Z.of_nat i + window_size / 2 < SIZE_MOD ->
  let first := Z.of_nat i - window_size / 2 in
  let last := Z.min (Z.of_nat i + window_size / 2) (Z.of_nat (List.length path) - 1) in
  let c := (inject_Z first + (inject_Z (last + 1 - first) - 1) * (1 # 2))%Q in
  Point_eq (position (nth i (position_pass path window_size) default_pose))
           {| x := (x origin + c * x step)%Q;
              y := (y origin + c * y step)%Q;
              z := (z origin + c * z step)%Q |}.
Proof.
  intros Heven Hw Hsize Hi Hhalf Hfit first last c.
  assert (Hh : 0 <= window_size / 2) by (apply Z.div_pos; lia).
  rewrite nth_position_pass by exact Hi.
  unfold average_pose.
  rewrite window_first_no_wrap by lia.
  assert (Hlast : window_last (Z.of_nat (List.length path)) (window_size / 2) (Z.of_nat i)
                  = last).
  { unfold window_last, size_add, size_sub, last. rewrite !Z.mod_small by lia. reflexivity. }
  rewrite Hlast. fold first.
  assert (Hturns : 0 < last + 1 - first
                   /\ first + (last + 1 - first) <= Z.of_nat (List.length path))
    by (unfold first, last; lia).
  destruct (window_loop_evenly_spaced origin step path Heven
              (Z.to_nat (last + 1 - first)) first no_sums) as [Hv [Sx [Sy Sz]]];
    [unfold first; lia|lia|].
  change (valid_points no_sums) with 0 in Hv.
  rewrite Z2Nat.id in Hv, Sx, Sy, Sz by lia.
  set (r := window_loop path first (Z.to_nat (last + 1 - first)) no_sums) in *.
  assert (Hpos : (0 <? valid_points r) = true) by (apply Z.ltb_lt; lia).
  rewrite Hpos.
  assert (HT : ~ (inject_Z (last + 1 - first) == 0)%Q).
  { change 0%Q with (inject_Z 0). rewrite inject_Z_injective. lia. }
  unfold Point_eq. simpl.
  rewrite Hv, Sx, Sy, Sz. simpl. unfold c.
  repeat split; apply mean_of_run; exact HT.
Qed.

(** C9, as the specification states it, fails: on three poses one unit
    apart, smoothed with window 2, the window of the last index is cut at
    the end of the sequence and its mean lies half a unit short. *)
Lemma smoothing_moves_last_pose :
  ~ spec_smoothing_identity axis_distance diamond_azimuth yaw_quaternion straight_path 2.
Proof.
  intro H.
  assert (Heven : exists origin step, evenly_spaced origin step straight_path).
  { exists {| x := 0; y := 0; z := 0 |}, {| x := 1; y := 0; z := 0 |}.
    intros k Hk. simpl in Hk.
    destruct k as [|[|[|k]]]; [| | |lia]; repeat split; reflexivity. }
  assert (Hi : (2 < List.length straight_path)%nat) by (simpl; lia).
  destruct (H Heven 2%nat Hi) as [Hx _].
  vm_compute in Hx. discriminate Hx.
Qed.

(** C9, amended: on collinear, evenly spaced poses the smoother returns
    the input position at every index whose window lies whole inside the
    sequence, that is from index [window_size / 2] up to
    [length - 1 - window_size / 2]; at a later index the window is cut at
    the last pose, and the position returned is the point midway between
    poses [i - window_size / 2] and [length - 1]. *)
Theorem averageFilterPath_identity_inside
        calcDistance2d calcAzimuthAngle createQuaternionFromYaw
        origin step path window_size i :
  evenly_spaced origin step path ->
  0 <= window_size ->
  Z.of_nat (List.length path) < SIZE_MOD ->
  (i < List.length path)%nat ->
  window_size / 2 <= Z.of_nat i ->
  let smoothed :=
    averageFilterPath calcDistance2d calcAzimuthAngle createQuaternionFromYaw
      path window_size in
  let midway :=
    ((inject_Z (Z.of_nat i - window_size / 2)
      + inject_Z (Z.of_nat (List.length path) - 1)) * (1 # 2))%Q in
  (Z.of_nat i + window_size / 2 < Z.of_nat (List.length path) ->
   Point_eq (position (nth i smoothed default_pose))
            (position (nth i path default_pose)))
  /\ (Z.of_nat (List.length path) <= Z.of_nat i + window_size / 2 < SIZE_MOD ->
      Point_eq (position (nth i smoothed default_pose))
               {| x := (x origin + midway * x step)%Q;
                  y := (y origin + midway * y step)%Q;
                  z := (z origin + midway * z step)%Q |}).
Proof.
  intros Heven Hw Hsize Hi Hhalf smoothed midway.
  assert (Hh : 0 <= window_size / 2) by (apply Z.div_pos; lia).
  assert (Hsame : position (nth i smoothed default_pose)
                  = position (nth i (position_pass path window_size) default_pose)).
  { unfold smoothed, averageFilterPath, orientation_pass. apply orientation_loop_position. }
  rewrite Hsame. clear Hsame smoothed.
  set (h := window_size / 2) in *.
  split; intro Hcase.
  - destruct (position_pass_evenly_spaced origin step path window_size i
                Heven Hw Hsize Hi Hhalf) as [Hx [Hy Hz]]; [fold h; lia|].
    fold h in Hx, Hy, Hz. simpl in Hx, Hy, Hz.
    destruct (Heven _ Hi) as [Px [Py Pz]]. simpl in Px, Py, Pz.
    replace (Z.min (Z.of_nat i + h) (Z.of_nat (List.length path) - 1))
      with (Z.of_nat i + h) in Hx, Hy, Hz by lia.
    replace (Z.of_nat i + h + 1 - (Z.of_nat i - h)) with (2 * h + 1) in Hx, Hy, Hz by lia.
    assert (Hc : (inject_Z (Z.of_nat i - h) + (inject_Z (2 * h + 1) - 1) * (1 # 2)
                  == inject_Z (Z.of_nat i))%Q).
    { unfold Z.sub. rewrite !inject_Z_plus, inject_Z_mult, inject_Z_opp.
      change (inject_Z 2) with 2%Q. change (inject_Z 1) with 1%Q. ring. }
    unfold Point_eq. rewrite Hx, Hy, Hz, Px, Py, Pz, Hc. repeat split; reflexivity.
  - destruct (position_pass_evenly_spaced origin step path window_size i
                Heven Hw Hsize Hi Hhalf) as [Hx [Hy Hz]]; [fold h; lia|].
    fold h in Hx, Hy, Hz. simpl in Hx, Hy, Hz.
    replace (Z.min (Z.of_nat i + h) (Z.of_nat (List.length path) - 1))
      with (Z.of_nat (List.length path) - 1) in Hx, Hy, Hz by lia.
    assert (Hc : (inject_Z (Z.of_nat i - h)
                  + (inject_Z (Z.of_nat (List.length path) - 1 + 1 - (Z.of_nat i - h)) - 1)
                    * (1 # 2)
                  == midway)%Q).
    { unfold midway.
      replace (Z.of_nat (List.length path) - 1 + 1 - (Z.of_nat i - h))
        with ((Z.of_nat (List.length path) - 1) + - (Z.of_nat i - h) + 1) by lia.
      rewrite !inject_Z_plus, inject_Z_opp.
      change (inject_Z 1) with 1%Q. ring. }
    unfold Point_eq. simpl. rewrite Hx, Hy, Hz, Hc. repeat split; reflexivity.
Qed.

Lemma averageFilterPath_identity_inside_witness :
  let smoothed :=
    averageFilterPath axis_distance diamond_azimuth yaw_quaternion straight_path 2 in
  let midway :=
    ((inject_Z (Z.of_nat 1 - 2 / 2)
      + inject_Z (Z.of_nat (List.length straight_path) - 1)) * (1 # 2))%Q in
  (Z.of_nat 1 + 2 / 2 < Z.of_nat (List.length straight_path) ->
   Point_eq (position (nth 1 smoothed default_pose))
            (position (nth 1 straight_path default_pose)))
  /\ (Z.of_nat (List.length straight_path) <= Z.of_nat 1 + 2 / 2 < SIZE_MOD ->
      Point_eq (position (nth 1 smoothed default_pose))
               {| x := (0 + midway * 1)%Q;
                  y := (0 + midway * 0)%Q;
                  z := (0 + midway * 0)%Q |}).
Proof.
  apply (averageFilterPath_identity_inside axis_distance diamond_azimuth yaw_quaternion
           {| x := 0; y := 0; z := 0 |} {| x := 1; y := 0; z := 0 |} straight_path 2 1).
  - intros k Hk. simpl in Hk.
    destruct k as [|[|[|k]]]; [| | |lia]; repeat split; reflexivity.
  - lia.
  - reflexivity.
  - simpl. lia.
  - vm_compute. discriminate.
Defined.

(** C4: the smoother is to return, at every index, the mean of the input
    positions over the window clamped to the sequence.  It does so from
    index [window_size / 2] on ([position_pass_window_mean]) and not
    before ([position_pass_prefix_unsmoothed]): on [uneven_path] with
    window 2 the clamped window of index 0 holds poses 0 and 1, of mean
    1/2, and the smoother returns pose 0 where it was. *)
Theorem averageFilterPath_first_index_unsmoothed :
  let smoothed :=
    averageFilterPath axis_distance diamond_azimuth yaw_quaternion uneven_path 2 in
  position (nth 0 smoothed default_pose) = position (nth 0 uneven_path default_pose)
  /\ Point_eq (spec_window_mean uneven_path 2 0) {| x := 1 # 2; y := 0; z := 0 |}
  /\ ~ Point_eq (position (nth 0 smoothed default_pose)) (spec_window_mean uneven_path 2 0).
Proof.
  cbv zeta. split; [reflexivity|]. split; [repeat split; reflexivity|].
  intros [Hx _]. vm_compute in Hx. discriminate Hx.
Qed.

(** ** The selection of a predicted path *)

Lemma select_step_inv visited init acc e :
  select_inv visited init acc ->
  snd e <> [] ->
  select_inv (visited ++ [e]) init (select_step acc e).
Proof.
  intros Hinv Hne. destruct e as [i ds]. simpl in Hne.
  unfold select_step. simpl fst. simpl snd.
  destruct ds as [|d ds']; [contradiction|].
  set (dl := d :: ds') in *. fold (sum_of dl).
  destruct (Qlt_bool (sum_of dl) (snd acc)) eqn:E.
  - apply Qlt_bool_iff in E. right. exists dl. simpl fst. simpl snd.
    destruct Hinv as [[-> Hall]|[ds0 [Hs0 [Hlt0 [before [after [-> [Hb Ha]]]]]]]].
    + split; [reflexivity|]. split; [exact E|].
      exists visited, []. repeat split; [|constructor].
      eapply Forall_impl; [|exact Hall]. simpl. intros e He.
      eapply Qlt_le_trans; eassumption.
    + rewrite Hs0 in E. split; [reflexivity|]. split; [eapply Qlt_trans; eassumption|].
      exists (before ++ (fst acc, ds0) :: after), []. repeat split; [|constructor].
      apply Forall_app. split; [|constructor].
      * eapply Forall_impl; [|exact Hb]. simpl. intros e He.
        eapply Qlt_trans; eassumption.
      * exact E.
      * eapply Forall_impl; [|exact Ha]. simpl. intros e He.
        eapply Qlt_le_trans; eassumption.
  - apply Qlt_bool_false_iff in E.
    destruct Hinv as [[-> Hall]|[ds0 [Hs0 [Hlt0 [before [after [-> [Hb Ha]]]]]]]].
    + left. split; [reflexivity|].
      apply Forall_app. split; [exact Hall|]. constructor; [exact E|constructor].
    + right. exists ds0. split; [exact Hs0|]. split; [exact Hlt0|].
      exists before, (after ++ [(i, dl)]). rewrite <- app_assoc. simpl.
      repeat split; [exact Hb|].
      apply Forall_app. split; [exact Ha|].
      constructor; [|constructor]. simpl. now rewrite <- Hs0.
Qed.

Lemma select_loop_inv init rest : forall visited acc,
  select_inv visited init acc ->
  (forall e, In e rest -> snd e <> []) ->
  select_inv (visited ++ rest) init (fold_left select_step rest acc).
Proof.
  induction rest as [|e rest IH]; intros visited acc Hinv Hne; simpl.
  - now rewrite app_nil_r.
  - replace (visited ++ e :: rest) with ((visited ++ [e]) ++ rest)
      by now rewrite <- app_assoc.
    apply IH.
    + apply select_step_inv; [exact Hinv|]. apply Hne. now left.
    + intros e' He'. apply Hne. now right.
Qed.

(** The index the selection ends on is the first hypothesis of minimal
    sum in the order of the visit. *)
Lemma min_deviation_index_first_minimum (iteration : Iteration) deviation_map :
  iteration _ _ deviation_map <> [] ->
  (forall e, In e (iteration _ _ deviation_map) ->
             snd e <> [] /\ (sum_of (snd e) < DBL_MAX)%Q) ->
  exists ds,
    first_minimum (iteration _ _ deviation_map)
      (min_deviation_index iteration deviation_map) ds.
Proof.
  intros Hnonempty Hall. unfold min_deviation_index.
  pose proof (select_loop_inv (O, DBL_MAX) (iteration _ _ deviation_map) [] (O, DBL_MAX))
    as Hinv.
  simpl app in Hinv.
  destruct Hinv as [[_ Hge]|[ds [_ [_ Hfirst]]]].
  - left. split; [reflexivity|constructor].
  - intros e He. exact (proj1 (Hall e He)).
  - exfalso. destruct (iteration _ _ deviation_map) as [|e order]; [now apply Hnonempty|].
    inversion Hge as [|? ? Hle _]; subst. simpl in Hle.
    destruct (Hall e (or_introl eq_refl)) as [_ Hlt].
    exact (Qlt_not_le _ _ Hlt Hle).
  - now exists ds.
Qed.

Lemma first_minimum_In order index ds : first_minimum order index ds -> In (index, ds) order.
Proof.
  intros [before [after [-> _]]]. apply in_or_app. right. now left.
Qed.

Lemma first_minimum_least order index ds :
  first_minimum order index ds ->
  forall e, In e order -> (sum_of ds <= sum_of (snd e))%Q.
Proof.
  intros [before [after [-> [Hb Ha]]]] e He.
  rewrite Forall_forall in Hb, Ha.
  apply in_app_or in He. destruct He as [He|[<-|He]].
  - apply Qlt_le_weak. now apply Hb.
  - apply Qle_refl.
  - now apply Ha.
Qed.

(** The third loop appends the retained distances, object after object. *)
Lemma fold_stat_add ds : forall stat, fold_left stat_add ds stat = stat ++ ds.
Proof.
  induction ds as [|d ds IH]; intro stat; simpl.
  - now rewrite app_nil_r.
  - rewrite IH. unfold stat_add. now rewrite <- app_assoc.
Qed.

Lemma store_deviations_concat (iteration : Iteration) selected :
  store_deviations iteration selected = List.concat (map snd (iteration _ _ selected)).
Proof.
  unfold store_deviations, stat_empty.
  change (List.concat (map snd (iteration string (list Q) selected)))
    with ([] ++ List.concat (map snd (iteration string (list Q) selected))).
  generalize (@nil Q) as stat.
  induction (iteration string (list Q) selected) as [|e l IH]; intro stat; simpl.
  - now rewrite app_nil_r.
  - rewrite IH, fold_stat_add. now rewrite <- app_assoc.
Qed.

(** *** What the recording loops keep *)

Lemma assign_not_nil {K V : Type} (eqb : K -> K -> bool) (m : list (K * V)) k v :
  assign eqb m k v <> [].
Proof. destruct m as [|[k' v'] m]; simpl; [|destruct (eqb k' k)]; discriminate. Qed.

Lemma push_deviation_ok self dm uuid i d :
  recorded_ok self dm ->
  find String.eqb (object_map_ self) uuid <> None ->
  recorded_ok self (push_deviation dm uuid i d).
Proof.
  intros [Hnd Hall] Hkey. unfold push_deviation. split.
  - now apply (nodup_keys_assign String.eqb_eq).
  - intros u inner' Hfind. destruct (string_dec uuid u) as [<-|Hne].
    + rewrite (find_assign_same String.eqb_eq) in Hfind. injection Hfind as <-.
      set (inner := get_or String.eqb dm uuid []).
      assert (Hinner : nodup_keys Nat.eqb inner = true
                       /\ forall j ds, find Nat.eqb inner j = Some ds -> ds <> []).
      { unfold inner, get_or. destruct (find String.eqb dm uuid) as [inner0|] eqn:E.
        - destruct (Hall _ _ E) as [_ [Hn [_ He]]]. now split.
        - split; [reflexivity|]. intros j ds Hj. discriminate Hj. }
      destruct Hinner as [Hn He].
      split; [exact Hkey|]. split; [now apply (nodup_keys_assign Nat.eqb_eq)|].
      split; [apply assign_not_nil|].
      intros j ds Hj. destruct (Nat.eq_dec i j) as [<-|Hij].
      * rewrite (find_assign_same Nat.eqb_eq) in Hj. injection Hj as <-.
        intro Hnil. apply app_eq_nil in Hnil. destruct Hnil as [_ Hnil]. discriminate Hnil.
      * rewrite (find_assign_other Nat.eqb_eq) in Hj by exact Hij. exact (He _ _ Hj).
    + rewrite (find_assign_other String.eqb_eq) in Hfind by exact Hne.
      exact (Hall _ _ Hfind).
Qed.

Lemma hasPassedTime_uuid_returns self uuid stamp :
  store_ok (object_map_ self) = true ->
  exists b, hasPassedTime_uuid self uuid stamp = Ok b
            /\ (b = true -> find String.eqb (object_map_ self) uuid <> None).
Proof.
  intro Hok. unfold hasPassedTime_uuid.
  destruct (find String.eqb (object_map_ self) uuid) as [m|] eqn:E.
  - pose proof (store_ok_tracks _ Hok _ (find_In String.eqb_eq _ _ _ E)) as Ht.
    apply track_ok_not_nil in Ht. simpl in Ht.
    destruct m as [|[oldest o] m]; [contradiction|].
    eexists. split; [reflexivity|]. intros _. discriminate.
  - exists false. split; [reflexivity|discriminate].
Qed.

Lemma getObjectByStamp_returns self uuid stamp :
  find String.eqb (object_map_ self) uuid <> None ->
  exists r, getObjectByStamp self uuid stamp = Ok r.
Proof.
  intro Hkey. unfold getObjectByStamp, at_.
  destruct (find String.eqb (object_map_ self) uuid); [|contradiction].
  eexists. reflexivity.
Qed.

Lemma walk_path_returns dist self uuid i path_id step h stamp :
  store_ok (object_map_ self) = true ->
  forall poses j acc,
    recorded_ok self (fst acc) ->
    exists acc',
      walk_path dist self uuid i path_id step h stamp poses j acc = Ok acc'
      /\ recorded_ok self (fst acc').
Proof.
  intro Hok. induction poses as [|p rest IH]; intros j acc Hacc; simpl.
  - now exists acc.
  - destruct (Qlt_bool h (seconds step * inject_Z j)); [now exists acc|].
    destruct (hasPassedTime_uuid_returns self uuid
                (stamp + from_seconds (seconds step * inject_Z j)) Hok)
      as [b [-> Hb]].
    simpl. destruct b; simpl; [|now apply IH].
    destruct (getObjectByStamp_returns self uuid
                (stamp + from_seconds (seconds step * inject_Z j)) (Hb eq_refl))
      as [r ->].
    simpl. destruct r as [history_object|]; [|now apply IH].
    apply IH. simpl. apply push_deviation_ok; [exact Hacc|exact (Hb eq_refl)].
Qed.

Lemma walk_paths_returns dist self uuid h stamp :
  store_ok (object_map_ self) = true ->
  forall paths i acc,
    recorded_ok self (fst acc) ->
    exists acc',
      walk_paths dist self uuid h stamp paths i acc = Ok acc'
      /\ recorded_ok self (fst acc').
Proof.
  intro Hok. induction paths as [|predicted_path rest IH]; intros i acc Hacc; simpl.
  - now exists acc.
  - match goal with
    | |- context [walk_path _ _ _ _ ?path_id ?step _ _ ?poses ?j ?a] =>
        destruct (walk_path_returns dist self uuid i path_id step h stamp Hok poses j a Hacc)
          as [acc1 [-> Hacc1]]
    end.
    simpl. now apply IH.
Qed.

(** On a well-formed store the recording loops run to their end. *)
Lemma record_deviations_returns dist self batch h :
  store_ok (object_map_ self) = true ->
  exists recorded,
    record_deviations dist self batch h = Ok recorded
    /\ recorded_ok self (fst recorded).
Proof.
  intro Hok. unfold record_deviations.
  assert (Hinit : recorded_ok self (fst (([], []) : DeviationMap * PairsMap))).
  { split; [reflexivity|]. intros uuid inner H. discriminate H. }
  revert Hinit. generalize (([], []) : DeviationMap * PairsMap) as acc.
  induction (objects batch) as [|o os IH]; intros acc Hacc; simpl.
  - now exists acc.
  - destruct (walk_paths_returns dist self (object_id o) h (header_stamp batch) Hok
                (predicted_paths o) 0%nat acc Hacc) as [acc1 [-> Hacc1]].
    simpl. now apply IH.
Qed.

(** *** The loop over the objects *)

Lemma find_None_iff_not_key {V : Type} (m : list (string * V)) k :
  find String.eqb m k = None <-> ~ In k (map fst m).
Proof.
  induction m as [|[k' v'] m IH]; simpl; [tauto|].
  destruct (String.eqb k' k) eqn:E.
  - apply String.eqb_eq in E. subst. split; [discriminate|]. intro H. exfalso. apply H. now left.
  - apply String.eqb_neq in E. rewrite IH. tauto.
Qed.

Lemma nodup_keys_NoDup {V : Type} (m : list (string * V)) :
  nodup_keys String.eqb m = true -> NoDup (map fst m).
Proof.
  induction m as [|[k v] m IH]; simpl; intro H; [constructor|].
  destruct (find String.eqb m k) eqn:E; [discriminate|].
  constructor; [now apply find_None_iff_not_key|now apply IH].
Qed.

Lemma select_paths_loop (iteration : Iteration) self stamp pairs : forall rest acc,
  NoDup (map fst rest) ->
  (forall uuid inner, In (uuid, inner) rest ->
     find String.eqb (object_map_ self) uuid <> None
     /\ exists ds, find Nat.eqb inner (min_deviation_index iteration inner) = Some ds) ->
  nodup_keys String.eqb (fst acc) = true ->
  exists acc',
    for_each rest (select_path iteration self stamp pairs) acc = Ok acc'
    /\ (forall uuid, ~ In uuid (map fst rest) ->
                     find String.eqb (fst acc') uuid = find String.eqb (fst acc) uuid)
    /\ (forall uuid inner, In (uuid, inner) rest ->
          find String.eqb (fst acc') uuid
          = find Nat.eqb inner (min_deviation_index iteration inner))
    /\ nodup_keys String.eqb (fst acc') = true.
Proof.
  induction rest as [|[uuid inner] rest IH]; intros acc Hnd Hall Hacc.
  - exists acc. split; [reflexivity|]. split; [reflexivity|].
    split; [intros ? ? []|exact Hacc].
  - simpl map in Hnd. inversion Hnd as [|? ? Hnotin Hnd']; subst.
    destruct (Hall uuid inner (or_introl eq_refl)) as [Hkey [ds Hds]].
    destruct (getObjectByStamp_returns self uuid stamp Hkey) as [target Htarget].
    simpl for_each. unfold select_path at 1. simpl fst. simpl snd.
    unfold at_. rewrite Hds. simpl bind. rewrite Htarget. simpl bind.
    destruct target as [o|]; simpl bind;
      (match goal with
       | |- context [for_each rest _ ?a1] =>
           destruct (IH a1 Hnd') as [acc' [Hrun [Hother [Hsel Hnd1]]]];
           [ intros u i' Hin; apply Hall; now right
           | simpl fst; now apply (nodup_keys_assign String.eqb_eq)
           | ]
       end;
       exists acc'; split; [exact Hrun|]; simpl fst in Hother; split;
       [ intros u Hu; simpl in Hu; rewrite Hother by tauto;
         apply (find_assign_other String.eqb_eq); tauto
       | split; [|exact Hnd1];
         intros u i' [Heq|Hin];
         [ injection Heq as <- <-; rewrite Hother by exact Hnotin;
           rewrite Hds; apply (find_assign_same String.eqb_eq)
         | now apply Hsel ] ]).
Qed.

(** C3, as the specification states it, fails on the tie rule: the
    selection keeps the first hypothesis of minimal sum it visits, and it
    visits an [unordered_map], whose order is not that of the indices;
    visiting the newest key first, as libstdc++ does, it keeps index 1 of
    [tied_paths] although index 0 has the same sum. *)
Lemma tie_not_broken_by_smallest_index :
  ~ spec_smallest_index tied_paths (min_deviation_index newest_first tied_paths).
Proof.
  intro H.
  assert (Hle : (1 <= 0)%nat).
  { apply (H 0%nat [1%Q; 1%Q] [2%Q; 0%Q]); reflexivity. }
  lia.
Qed.

(** C3, amended: for every object with at least one recorded distance,
    the distances that go into the statistic of the horizon are exactly
    the recorded distances of one hypothesis, the one whose sum of
    recorded distances (not divided by their number) is minimal; among
    hypotheses of equal minimal sum it is the one the loop over the
    [unordered_map] visits first, which need not be the smallest index.
    A hypothesis without a recorded distance has no entry and is never
    selected; an object without any recorded distance contributes
    nothing.  [selected] is [deviation_map_for_objects]. *)
Theorem predicted_path_selection dist (iteration : Iteration) self batch h debug :
  (forall (K V : Type) (m : list (K * V)), Permutation (iteration K V m) m) ->
  store_ok (object_map_ self) = true ->
  exists recorded,
    record_deviations dist self batch h = Ok recorded
    /\ (sums_bounded (fst recorded) ->
        exists selected debug',
          calcPredictedPathDeviationMetrics_horizon dist iteration self batch h debug
          = Ok (List.concat (map snd (iteration _ _ selected)), debug')
          /\ nodup_keys String.eqb selected = true
          /\ forall uuid,
              match find String.eqb (fst recorded) uuid with
              | None => find String.eqb selected uuid = None
              | Some inner =>
                  exists ds,
                    find String.eqb selected uuid = Some ds
                    /\ ds <> []
                    /\ find Nat.eqb inner (min_deviation_index iteration inner) = Some ds
                    /\ first_minimum (iteration _ _ inner)
                         (min_deviation_index iteration inner) ds
              end).
Proof.
  intros Hperm Hok.
  destruct (record_deviations_returns dist self batch h Hok) as [recorded [Hrec [Hnd Hall]]].
  exists recorded. split; [exact Hrec|]. intro Hbound.
  set (dm := fst recorded) in *.
  (* every object visited has a selected hypothesis *)
  assert (Hchoice : forall uuid inner,
             find String.eqb dm uuid = Some inner ->
             exists ds,
               ds <> []
               /\ find Nat.eqb inner (min_deviation_index iteration inner) = Some ds
               /\ first_minimum (iteration _ _ inner)
                    (min_deviation_index iteration inner) ds).
  { intros uuid inner Hfind.
    destruct (Hall _ _ Hfind) as [_ [Hni [Hnn Hne]]].
    assert (Hin_inner : forall e, In e (iteration _ _ inner) ->
                                  find Nat.eqb inner (fst e) = Some (snd e)).
    { intros [i ds] He. apply (nodup_keys_find Nat.eqb_eq); [exact Hni|].
      exact (Permutation_in _ (Hperm _ _ inner) He). }
    destruct (min_deviation_index_first_minimum iteration inner) as [ds Hfirst].
    - intro Hnil. pose proof (Hperm _ _ inner) as Hp. rewrite Hnil in Hp.
      apply Permutation_nil in Hp. contradiction.
    - intros e He. pose proof (Hin_inner e He) as Hf. split.
      + exact (Hne _ _ Hf).
      + exact (Hbound _ _ _ _ Hfind Hf).
    - exists ds. pose proof (Hin_inner _ (first_minimum_In _ _ _ Hfirst)) as Hf.
      simpl in Hf. split; [exact (Hne _ _ Hf)|]. split; assumption. }
  assert (Hin_dm : forall uuid inner, In (uuid, inner) (iteration _ _ dm) ->
                                      find String.eqb dm uuid = Some inner).
  { intros uuid inner He. apply (nodup_keys_find String.eqb_eq); [exact Hnd|].
    exact (Permutation_in _ (Hperm _ _ dm) He). }
  destruct (select_paths_loop iteration self (header_stamp batch) (snd recorded)
              (iteration _ _ dm) ([], debug)) as [acc' [Hrun [Hother [Hsel Hnd']]]].
  { apply Permutation_NoDup with (l := map fst dm).
    - apply Permutation_map. apply Permutation_sym. apply Hperm.
    - now apply nodup_keys_NoDup. }
  { intros uuid inner He. pose proof (Hin_dm _ _ He) as Hfind.
    split; [exact (proj1 (Hall _ _ Hfind))|].
    destruct (Hchoice _ _ Hfind) as [ds [_ [Hds _]]]. now exists ds. }
  { reflexivity. }
  exists (fst acc'), (snd acc'). split; [|split; [exact Hnd'|]].
  - unfold calcPredictedPathDeviationMetrics_horizon.
    rewrite Hrec. simpl bind. fold dm. rewrite Hrun. simpl bind.
    now rewrite store_deviations_concat.
  - intro uuid. destruct (find String.eqb dm uuid) as [inner|] eqn:Hfind.
    + destruct (Hchoice _ _ Hfind) as [ds [Hne [Hds Hfirst]]].
      exists ds. split; [|now repeat split].
      rewrite <- Hds. apply Hsel.
      apply (Permutation_in _ (Permutation_sym (Hperm _ _ dm))).
      now apply (find_In String.eqb_eq).
    + rewrite Hother; [reflexivity|].
      intro Hin. apply in_map_iff in Hin. destruct Hin as [[u inner] [Hu Hin]].
      simpl in Hu. subst u. rewrite (Hin_dm _ _ Hin) in Hfind. discriminate.
Qed.

Lemma predicted_path_selection_witness :
  exists recorded,
    record_deviations axis_distance tie_store tie_batch 1 = Ok recorded
    /\ (sums_bounded (fst recorded) ->
        exists selected debug',
          calcPredictedPathDeviationMetrics_horizon axis_distance newest_first
            tie_store tie_batch 1 []
          = Ok (List.concat (map snd (newest_first _ _ selected)), debug')
          /\ nodup_keys String.eqb selected = true
          /\ forall uuid,
              match find String.eqb (fst recorded) uuid with
              | None => find String.eqb selected uuid = None
              | Some inner =>
                  exists ds,
                    find String.eqb selected uuid = Some ds
                    /\ ds <> []
                    /\ find Nat.eqb inner (min_deviation_index newest_first inner) = Some ds
                    /\ first_minimum (newest_first _ _ inner)
                         (min_deviation_index newest_first inner) ds
              end).
Proof.
  apply (predicted_path_selection axis_distance newest_first tie_store tie_batch 1 []).
  - intros K V m. apply Permutation_sym. apply Permutation_rev.
  - reflexivity.
Defined.

(** In [tie_store] the two hypotheses of the object record the distances
    [1; 1] and [2; 0].  Visiting the newest key first, the statistic
    receives the distances of hypothesis 1; visiting in insertion order,
    those of hypothesis 0. *)
Example tie_depends_on_iteration_order :
  record_deviations axis_distance tie_store tie_batch 1
  = Ok ([("a"%string, tied_paths)],
        [("a_0"%string, [(pose_at 0 1, pose_at 0 0); (pose_at 1 1, pose_at 1 0)]);
         ("a_1"%string, [(pose_at 0 2, pose_at 0 0); (pose_at 1 0, pose_at 1 0)])])
  /\ (exists debug,
         calcPredictedPathDeviationMetrics_horizon axis_distance newest_first
           tie_store tie_batch 1 [] = Ok ([2; 0]%Q, debug))
  /\ (exists debug,
         calcPredictedPathDeviationMetrics_horizon axis_distance identity_order
           tie_store tie_batch 1 [] = Ok ([1; 1]%Q, debug)).
Proof.
  split; [vm_compute; reflexivity|]. split; eexists; vm_compute; reflexivity.
Qed.

(** The same batch through [calculate]: one name for the one horizon, in
    two decimal places. *)
Example calculate_tie_store :
  exists debug,
    calculate axis_distance no_deviation no_deviation newest_first
      tie_store predicted_path_deviation
    = Ok (Some [("predicted_path_deviation_1.00"%string, [2; 0]%Q)], debug).
Proof. eexists. vm_compute. reflexivity. Qed.

(** ** The stamp the deviation metrics test *)

Lemma history_ok_find self uuid m :
  history_ok self = true ->
  In (uuid, m) (object_map_ self) ->
  exists paths, find String.eqb (history_path_map_ self) uuid = Some paths.
Proof.
  intros Hh Hin. unfold history_ok in Hh. rewrite forallb_forall in Hh.
  specialize (Hh _ Hin). simpl in Hh.
  destruct (find String.eqb (history_path_map_ self) uuid) as [paths|]; [|discriminate].
  now exists paths.
Qed.

(** A key of the store has reached every stamp its track holds. *)
Lemma stored_stamp_reached self uuid m k o :
  store_ok (object_map_ self) = true ->
  In (uuid, m) (object_map_ self) ->
  In (k, o) m ->
  hasPassedTime_uuid self uuid k = Ok true.
Proof.
  intros Hok Hm Hk. unfold hasPassedTime_uuid.
  rewrite (nodup_keys_find String.eqb_eq _ _ _ (store_ok_nodup _ Hok) Hm).
  assert (Hs : sorted m = true).
  { apply track_ok_sorted. exact (store_ok_tracks _ Hok _ Hm). }
  destruct m as [|[oldest o0] m]; [destruct Hk|].
  f_equal. apply Z.leb_le.
  destruct Hk as [Hhead|Htail].
  - injection Hhead as -> _. lia.
  - pose proof (sorted_head_lt _ _ _ Hs) as Hall. rewrite Forall_forall in Hall.
    specialize (Hall _ Htail). simpl in Hall. lia.
Qed.

(** The loop of the lateral and yaw metrics adds one value for every
    object whose key has reached [stamp] and has a smoothed history path,
    in the order of the batch, and nothing for the others. *)
Lemma deviation_loop_value self deviation stamp :
  store_ok (object_map_ self) = true ->
  history_ok self = true ->
  forall batch stat,
    for_each batch (deviation_step self deviation stamp) stat
    = Ok (stat ++
          map (fun o =>
                 deviation
                   (snd (get_or String.eqb (history_path_map_ self) (object_id o) ([], [])))
                   (pose o))
            (filter (fun o =>
                       match hasPassedTime_uuid self (object_id o) stamp,
                             snd (get_or String.eqb (history_path_map_ self)
                                    (object_id o) ([], []))
                       with
                       | Ok true, _ :: _ => true
                       | _, _ => false
                       end) batch)).
Proof.
  intros Hok Hh. induction batch as [|o batch IH]; intro stat.
  - simpl. now rewrite app_nil_r.
  - cbn [for_each filter]. unfold deviation_step at 1.
    destruct (hasPassedTime_uuid_returns self (object_id o) stamp Hok) as [b [Hb Hkey]].
    rewrite Hb. cbn [bind]. destruct b; cbn [negb].
    + destruct (find String.eqb (object_map_ self) (object_id o)) as [m|] eqn:E;
        [|now contradiction (Hkey eq_refl)].
      destruct (history_ok_find self (object_id o) m Hh (find_In String.eqb_eq _ _ _ E))
        as [paths Hp].
      assert (Hg : get_or String.eqb (history_path_map_ self) (object_id o) ([], [])
                   = paths).
      { unfold get_or. now rewrite Hp. }
      unfold at_. rewrite Hp, Hg. cbn [bind].
      destruct (snd paths) as [|p history_path] eqn:Es.
      * cbn [bind]. apply IH.
      * cbn [bind map]. rewrite Hg, Es, IH. unfold stat_add. now rewrite <- app_assoc.
    + apply IH.
Qed.

(** C10: on a well-formed store with a history path for every key, the
    batch of [getObjectsByStamp] carries the requested stamp in its
    header while its objects are exactly the entries stored at the
    closest stamp.  The key a snapshot is stored under has always reached
    that closest stamp; but the lateral and yaw metrics test
    [hasPassedTime] of each object against the header, the requested
    stamp: their statistic holds one value for each object of the batch
    whose key has reached the requested stamp and has a smoothed history
    path, and none for the others. *)
Theorem getObjectsByStamp_header_is_query self stamp lateral yaw :
  store_ok (object_map_ self) = true ->
  history_ok self = true ->
  let batch := getObjectsByStamp self stamp in
  let closest := getClosestStamp self stamp in
  let smoothed o :=
    snd (get_or String.eqb (history_path_map_ self) (object_id o) ([], [])) in
  let counted o :=
    match hasPassedTime_uuid self (object_id o) stamp, smoothed o with
    | Ok true, _ :: _ => true
    | _, _ => false
    end in
  header_stamp batch = stamp
  /\ (forall o, In o (objects batch) <->
                exists uuid m, In (uuid, m) (object_map_ self) /\ In (closest, o) m)
  /\ (forall uuid m o,
        In (uuid, m) (object_map_ self) -> In (closest, o) m ->
        hasPassedTime_uuid self uuid closest = Ok true)
  /\ calcLateralDeviationMetrics lateral self batch
     = Ok [("lateral_deviation"%string,
            map (fun o => lateral (smoothed o) (pose o)) (filter counted (objects batch)))]
  /\ calcYawDeviationMetrics yaw self batch
     = Ok [("yaw_deviation"%string,
            map (fun o => yaw (smoothed o) (pose o)) (filter counted (objects batch)))].
Proof.
  intros Hok Hh batch closest smoothed counted. subst closest.
  split; [reflexivity|]. split; [|split; [|split]].
  - intro o. unfold batch, getObjectsByStamp. simpl objects.
    rewrite in_flat_map. split.
    + intros [[uuid m] [Hin Ho]]. simpl in Ho.
      assert (Hs : sorted m = true).
      { apply track_ok_sorted. exact (store_ok_tracks _ Hok _ Hin). }
      rewrite (lookup_exact_entry_at _ _ Hs) in Ho.
      destruct (entry_at m (getClosestStamp self stamp)) as [o'|] eqn:E; [|destruct Ho].
      destruct Ho as [<-|[]]. exists uuid, m. split; [exact Hin|].
      now apply entry_at_In.
    + intros [uuid [m [Hin Ho]]]. exists (uuid, m). split; [exact Hin|]. simpl.
      assert (Hs : sorted m = true).
      { apply track_ok_sorted. exact (store_ok_tracks _ Hok _ Hin). }
      rewrite (lookup_exact_entry_at _ _ Hs), (In_entry_at _ _ _ Hs Ho). now left.
  - intros uuid m o Hm Ho. exact (stored_stamp_reached self uuid m _ o Hok Hm Ho).
  - unfold calcLateralDeviationMetrics.
    rewrite (deviation_loop_value self lateral (header_stamp batch) Hok Hh). reflexivity.
  - unfold calcYawDeviationMetrics.
    rewrite (deviation_loop_value self yaw (header_stamp batch) Hok Hh). reflexivity.
Qed.

Lemma getObjectsByStamp_header_is_query_witness :
  let batch := getObjectsByStamp two_tracks (5 * second) in
  let closest := getClosestStamp two_tracks (5 * second) in
  let smoothed o :=
    snd (get_or String.eqb (history_path_map_ two_tracks) (object_id o) ([], [])) in
  let counted o :=
    match hasPassedTime_uuid two_tracks (object_id o) (5 * second), smoothed o with
    | Ok true, _ :: _ => true
    | _, _ => false
    end in
  header_stamp batch = 5 * second
  /\ (forall o, In o (objects batch) <->
                exists uuid m, In (uuid, m) (object_map_ two_tracks) /\ In (closest, o) m)
  /\ (forall uuid m o,
        In (uuid, m) (object_map_ two_tracks) -> In (closest, o) m ->
        hasPassedTime_uuid two_tracks uuid closest = Ok true)
  /\ calcLateralDeviationMetrics no_deviation two_tracks batch
     = Ok [("lateral_deviation"%string,
            map (fun o => no_deviation (smoothed o) (pose o))
              (filter counted (objects batch)))]
  /\ calcYawDeviationMetrics no_deviation two_tracks batch
     = Ok [("yaw_deviation"%string,
            map (fun o => no_deviation (smoothed o) (pose o))
              (filter counted (objects batch)))].
Proof.
  apply (getObjectsByStamp_header_is_query two_tracks (5 * second)); reflexivity.
Defined.

(** In [two_tracks] the batch of 5 s holds the snapshot of [b] stored at
    6 s.  Under its header of 5 s the lateral metric skips it, since [b]
    has not reached 5 s; the same object under a header of 6 s, the
    stamp it was stored at, is counted. *)
Example metric_tests_header_stamp :
  let batch := getObjectsByStamp two_tracks (5 * second) in
  calcLateralDeviationMetrics no_deviation two_tracks batch
  = Ok [("lateral_deviation"%string, [])]
  /\ calcLateralDeviationMetrics no_deviation two_tracks
       {| header_stamp := 6 * second; objects := objects batch |}
     = Ok [("lateral_deviation"%string, [0%Q])].
Proof. split; reflexivity. Qed.

(** * Further properties of the calculator *)

(** ** The evaluation delay *)

Lemma max_element_loop tl : forall x0,
  let r := fold_left (fun largest y => if Qlt_bool largest y then y else largest) tl x0 in
  In r (x0 :: tl) /\ forall h, In h (x0 :: tl) -> (h <= r)%Q.
Proof.
  induction tl as [|y tl IH]; intro x0; simpl.
  - split; [now left|]. intros h [<-|[]]. apply Qle_refl.
  - destruct (Qlt_bool x0 y) eqn:E.
    + destruct (IH y) as [Hin Hmax]. split.
      * right. exact Hin.
      * intros h [<-|Hh].
        -- apply Qlt_bool_iff in E. apply Qlt_le_weak.
           eapply Qlt_le_trans; [exact E|]. apply Hmax. now left.
        -- now apply Hmax.
    + destruct (IH x0) as [Hin Hmax]. split.
      * destruct Hin as [<-|Hin]; [now left|right; now right].
      * intros h [<-|[<-|Hh]].
        -- apply Hmax. now left.
        -- apply Qlt_bool_false_iff in E.
           eapply Qle_trans; [exact E|]. apply Hmax. now left.
        -- apply Hmax. now right.
Qed.

(** X1: [getTimeDelay] raises exactly on an empty horizon list, and
    otherwise returns one of the configured horizons that no other
    horizon exceeds. *)
Theorem getTimeDelay_max self :
  match prediction_time_horizons (parameters_ self) with
  | [] => getTimeDelay self = Throw (runtime_error "prediction_time_horizons is empty")
  | _ :: _ =>
      exists d, getTimeDelay self = Ok d
                /\ In d (prediction_time_horizons (parameters_ self))
                /\ forall h, In h (prediction_time_horizons (parameters_ self)) -> (h <= d)%Q
  end.
Proof.
  unfold getTimeDelay, max_element.
  destruct (prediction_time_horizons (parameters_ self)) as [|x0 tl]; [reflexivity|].
  eexists. split; [reflexivity|]. apply max_element_loop.
Qed.

(** ** Has the store reached a stamp *)

Lemma min_element_loop tl : forall x0,
  let r := fold_left (fun smallest y => if y <? smallest then y else smallest) tl x0 in
  In r (x0 :: tl) /\ forall k, In k (x0 :: tl) -> r <= k.
Proof.
  induction tl as [|y tl IH]; intro x0; simpl.
  - split; [now left|]. intros k [<-|[]]. lia.
  - destruct (y <? x0) eqn:E.
    + destruct (IH y) as [Hin Hmin]. split; [now right|].
      intros k [<-|Hk]; [|now apply Hmin].
      specialize (Hmin y (or_introl eq_refl)). lia.
    + destruct (IH x0) as [Hin Hmin]. split.
      * destruct Hin as [<-|Hin]; [now left|right; now right].
      * intros k [<-|[<-|Hk]].
        -- apply Hmin. now left.
        -- specialize (Hmin x0 (or_introl eq_refl)). lia.
        -- apply Hmin. now right.
Qed.

Lemma hasPassedTime_oldest self stamp :
  hasPassedTime self stamp = true <->
  oldest_stamps (object_map_ self) = []
  \/ exists k, In k (oldest_stamps (object_map_ self)) /\ k <= stamp.
Proof.
  unfold hasPassedTime. fold (oldest_stamps (object_map_ self)).
  unfold min_element.
  destruct (oldest_stamps (object_map_ self)) as [|x0 tl]; [tauto|].
  destruct (min_element_loop tl x0) as [Hin Hmin].
  set (r := fold_left (fun smallest y => if y <? smallest then y else smallest) tl x0) in *.
  destruct (stamp <? r) eqn:E; split.
  - discriminate.
  - intros [Hnil|[k [Hk Hle]]]; [discriminate|]. specialize (Hmin k Hk). lia.
  - intros _. right. exists r. split; [exact Hin|lia].
  - reflexivity.
Qed.

Lemma oldest_stamps_In om k :
  In k (oldest_stamps om) <-> exists uuid o m, In (uuid, (k, o) :: m) om.
Proof.
  unfold oldest_stamps. rewrite in_flat_map. split.
  - intros [[uuid m] [Hin Hk]]. simpl in Hk.
    destruct m as [|[first o] m]; [destruct Hk|].
    destruct Hk as [<-|[]]. now exists uuid, o, m.
  - intros [uuid [o [m Hin]]]. exists (uuid, (k, o) :: m). split; [exact Hin|now left].
Qed.

Lemma hasPassedTime_keys self stamp :
  store_ok (object_map_ self) = true ->
  (hasPassedTime self stamp = true <->
   object_map_ self = [] \/ exists uuid, hasPassedTime_uuid self uuid stamp = Ok true).
Proof.
  intro Hok. rewrite hasPassedTime_oldest. split.
  - intros [Hnil|[k [Hk Hle]]].
    + left. destruct (object_map_ self) as [|[uuid m] om] eqn:E; [reflexivity|].
      exfalso.
      pose proof (store_ok_tracks _ Hok (uuid, m) (or_introl eq_refl)) as Ht.
      apply track_ok_not_nil in Ht. simpl in Ht.
      destruct m as [|[first o] m]; [contradiction|]. discriminate Hnil.
    + right. apply oldest_stamps_In in Hk. destruct Hk as [uuid [o [m Hin]]].
      exists uuid. unfold hasPassedTime_uuid.
      rewrite (nodup_keys_find String.eqb_eq _ _ _ (store_ok_nodup _ Hok) Hin).
      f_equal. apply Z.leb_le. exact Hle.
  - intros [Hnil|[uuid Hp]].
    + left. now rewrite Hnil.
    + right. unfold hasPassedTime_uuid in Hp.
      destruct (find String.eqb (object_map_ self) uuid) as [m|] eqn:E; [|discriminate].
      destruct m as [|[first o] m]; [discriminate|].
      injection Hp as Hp. apply Z.leb_le in Hp.
      exists first. split; [|exact Hp].
      apply oldest_stamps_In. exists uuid, o, m. now apply (find_In String.eqb_eq).
Qed.

(** X2: on a well-formed store, the store-wide [hasPassedTime] holds
    exactly when the store is empty or at least one key has, by the per-key
    [hasPassedTime], reached the stamp. *)
Theorem hasPassedTime_some_key self stamp :
  store_ok (object_map_ self) = true ->
  (hasPassedTime self stamp = true <->
   object_map_ self = [] \/ exists uuid, hasPassedTime_uuid self uuid stamp = Ok true).
Proof. exact (hasPassedTime_keys self stamp). Qed.

Lemma hasPassedTime_some_key_witness :
  hasPassedTime two_tracks (5 * second) = true <->
  object_map_ two_tracks = []
  \/ exists uuid, hasPassedTime_uuid two_tracks uuid (5 * second) = Ok true.
Proof.
  apply (hasPassedTime_some_key two_tracks (5 * second)). reflexivity.
Defined.

(** ** The batch of a stamp is not empty *)

Lemma getClosestStamp_nearest_witness :
  In (getClosestStamp two_tracks (5 * second)) (stamps_of (object_map_ two_tracks))
  /\ forall k, In k (stamps_of (object_map_ two_tracks)) ->
               Z.abs (getClosestStamp two_tracks (5 * second) - 5 * second)
               <= Z.abs (k - 5 * second).
Proof.
  apply (getClosestStamp_nearest two_tracks (5 * second)).
  - reflexivity.
  - discriminate.
  - intros k Hk. simpl in Hk.
    repeat (destruct Hk as [<-|Hk]; [reflexivity|]). destruct Hk.
Defined.

Lemma stamps_of_In om k :
  In k (stamps_of om) <-> exists uuid m o, In (uuid, m) om /\ In (k, o) m.
Proof.
  unfold stamps_of. rewrite in_flat_map. split.
  - intros [[uuid m] [Hin Hk]]. simpl in Hk. apply in_map_iff in Hk.
    destruct Hk as [[k' o] [<- Hk]]. now exists uuid, m, o.
  - intros [uuid [m [o [Hin Hk]]]]. exists (uuid, m). split; [exact Hin|].
    simpl. apply in_map_iff. now exists (k, o).
Qed.

Lemma batch_length_le closest (om : list (string * Track)) :
  (List.length
     (flat_map (fun e : string * Track =>
                  match lookup_exact (snd e) closest with
                  | Some second => [second]
                  | None => []
                  end) om)
   <= List.length om)%nat.
Proof.
  induction om as [|e om IH]; simpl; [lia|].
  rewrite length_app. destruct (lookup_exact (snd e) closest); simpl; lia.
Qed.

Lemma getClosestStamp_stored self stamp :
  store_ok (object_map_ self) = true ->
  object_map_ self <> [] ->
  (forall k, In k (stamps_of (object_map_ self)) -> Z.abs (k - stamp) < INT64_MAX) ->
  In (getClosestStamp self stamp) (stamps_of (object_map_ self)).
Proof.
  intros Hok Hne Hrange. unfold getClosestStamp.
  destruct (fold_closest_nearest_inv stamp (object_map_ self) [] (0, INT64_MAX))
    as [_ Hwhich].
  - intros e He. exact (store_ok_tracks _ Hok e He).
  - exact Hrange.
  - split; [intros k []|]. left. now split.
  - simpl app in Hwhich. destruct Hwhich as [[_ Hnil]|[_ Hin]]; [|exact Hin].
    exfalso. destruct (object_map_ self) as [|[uuid m] om] eqn:E; [now apply Hne|].
    pose proof (store_ok_tracks _ Hok (uuid, m) (or_introl eq_refl)) as Ht.
    apply track_ok_not_nil in Ht. simpl in Ht.
    destruct m as [|[k o] m]; [contradiction|]. discriminate Hnil.
Qed.

Lemma NoDup_map_filter {A B : Type} (g : A -> B) (f : A -> bool) (l : list A) :
  NoDup (map g l) -> NoDup (map g (filter f l)).
Proof.
  induction l as [|a l IH]; simpl; intro Hnd; [constructor|].
  inversion Hnd as [|? ? Hnotin Hnd']; subst.
  destruct (f a); simpl; [|now apply IH].
  constructor; [|now apply IH].
  intro Hin. apply Hnotin. apply in_map_iff in Hin. destruct Hin as [x [Hx Hin]].
  apply filter_In in Hin. apply in_map_iff. exists x. now split.
Qed.

(** The keys whose track holds a snapshot at the closest stamp, in the
    order of the store, against the objects pushed for them. *)
Lemma batch_key_by_key self stamp (l : list (string * Track)) :
  nodup_keys String.eqb (object_map_ self) = true ->
  (forall e, In e l -> In e (object_map_ self)) ->
  Forall2 (fun uuid o => getObjectByStamp self uuid stamp = Ok (Some o))
    (map fst
       (filter (fun e : string * Track =>
                  match lookup_exact (snd e) (getClosestStamp self stamp) with
                  | Some _ => true
                  | None => false
                  end) l))
    (flat_map (fun e : string * Track =>
                 match lookup_exact (snd e) (getClosestStamp self stamp) with
                 | Some second => [second]
                 | None => []
                 end) l).
Proof.
  intros Hnd. induction l as [|[uuid m] l IH]; intros Hsub; simpl; [constructor|].
  assert (IH' := IH (fun e He => Hsub e (or_intror He))).
  destruct (lookup_exact m (getClosestStamp self stamp)) as [o|] eqn:E; simpl; [|exact IH'].
  constructor; [|exact IH'].
  unfold getObjectByStamp, at_.
  rewrite (nodup_keys_find String.eqb_eq _ uuid m Hnd (Hsub _ (or_introl eq_refl))).
  simpl. now rewrite E.
Qed.

(** X4: on a well-formed store that holds a key, with every stored stamp
    within the 64-bit range of the request, the batch of
    [getObjectsByStamp] holds at least one object.  Its objects are, one
    for one and in order, what [getObjectByStamp] returns for a list of
    distinct keys: every key with a snapshot at the closest stamp stands
    in that list once, and no other key; so the batch is no longer than
    the store has keys. *)
Theorem getObjectsByStamp_one_per_key self stamp :
  store_ok (object_map_ self) = true ->
  object_map_ self <> [] ->
  (forall k, In k (stamps_of (object_map_ self)) -> Z.abs (k - stamp) < INT64_MAX) ->
  let batch := objects (getObjectsByStamp self stamp) in
  batch <> []
  /\ (List.length batch <= List.length (object_map_ self))%nat
  /\ exists keys,
      NoDup keys
      /\ Forall2 (fun uuid o => getObjectByStamp self uuid stamp = Ok (Some o)) keys batch
      /\ forall uuid o, getObjectByStamp self uuid stamp = Ok (Some o) -> In uuid keys.
Proof.
  intros Hok Hne Hrange batch. split; [|split].
  - pose proof (getClosestStamp_stored self stamp Hok Hne Hrange) as Hin.
    apply stamps_of_In in Hin. destruct Hin as [uuid [m [o [Hm Ho]]]].
    assert (Hs : sorted m = true).
    { apply track_ok_sorted. exact (store_ok_tracks _ Hok _ Hm). }
    assert (Hobj : In o batch).
    { unfold batch, getObjectsByStamp. simpl objects. apply in_flat_map.
      exists (uuid, m). split; [exact Hm|]. simpl.
      rewrite (lookup_exact_entry_at _ _ Hs), (In_entry_at _ _ _ Hs Ho). now left. }
    intro Hnil. rewrite Hnil in Hobj. destruct Hobj.
  - unfold batch, getObjectsByStamp. simpl objects. now apply batch_length_le.
  - pose proof (store_ok_nodup _ Hok) as Hnd.
    exists (map fst
              (filter (fun e : string * Track =>
                         match lookup_exact (snd e) (getClosestStamp self stamp) with
                         | Some _ => true
                         | None => false
                         end) (object_map_ self))).
    split; [|split].
    + apply NoDup_map_filter. exact (nodup_keys_NoDup _ Hnd).
    + unfold batch, getObjectsByStamp. simpl objects.
      apply (batch_key_by_key self stamp (object_map_ self) Hnd). now intros e He.
    + intros uuid o Hget. unfold getObjectByStamp, at_ in Hget.
      destruct (find String.eqb (object_map_ self) uuid) as [m|] eqn:Hf;
        [|discriminate Hget].
      simpl in Hget. injection Hget as Hget.
      apply in_map_iff. exists (uuid, m). split; [reflexivity|].
      apply filter_In. split.
      * exact (find_In String.eqb_eq _ _ _ Hf).
      * simpl. now rewrite Hget.
Qed.

Lemma getObjectsByStamp_one_per_key_witness :
  let batch := objects (getObjectsByStamp two_tracks (5 * second)) in
  batch <> []
  /\ (List.length batch <= List.length (object_map_ two_tracks))%nat
  /\ exists keys,
      NoDup keys
      /\ Forall2 (fun uuid o => getObjectByStamp two_tracks uuid (5 * second) = Ok (Some o))
           keys batch
      /\ forall uuid o,
          getObjectByStamp two_tracks uuid (5 * second) = Ok (Some o) -> In uuid keys.
Proof.
  apply (getObjectsByStamp_one_per_key two_tracks (5 * second)).
  - reflexivity.
  - discriminate.
  - intros k Hk. simpl in Hk.
    repeat (destruct Hk as [<-|Hk]; [reflexivity|]). destruct Hk.
Defined.

(** ** Storing an object *)

Lemma insert_or_assign_head_ge m stamp o : forall k v,
  sorted ((k, v) :: m) = true -> k < stamp ->
  match insert_or_assign m stamp o with
  | [] => False
  | (first, _) :: _ => k < first
  end.
Proof.
  intros k v Hs Hlt. destruct m as [|[k2 v2] m]; simpl; [exact Hlt|].
  simpl in Hs. apply andb_true_iff in Hs. destruct Hs as [H12 _]. apply Z.ltb_lt in H12.
  destruct (stamp <? k2); [exact Hlt|]. destruct (stamp =? k2); [exact Hlt|exact H12].
Qed.

Lemma sorted_cons k v m :
  match m with
  | [] => True
  | (first, _) :: _ => k < first
  end ->
  sorted m = true -> sorted ((k, v) :: m) = true.
Proof.
  intros Hhd Hs. destruct m as [|[k2 v2] m]; [reflexivity|].
  change (sorted ((k, v) :: (k2, v2) :: m)) with ((k <? k2) && sorted ((k2, v2) :: m)).
  rewrite Hs. apply andb_true_iff. split; [now apply Z.ltb_lt|reflexivity].
Qed.

Lemma insert_or_assign_sorted m stamp o :
  sorted m = true -> sorted (insert_or_assign m stamp o) = true.
Proof.
  induction m as [|[k v] m IH]; intro Hs; [reflexivity|].
  simpl insert_or_assign.
  destruct (stamp <? k) eqn:E1.
  - apply sorted_cons; [now apply Z.ltb_lt|exact Hs].
  - destruct (stamp =? k) eqn:E2.
    + apply Z.eqb_eq in E2. subst k. apply sorted_cons; [|exact (sorted_tail _ _ _ Hs)].
      pose proof (sorted_head_lt _ _ _ Hs) as Hlt.
      destruct m as [|[k2 v2] m]; [exact I|]. inversion Hlt; subst. assumption.
    + apply sorted_cons; [|exact (IH (sorted_tail _ _ _ Hs))].
      pose proof (insert_or_assign_head_ge m stamp o k v Hs) as Hhd.
      destruct (insert_or_assign m stamp o) as [|[f s] r]; [exact I|]. apply Hhd. lia.
Qed.

Lemma insert_or_assign_not_nil m stamp o : insert_or_assign m stamp o <> [].
Proof.
  destruct m as [|[k v] m]; simpl; [discriminate|].
  destruct (stamp <? k); [discriminate|]. destruct (stamp =? k); discriminate.
Qed.

Lemma entry_at_insert_or_assign m stamp o stamp' :
  entry_at (insert_or_assign m stamp o) stamp'
  = if stamp =? stamp' then Some o else entry_at m stamp'.
Proof.
  induction m as [|[k v] m IH]; simpl.
  - destruct (stamp =? stamp'); reflexivity.
  - destruct (stamp <? k) eqn:E1; simpl.
    + destruct (stamp =? stamp'); reflexivity.
    + destruct (stamp =? k) eqn:E2; simpl.
      * apply Z.eqb_eq in E2. subst k. destruct (stamp =? stamp'); reflexivity.
      * rewrite IH. destruct (stamp =? stamp') eqn:E3; [|reflexivity].
        apply Z.eqb_eq in E3. subst stamp'. now rewrite Z.eqb_sym, E2.
Qed.

Lemma track_ok_insert_or_assign m stamp o :
  sorted m = true -> track_ok (insert_or_assign m stamp o) = true.
Proof.
  intro Hs. unfold track_ok. rewrite (insert_or_assign_sorted _ _ _ Hs). simpl.
  pose proof (insert_or_assign_not_nil m stamp o).
  destruct (insert_or_assign m stamp o); [contradiction|reflexivity].
Qed.

Lemma forallb_assign {V : Type} (P : V -> bool) (m : list (string * V)) k v :
  forallb (fun e => P (snd e)) m = true ->
  P v = true ->
  forallb (fun e => P (snd e)) (assign String.eqb m k v) = true.
Proof.
  intros Hall Hv. induction m as [|[k' v'] m IH]; simpl.
  - now rewrite Hv.
  - simpl in Hall. apply andb_true_iff in Hall. destruct Hall as [H1 H2].
    destruct (String.eqb k' k); simpl.
    + now rewrite Hv, H2.
    + now rewrite H1, IH.
Qed.

Lemma get_or_sorted om uuid :
  store_ok om = true -> sorted (get_or String.eqb om uuid []) = true.
Proof.
  intro Hok. unfold get_or.
  destruct (find String.eqb om uuid) as [m|] eqn:E; [|reflexivity].
  apply track_ok_sorted. exact (store_ok_tracks _ Hok _ (find_In String.eqb_eq _ _ _ E)).
Qed.

Lemma updateObjects_store_ok self uuid stamp o :
  store_ok (object_map_ self) = true ->
  store_ok (object_map_ (updateObjects self uuid stamp o)) = true.
Proof.
  intro Hok. unfold updateObjects. simpl object_map_. unfold store_ok.
  apply andb_true_iff. split.
  - apply (nodup_keys_assign String.eqb_eq). exact (store_ok_nodup _ Hok).
  - apply (forallb_assign track_ok).
    + unfold store_ok in Hok. apply andb_true_iff in Hok. tauto.
    + apply track_ok_insert_or_assign. now apply get_or_sorted.
Qed.

Lemma updateObjects_find self uuid stamp o uuid' :
  find String.eqb (object_map_ (updateObjects self uuid stamp o)) uuid'
  = if String.eqb uuid uuid'
    then Some (insert_or_assign (get_or String.eqb (object_map_ self) uuid []) stamp o)
    else find String.eqb (object_map_ self) uuid'.
Proof.
  unfold updateObjects. simpl object_map_.
  destruct (String.eqb uuid uuid') eqn:E.
  - apply String.eqb_eq in E. subst uuid'. apply (find_assign_same String.eqb_eq).
  - apply String.eqb_neq in E. now apply (find_assign_other String.eqb_eq).
Qed.

(** The exact lookup on a well-formed store, for a stamp the track holds. *)
Lemma getObjectByStamp_stored self uuid stamp m o :
  store_ok (object_map_ self) = true ->
  find String.eqb (object_map_ self) uuid = Some m ->
  entry_at m stamp = Some o ->
  getObjectByStamp self uuid stamp = Ok (Some o).
Proof.
  intros Hok Hfind He.
  pose proof (find_In String.eqb_eq _ _ _ Hfind) as Hin.
  unfold getObjectByStamp, at_. rewrite Hfind. simpl.
  rewrite (getClosestStamp_exact self stamp uuid m o Hok Hin He).
  rewrite lookup_exact_entry_at, He; [reflexivity|].
  apply track_ok_sorted. exact (store_ok_tracks _ Hok _ Hin).
Qed.

(** X5: [updateObjects] keeps the store well formed; the object it stores
    is the one [getObjectByStamp] returns for its key and stamp, entries
    of the key at other stamps are kept, and the tracks of other keys are
    untouched. *)
Theorem updateObjects_then_lookup self uuid stamp o :
  store_ok (object_map_ self) = true ->
  let after := updateObjects self uuid stamp o in
  store_ok (object_map_ after) = true
  /\ getObjectByStamp after uuid stamp = Ok (Some o)
  /\ (forall stamp', stamp' <> stamp ->
        entry_at (get_or String.eqb (object_map_ after) uuid []) stamp'
        = entry_at (get_or String.eqb (object_map_ self) uuid []) stamp')
  /\ (forall uuid', uuid' <> uuid ->
        find String.eqb (object_map_ after) uuid'
        = find String.eqb (object_map_ self) uuid').
Proof.
  intros Hok after.
  pose proof (updateObjects_store_ok self uuid stamp o Hok) as Hok'. fold after in Hok'.
  assert (Hfind : find String.eqb (object_map_ after) uuid
                  = Some (insert_or_assign (get_or String.eqb (object_map_ self) uuid [])
                            stamp o)).
  { unfold after. now rewrite updateObjects_find, String.eqb_refl. }
  split; [exact Hok'|]. split; [|split].
  - apply (getObjectByStamp_stored after uuid stamp _ o Hok' Hfind).
    now rewrite entry_at_insert_or_assign, Z.eqb_refl.
  - intros stamp' Hne. unfold get_or at 1. rewrite Hfind.
    rewrite entry_at_insert_or_assign.
    destruct (stamp =? stamp') eqn:E; [|reflexivity].
    apply Z.eqb_eq in E. congruence.
  - intros uuid' Hne. unfold after. rewrite updateObjects_find.
    destruct (String.eqb uuid uuid') eqn:E; [|reflexivity].
    apply String.eqb_eq in E. congruence.
Qed.

Lemma updateObjects_then_lookup_witness :
  let after := updateObjects two_tracks "b" (8 * second) (object_at "b" 16 5) in
  store_ok (object_map_ after) = true
  /\ getObjectByStamp after "b" (8 * second) = Ok (Some (object_at "b" 16 5))
  /\ (forall stamp', stamp' <> 8 * second ->
        entry_at (get_or String.eqb (object_map_ after) "b"%string []) stamp'
        = entry_at (get_or String.eqb (object_map_ two_tracks) "b"%string []) stamp')
  /\ (forall uuid', uuid' <> "b"%string ->
        find String.eqb (object_map_ after) uuid'
        = find String.eqb (object_map_ two_tracks) uuid').
Proof.
  apply (updateObjects_then_lookup two_tracks "b" (8 * second) (object_at "b" 16 5)).
  reflexivity.
Defined.

(** ** What eviction leaves *)

Lemma erase_loop_filter {V : Type} (l : list (string * Track)) : forall m : list (string * V),
  fold_left
    (fun acc (e : string * Track) =>
       match snd e with
       | [] => erase String.eqb acc (fst e)
       | _ :: _ => acc
       end) l m
  = filter (fun e' => negb (existsb (purged (fst e')) l)) m.
Proof.
  induction l as [|e l IH]; intro m; simpl.
  - induction m as [|a m IHm]; simpl; [reflexivity|]. now rewrite <- IHm.
  - rewrite IH. unfold purged at 2. destruct (snd e) as [|e0 t]; simpl.
    + unfold erase. induction m as [|a m IHm]; simpl; [reflexivity|].
      rewrite (String.eqb_sym (fst a) (fst e)).
      destruct (String.eqb (fst e) (fst a)); simpl; [exact IHm|].
      destruct (existsb (purged (fst a)) l); simpl; [exact IHm|now rewrite IHm].
    + reflexivity.
Qed.

Lemma purge_loop_fields l : forall s,
  let loop V :=
    fold_left (fun (acc : list (string * V)) (e : string * Track) =>
                 match snd e with
                 | [] => erase String.eqb acc (fst e)
                 | _ :: _ => acc
                 end) l in
  fold_left purge_empty l s
  = {| parameters_ := parameters_ s;
       current_stamp_ := current_stamp_ s;
       object_map_ := loop _ (object_map_ s);
       history_path_map_ := loop _ (history_path_map_ s);
       debug_target_object_ := loop _ (debug_target_object_ s) |}.
Proof.
  induction l as [|e l IH]; intro s; simpl.
  - now destruct s.
  - rewrite IH. unfold purge_empty. destruct (snd e); reflexivity.
Qed.

Lemma find_filter_keys {V : Type} (f : string -> bool) (m : list (string * V)) k :
  find String.eqb (filter (fun e => f (fst e)) m) k
  = if f k then find String.eqb m k else None.
Proof.
  induction m as [|[k' v'] m IH]; simpl.
  - now destruct (f k).
  - destruct (f k') eqn:Ef; simpl.
    + destruct (String.eqb k' k) eqn:E; [|exact IH].
      apply String.eqb_eq in E. subst k'. now rewrite Ef.
    + rewrite IH. destruct (String.eqb k' k) eqn:E; [|reflexivity].
      apply String.eqb_eq in E. subst k'. now rewrite Ef.
Qed.

Lemma nodup_keys_filter {V : Type} (f : string * V -> bool) (m : list (string * V)) :
  nodup_keys String.eqb m = true -> nodup_keys String.eqb (filter f m) = true.
Proof.
  induction m as [|[k v] m IH]; intro Hnd; simpl; [reflexivity|].
  simpl in Hnd. destruct (find String.eqb m k) eqn:Ef; [discriminate|].
  destruct (f (k, v)); simpl; [|now apply IH].
  destruct (find String.eqb (filter f m) k) eqn:Ef'; [|now apply IH].
  exfalso. apply (find_In String.eqb_eq) in Ef'. apply filter_In in Ef'.
  exact (find_None_not_In String.eqb_eq _ _ Ef _ (proj1 Ef')).
Qed.

Lemma nodup_keys_trim cutoff om :
  nodup_keys String.eqb (trim_tracks cutoff om) = nodup_keys String.eqb om.
Proof.
  unfold trim_tracks. induction om as [|[k m] om IH]; simpl; [reflexivity|].
  rewrite (find_map_values (fun t => erase_old t cutoff)).
  destruct (find String.eqb om k); simpl; [reflexivity|exact IH].
Qed.

(** Among unique keys, a key is purged exactly when its own track is
    empty. *)
Lemma purged_own_track (l : list (string * Track)) e :
  nodup_keys String.eqb l = true ->
  In e l ->
  existsb (purged (fst e)) l = negb (has_entries e).
Proof.
  intros Hnd Hin. destruct e as [k t]. simpl fst.
  destruct (existsb (purged k) l) eqn:E.
  - apply existsb_exists in E. destruct E as [[k' t'] [Hin' Hp]].
    unfold purged in Hp. simpl in Hp. destruct t' as [|e0 t']; [|discriminate].
    apply String.eqb_eq in Hp. subst k'.
    pose proof (nodup_keys_find String.eqb_eq _ _ _ Hnd Hin) as H1.
    pose proof (nodup_keys_find String.eqb_eq _ _ _ Hnd Hin') as H2.
    rewrite H1 in H2. injection H2 as ->. reflexivity.
  - unfold has_entries. simpl. destruct t as [|e0 t]; [|reflexivity].
    assert (Hex : existsb (purged k) l = true).
    { apply existsb_exists. exists (k, []). split; [exact Hin|].
      unfold purged. simpl. apply String.eqb_refl. }
    congruence.
Qed.

Lemma deleteOldObjects_unfold self stamp d :
  getTimeDelay self = Ok d ->
  let trimmed := trim_tracks (stamp - from_seconds (d * 2)) (object_map_ self) in
  let kept V (m : list (string * V)) :=
    filter (fun e' => negb (existsb (purged (fst e')) trimmed)) m in
  deleteOldObjects self stamp
  = Ok {| parameters_ := parameters_ self;
          current_stamp_ := current_stamp_ self;
          object_map_ := kept _ trimmed;
          history_path_map_ := kept _ (history_path_map_ self);
          debug_target_object_ := kept _ (debug_target_object_ self) |}.
Proof.
  intros Hd trimmed kept. unfold deleteOldObjects. rewrite Hd. simpl bind.
  rewrite purge_loop_fields. simpl.
  unfold kept, trimmed, trim_tracks. now rewrite !erase_loop_filter.
Qed.

Lemma deleteOldObjects_object_map self stamp d after :
  nodup_keys String.eqb (object_map_ self) = true ->
  getTimeDelay self = Ok d ->
  deleteOldObjects self stamp = Ok after ->
  object_map_ after
  = filter has_entries (trim_tracks (stamp - from_seconds (d * 2)) (object_map_ self)).
Proof.
  intros Hnd Hd Hrun. rewrite (deleteOldObjects_unfold self stamp d Hd) in Hrun.
  injection Hrun as <-. simpl object_map_.
  apply filter_ext_in. intros e He.
  rewrite purged_own_track; [apply negb_involutive| |exact He].
  now rewrite nodup_keys_trim.
Qed.

(** X6: with unique keys, [deleteOldObjects] leaves in the store exactly
    the trimmed tracks that still hold an entry, in their order, and
    erases from the history paths and from the debug records the keys
    whose track it emptied and no other key. *)
Theorem deleteOldObjects_result self stamp d :
  nodup_keys String.eqb (object_map_ self) = true ->
  getTimeDelay self = Ok d ->
  let cutoff := stamp - from_seconds (d * 2) in
  exists after,
    deleteOldObjects self stamp = Ok after
    /\ parameters_ after = parameters_ self
    /\ current_stamp_ after = current_stamp_ self
    /\ object_map_ after = filter has_entries (trim_tracks cutoff (object_map_ self))
    /\ forall uuid,
        let emptied :=
          match find String.eqb (object_map_ self) uuid with
          | Some m => negb (has_entries (uuid, erase_old m cutoff))
          | None => false
          end in
        find String.eqb (history_path_map_ after) uuid
        = (if emptied then None else find String.eqb (history_path_map_ self) uuid)
        /\ find String.eqb (debug_target_object_ after) uuid
           = (if emptied then None else find String.eqb (debug_target_object_ self) uuid).
Proof.
  intros Hnd Hd cutoff.
  pose proof (deleteOldObjects_unfold self stamp d Hd) as Hrun. cbv zeta in Hrun.
  fold cutoff in Hrun.
  eexists. split; [exact Hrun|]. split; [reflexivity|]. split; [reflexivity|]. split.
  - apply (deleteOldObjects_object_map self stamp d _ Hnd Hd Hrun).
  - intros uuid emptied. simpl history_path_map_. simpl debug_target_object_.
    assert (Hp : existsb (purged uuid) (trim_tracks cutoff (object_map_ self)) = emptied).
    { unfold emptied.
      destruct (find String.eqb (object_map_ self) uuid) as [m|] eqn:E.
      - unfold trim_tracks. rewrite (purged_trimmed uuid m cutoff _ Hnd E).
        unfold has_entries. simpl. now destruct (erase_old m cutoff).
      - destruct (existsb (purged uuid) (trim_tracks cutoff (object_map_ self))) eqn:Ex;
          [|reflexivity].
        exfalso. apply existsb_exists in Ex. destruct Ex as [[k t] [Hin Hk]].
        unfold purged in Hk. simpl in Hk. destruct t; [|discriminate].
        apply String.eqb_eq in Hk. subst k.
        unfold trim_tracks in Hin. apply in_map_iff in Hin.
        destruct Hin as [[k m] [Heq Hin]]. injection Heq as -> _.
        exact (find_None_not_In String.eqb_eq _ _ E _ Hin). }
    rewrite !(find_filter_keys
                (fun k => negb (existsb (purged k) (trim_tracks cutoff (object_map_ self))))).
    rewrite Hp. now destruct emptied.
Qed.

Lemma deleteOldObjects_result_witness :
  let cutoff := 110 * second - from_seconds (5 * 2) in
  exists after,
    deleteOldObjects far_apart (110 * second) = Ok after
    /\ parameters_ after = parameters_ far_apart
    /\ current_stamp_ after = current_stamp_ far_apart
    /\ object_map_ after = filter has_entries (trim_tracks cutoff (object_map_ far_apart))
    /\ forall uuid,
        let emptied :=
          match find String.eqb (object_map_ far_apart) uuid with
          | Some m => negb (has_entries (uuid, erase_old m cutoff))
          | None => false
          end in
        find String.eqb (history_path_map_ after) uuid
        = (if emptied then None else find String.eqb (history_path_map_ far_apart) uuid)
        /\ find String.eqb (debug_target_object_ after) uuid
           = (if emptied then None
              else find String.eqb (debug_target_object_ far_apart) uuid).
Proof.
  apply (deleteOldObjects_result far_apart (110 * second) 5); reflexivity.
Defined.

(** In [far_apart], evicting at 110 s with delay 5 s drops [a] and its
    history path and keeps [b]. *)
Example deleteOldObjects_far_apart :
  exists after,
    deleteOldObjects far_apart (110 * second) = Ok after
    /\ map fst (object_map_ after) = ["b"%string]
    /\ map fst (history_path_map_ after) = ["b"%string].
Proof. eexists. split; [reflexivity|]. split; reflexivity. Qed.

Lemma forallb_filter_true {A : Type} (f : A -> bool) (l : list A) :
  forallb f (filter f l) = true.
Proof.
  induction l as [|a l IH]; simpl; [reflexivity|].
  destruct (f a) eqn:E; simpl; [now rewrite E|exact IH].
Qed.

Lemma deleteOldObjects_store_ok self stamp after :
  store_ok (object_map_ self) = true ->
  deleteOldObjects self stamp = Ok after ->
  store_ok (object_map_ after) = true.
Proof.
  intros Hok Hrun.
  assert (Hd : exists d, getTimeDelay self = Ok d).
  { unfold deleteOldObjects in Hrun. destruct (getTimeDelay self) as [d|]; [now exists d|].
    discriminate Hrun. }
  destruct Hd as [d Hd].
  rewrite (deleteOldObjects_object_map self stamp d after (store_ok_nodup _ Hok) Hd Hrun).
  set (cutoff := stamp - from_seconds (d * 2)).
  unfold store_ok. apply andb_true_iff. split.
  - apply nodup_keys_filter. rewrite nodup_keys_trim. exact (store_ok_nodup _ Hok).
  - apply forallb_forall. intros e He. apply filter_In in He. destruct He as [Hin Hhas].
    unfold trim_tracks in Hin. apply in_map_iff in Hin. destruct Hin as [[k m] [<- Hin]].
    simpl snd. unfold track_ok. apply andb_true_iff. split.
    + apply sorted_erase_old. apply track_ok_sorted. exact (store_ok_tracks _ Hok _ Hin).
    + unfold has_entries in Hhas. simpl in Hhas. now destruct (erase_old m cutoff).
Qed.

(** X7: [deleteOldObjects] keeps the store well formed: keys stay unique,
    tracks stay sorted, and no track is left without an entry. *)
Theorem deleteOldObjects_keeps_store_ok self stamp after :
  store_ok (object_map_ self) = true ->
  deleteOldObjects self stamp = Ok after ->
  store_ok (object_map_ after) = true
  /\ forall uuid m, find String.eqb (object_map_ after) uuid = Some m -> m <> [].
Proof.
  intros Hok Hrun.
  pose proof (deleteOldObjects_store_ok self stamp after Hok Hrun) as Hok'.
  split; [exact Hok'|]. intros uuid m Hfind.
  apply track_ok_not_nil.
  exact (store_ok_tracks _ Hok' _ (find_In String.eqb_eq _ _ _ Hfind)).
Qed.

Lemma deleteOldObjects_keeps_store_ok_witness :
  exists after,
    deleteOldObjects far_apart (110 * second) = Ok after
    /\ store_ok (object_map_ after) = true
    /\ forall uuid m, find String.eqb (object_map_ after) uuid = Some m -> m <> [].
Proof.
  eexists. split; [reflexivity|].
  apply (deleteOldObjects_keeps_store_ok far_apart (110 * second)); reflexivity.
Defined.

Lemma erase_old_fixed m cutoff :
  match m with
  | [] => True
  | (first, _) :: _ => cutoff <= first
  end ->
  erase_old m cutoff = m.
Proof.
  destruct m as [|[k v] m]; [reflexivity|]. intro H. simpl.
  destruct (k <? cutoff) eqn:E; [lia|reflexivity].
Qed.

Lemma purge_loop_none l : forall s,
  (forall e, In e l -> snd e <> []) -> fold_left purge_empty l s = s.
Proof.
  induction l as [|e l IH]; intros s Hall; simpl; [reflexivity|].
  assert (He : purge_empty s e = s).
  { pose proof (Hall e (or_introl eq_refl)) as Hne.
    destruct e as [k [|p t]]; [now contradiction Hne|reflexivity]. }
  rewrite He. apply IH. intros e' He'. apply Hall. now right.
Qed.

(** X8: eviction is idempotent: a second [deleteOldObjects] at the same
    stamp changes nothing. *)
Theorem deleteOldObjects_idempotent self stamp after :
  deleteOldObjects self stamp = Ok after ->
  deleteOldObjects after stamp = Ok after.
Proof.
  intro Hrun.
  assert (Hd : exists d, getTimeDelay self = Ok d).
  { unfold deleteOldObjects in Hrun. destruct (getTimeDelay self) as [d|]; [now exists d|].
    discriminate Hrun. }
  destruct Hd as [d Hd].
  rewrite (deleteOldObjects_unfold self stamp d Hd) in Hrun.
  set (cutoff := stamp - from_seconds (d * 2)) in *.
  set (trimmed := trim_tracks cutoff (object_map_ self)) in *.
  injection Hrun as <-.
  set (om1 := filter (fun e' => negb (existsb (purged (fst e')) trimmed)) trimmed).
  (* every track left holds an entry and starts inside the window *)
  assert (Hleft : forall e, In e om1 ->
                            snd e <> [] /\ erase_old (snd e) cutoff = snd e).
  { intros e He. unfold om1 in He. apply filter_In in He. destruct He as [Hin Hnp].
    assert (Hne : snd e <> []).
    { intro Hnil. apply negb_true_iff in Hnp.
      assert (Hex : existsb (purged (fst e)) trimmed = true).
      { apply existsb_exists. exists e. split; [exact Hin|].
        unfold purged. rewrite Hnil. apply String.eqb_refl. }
      congruence. }
    split; [exact Hne|].
    unfold trimmed, trim_tracks in Hin. apply in_map_iff in Hin.
    destruct Hin as [[k m] [<- _]]. simpl snd in *.
    apply erase_old_fixed.
    destruct (erase_old_prefix m cutoff) as [_ [_ [_ Hhd]]]. exact Hhd. }
  unfold deleteOldObjects, getTimeDelay. simpl parameters_.
  unfold getTimeDelay in Hd. rewrite Hd. simpl bind. fold cutoff. simpl object_map_.
  assert (Hsame : map (fun e : string * Track => (fst e, erase_old (snd e) cutoff)) om1
                  = om1).
  { rewrite <- (map_id om1) at 2. apply map_ext_in. intros [k m] He.
    simpl. f_equal. exact (proj2 (Hleft _ He)). }
  simpl current_stamp_. simpl history_path_map_. simpl debug_target_object_.
  rewrite Hsame. fold om1.
  rewrite purge_loop_none; [reflexivity|].
  intros e He. exact (proj1 (Hleft e He)).
Qed.

Lemma deleteOldObjects_idempotent_witness :
  exists after,
    deleteOldObjects far_apart (110 * second) = Ok after
    /\ deleteOldObjects after (110 * second) = Ok after.
Proof.
  eexists. split; [reflexivity|].
  apply (deleteOldObjects_idempotent far_apart (110 * second)). reflexivity.
Defined.

(** ** The smoothed path *)

Lemma averageFilterPath_length_pos dist az quat path window_size :
  List.length (averageFilterPath dist az quat path window_size) = List.length path
  /\ forall i,
      position (nth i (averageFilterPath dist az quat path window_size) default_pose)
      = position (nth i (position_pass path window_size) default_pose).
Proof.
  unfold averageFilterPath, orientation_pass. split.
  - now rewrite orientation_loop_length, position_pass_length.
  - intro i. apply orientation_loop_position.
Qed.

(** X9: [averageFilterPath] returns as many poses as it is given, and at
    every index from [window_size / 2] on the position returned is the
    mean of the input positions over the window
    [i - window_size / 2 .. min (i + window_size / 2, size - 1)]. *)
Theorem averageFilterPath_window_mean dist az quat path window_size i :
  (i < List.length path)%nat ->
  0 <= window_size ->
  window_size / 2 <= Z.of_nat i ->
  Z.of_nat i + window_size / 2 < SIZE_MOD ->
  Z.of_nat (List.length path) < SIZE_MOD ->
  List.length (averageFilterPath dist az quat path window_size) = List.length path
  /\ Point_eq
       (position (nth i (averageFilterPath dist az quat path window_size) default_pose))
       (spec_window_mean path window_size (Z.of_nat i)).
Proof.
  intros Hi Hw Hhalf Hfit Hsize.
  destruct (averageFilterPath_length_pos dist az quat path window_size) as [Hlen Hpos].
  split; [exact Hlen|]. rewrite Hpos. now apply position_pass_window_mean.
Qed.

Lemma averageFilterPath_window_mean_witness :
  List.length (averageFilterPath axis_distance diamond_azimuth yaw_quaternion uneven_path 2)
  = List.length uneven_path
  /\ Point_eq
       (position
          (nth 1 (averageFilterPath axis_distance diamond_azimuth yaw_quaternion
                    uneven_path 2) default_pose))
       (spec_window_mean uneven_path 2 (Z.of_nat 1)).
Proof.
  apply (averageFilterPath_window_mean axis_distance diamond_azimuth yaw_quaternion
           uneven_path 2 1).
  - simpl. lia.
  - lia.
  - vm_compute. discriminate.
  - reflexivity.
  - reflexivity.
Defined.

(** X10: at every index below [window_size / 2] the unsigned lower bound
    of the window wraps, the window is empty, and [averageFilterPath]
    returns the input position unchanged. *)
Theorem averageFilterPath_prefix_unchanged dist az quat path window_size i :
  (i < List.length path)%nat ->
  Z.of_nat i < window_size / 2 ->
  window_size / 2 + Z.of_nat (List.length path) <= SIZE_MOD ->
  position (nth i (averageFilterPath dist az quat path window_size) default_pose)
  = position (nth i path default_pose).
Proof.
  intros Hi Hhalf Hfit.
  rewrite (proj2 (averageFilterPath_length_pos dist az quat path window_size)).
  now apply position_pass_prefix_unsmoothed.
Qed.

Lemma averageFilterPath_prefix_unchanged_witness :
  position
    (nth 2 (averageFilterPath axis_distance diamond_azimuth yaw_quaternion
              uneven_path 11) default_pose)
  = position (nth 2 uneven_path default_pose).
Proof.
  apply (averageFilterPath_prefix_unchanged axis_distance diamond_azimuth yaw_quaternion
           uneven_path 11 2).
  - simpl. lia.
  - reflexivity.
  - vm_compute. discriminate.
Defined.

(** ** Rebuilding the history paths *)

Lemma history_loop_find (f : string * Track -> list Pose * list Pose) l :
  forall hm uuid,
    nodup_keys String.eqb l = true ->
    find String.eqb
      (fold_left (fun hm (e : string * Track) => assign String.eqb hm (fst e) (f e)) l hm)
      uuid
    = match find String.eqb l uuid with
      | Some m => Some (f (uuid, m))
      | None => find String.eqb hm uuid
      end.
Proof.
  induction l as [|[k m] l IH]; intros hm uuid Hnd; simpl; [reflexivity|].
  simpl in Hnd. destruct (find String.eqb l k) eqn:Ek; [discriminate|].
  rewrite IH by exact Hnd.
  destruct (String.eqb k uuid) eqn:E.
  - apply String.eqb_eq in E. subst uuid. rewrite Ek.
    apply (find_assign_same String.eqb_eq).
  - destruct (find String.eqb l uuid); [reflexivity|].
    apply String.eqb_neq in E. now apply (find_assign_other String.eqb_eq).
Qed.

Lemma updateHistoryPath_find dist az quat self uuid :
  nodup_keys String.eqb (object_map_ self) = true ->
  find String.eqb (history_path_map_ (updateHistoryPath dist az quat self)) uuid
  = match find String.eqb (object_map_ self) uuid with
    | Some m =>
        let history_path := map (fun so => pose (snd so)) m in
        Some (history_path,
              averageFilterPath dist az quat history_path
                (smoothing_window_size (parameters_ self)))
    | None => find String.eqb (history_path_map_ self) uuid
    end.
Proof.
  intro Hnd. unfold updateHistoryPath. simpl history_path_map_.
  rewrite (history_loop_find
             (fun e => (map (fun so => pose (snd so)) (snd e),
                        averageFilterPath dist az quat (map (fun so => pose (snd so)) (snd e))
                          (smoothing_window_size (parameters_ self)))))
    by exact Hnd.
  reflexivity.
Qed.

Lemma updateHistoryPath_history_ok dist az quat self :
  nodup_keys String.eqb (object_map_ self) = true ->
  history_ok (updateHistoryPath dist az quat self) = true.
Proof.
  intro Hnd. unfold history_ok. apply forallb_forall. intros [uuid m] Hin.
  simpl fst. simpl snd.
  rewrite updateHistoryPath_find by exact Hnd.
  change (object_map_ (updateHistoryPath dist az quat self)) with (object_map_ self) in Hin.
  rewrite (nodup_keys_find String.eqb_eq _ _ _ Hnd Hin). cbv beta iota zeta.
  rewrite (proj1 (averageFilterPath_length_pos _ _ _ _ _)), length_map.
  now rewrite Nat.eqb_refl.
Qed.

(** X11: [updateHistoryPath] leaves the store as it is and gives every
    key of the store the poses of its track, in stamp order, as raw path
    and their smoothing as smoothed path, both as long as the track; the
    history paths of other keys stay. *)
Theorem updateHistoryPath_in_sync dist az quat self :
  nodup_keys String.eqb (object_map_ self) = true ->
  let after := updateHistoryPath dist az quat self in
  object_map_ after = object_map_ self
  /\ history_ok after = true
  /\ forall uuid,
      match find String.eqb (object_map_ self) uuid with
      | Some m =>
          exists smoothed,
            find String.eqb (history_path_map_ after) uuid
            = Some (map (fun so => pose (snd so)) m, smoothed)
            /\ smoothed
               = averageFilterPath dist az quat (map (fun so => pose (snd so)) m)
                   (smoothing_window_size (parameters_ self))
            /\ List.length smoothed = List.length m
      | None =>
          find String.eqb (history_path_map_ after) uuid
          = find String.eqb (history_path_map_ self) uuid
      end.
Proof.
  intros Hnd after. split; [reflexivity|].
  split; [now apply updateHistoryPath_history_ok|].
  intro uuid. unfold after. rewrite updateHistoryPath_find by exact Hnd.
  destruct (find String.eqb (object_map_ self) uuid) as [m|]; [|reflexivity].
  eexists. split; [reflexivity|]. split; [reflexivity|].
  now rewrite (proj1 (averageFilterPath_length_pos _ _ _ _ _)), length_map.
Qed.

Lemma updateHistoryPath_in_sync_witness :
  let after := updateHistoryPath axis_distance diamond_azimuth yaw_quaternion two_tracks in
  object_map_ after = object_map_ two_tracks
  /\ history_ok after = true
  /\ forall uuid,
      match find String.eqb (object_map_ two_tracks) uuid with
      | Some m =>
          exists smoothed,
            find String.eqb (history_path_map_ after) uuid
            = Some (map (fun so => pose (snd so)) m, smoothed)
            /\ smoothed
               = averageFilterPath axis_distance diamond_azimuth yaw_quaternion
                   (map (fun so => pose (snd so)) m)
                   (smoothing_window_size (parameters_ two_tracks))
            /\ List.length smoothed = List.length m
      | None =>
          find String.eqb (history_path_map_ after) uuid
          = find String.eqb (history_path_map_ two_tracks) uuid
      end.
Proof.
  apply (updateHistoryPath_in_sync axis_distance diamond_azimuth yaw_quaternion two_tracks).
  reflexivity.
Defined.

(** ** Ingesting a batch *)

Lemma store_objects_fields batch : forall self,
  let after := store_objects self batch in
  parameters_ after = parameters_ self
  /\ current_stamp_ after = current_stamp_ self
  /\ (store_ok (object_map_ self) = true -> store_ok (object_map_ after) = true).
Proof.
  induction batch as [|o batch IH]; intro self; simpl.
  - repeat split. auto.
  - destruct (IH (updateObjects self (object_id o) (current_stamp_ self) o))
      as [Hp [Hc Hok]].
    unfold store_objects in *. simpl in *. rewrite Hp, Hc.
    repeat split. intro H. apply Hok. now apply updateObjects_store_ok.
Qed.

(** An entry stored at the current stamp stays, or gives way to a later
    object of the batch with the same identifier. *)
Lemma store_objects_keeps_entry batch : forall self uuid m o0,
  find String.eqb (object_map_ self) uuid = Some m ->
  entry_at m (current_stamp_ self) = Some o0 ->
  object_id o0 = uuid ->
  exists m' o',
    find String.eqb (object_map_ (store_objects self batch)) uuid = Some m'
    /\ entry_at m' (current_stamp_ self) = Some o'
    /\ object_id o' = uuid
    /\ (o' = o0 \/ In o' batch).
Proof.
  induction batch as [|o batch IH]; intros self uuid m o0 Hfind He Hid.
  - exists m, o0. simpl. repeat split; auto.
  - unfold store_objects. simpl fold_left.
    set (s1 := updateObjects self (object_id o) (current_stamp_ self) o).
    fold (store_objects s1 batch).
    assert (Hstamp : current_stamp_ s1 = current_stamp_ self) by reflexivity.
    destruct (string_dec (object_id o) uuid) as [Heq|Hne].
    + destruct (IH s1 uuid
                  (insert_or_assign (get_or String.eqb (object_map_ self) uuid [])
                     (current_stamp_ self) o) o)
        as [m' [o' [Hf' [He' [Hid' Hor]]]]].
      * unfold s1. rewrite updateObjects_find, Heq, String.eqb_refl. reflexivity.
      * rewrite Hstamp, entry_at_insert_or_assign, Z.eqb_refl. reflexivity.
      * exact Heq.
      * exists m', o'. rewrite Hstamp in He'. repeat split; try assumption.
        right. destruct Hor as [->|Hin]; [now left|now right].
    + destruct (IH s1 uuid m o0) as [m' [o' [Hf' [He' [Hid' Hor]]]]].
      * unfold s1. rewrite updateObjects_find.
        apply String.eqb_neq in Hne. now rewrite Hne.
      * now rewrite Hstamp.
      * exact Hid.
      * exists m', o'. rewrite Hstamp in He'. repeat split; try assumption.
        destruct Hor as [->|Hin]; [now left|right; now right].
Qed.

Lemma store_objects_stored batch : forall self o,
  In o batch ->
  exists m o',
    find String.eqb (object_map_ (store_objects self batch)) (object_id o) = Some m
    /\ entry_at m (current_stamp_ self) = Some o'
    /\ object_id o' = object_id o
    /\ In o' batch.
Proof.
  induction batch as [|o1 batch IH]; intros self o Hin; [destruct Hin|].
  unfold store_objects. simpl fold_left.
  set (s1 := updateObjects self (object_id o1) (current_stamp_ self) o1).
  fold (store_objects s1 batch).
  destruct Hin as [<-|Hin].
  - destruct (store_objects_keeps_entry batch s1 (object_id o1)
                (insert_or_assign (get_or String.eqb (object_map_ self) (object_id o1) [])
                   (current_stamp_ self) o1) o1)
      as [m' [o' [Hf' [He' [Hid' Hor]]]]].
    + unfold s1. now rewrite updateObjects_find, String.eqb_refl.
    + simpl current_stamp_. now rewrite entry_at_insert_or_assign, Z.eqb_refl.
    + reflexivity.
    + exists m', o'. repeat split; try assumption.
      destruct Hor as [->|Hin]; [now left|now right].
  - destruct (IH s1 o Hin) as [m [o' [Hf [He [Hid Hin']]]]].
    exists m, o'. repeat split; try assumption. now right.
Qed.

Lemma from_seconds_nonneg q : (0 <= q)%Q -> 0 <= from_seconds q.
Proof.
  intro Hq. unfold from_seconds. apply Z.quot_pos; [|lia].
  unfold Qle in Hq. simpl in Hq. lia.
Qed.

Lemma entry_at_erase_old m cutoff stamp :
  cutoff <= stamp -> entry_at (erase_old m cutoff) stamp = entry_at m stamp.
Proof.
  intro Hle. induction m as [|[k v] m IH]; simpl; [reflexivity|].
  destruct (k <? cutoff) eqn:E; [|reflexivity].
  rewrite IH. destruct (k =? stamp) eqn:E2; [lia|reflexivity].
Qed.

Lemma getTimeDelay_parameters s s' :
  parameters_ s = parameters_ s' -> getTimeDelay s = getTimeDelay s'.
Proof. unfold getTimeDelay. now intros ->. Qed.

(** An entry inside the window survives [deleteOldObjects]. *)
Lemma deleteOldObjects_keeps_entry self stamp d after uuid m o s :
  nodup_keys String.eqb (object_map_ self) = true ->
  getTimeDelay self = Ok d ->
  deleteOldObjects self stamp = Ok after ->
  find String.eqb (object_map_ self) uuid = Some m ->
  entry_at m s = Some o ->
  stamp - from_seconds (d * 2) <= s ->
  exists m', find String.eqb (object_map_ after) uuid = Some m'
             /\ entry_at m' s = Some o.
Proof.
  intros Hnd Hd Hrun Hfind He Hle.
  set (cutoff := stamp - from_seconds (d * 2)) in *.
  exists (erase_old m cutoff).
  assert (He' : entry_at (erase_old m cutoff) s = Some o)
    by now rewrite entry_at_erase_old.
  split; [|exact He'].
  unfold deleteOldObjects in Hrun. rewrite Hd in Hrun. simpl bind in Hrun.
  injection Hrun as <-. fold cutoff.
  rewrite purge_loop_find. simpl object_map_.
  rewrite (purged_trimmed uuid m cutoff _ Hnd Hfind).
  rewrite (find_map_values (fun t => erase_old t cutoff)), Hfind. simpl.
  destruct (erase_old m cutoff); [discriminate He'|reflexivity].
Qed.

(** A batch whose header stamp is negative is refused, whatever the
    state. *)
Lemma setPredictedObjects_negative_stamp dist az quat
        (filterDeviationCheckObjects : PredictedObjects -> PredictedObjects)
        self batch :
  header_stamp batch < 0 ->
  setPredictedObjects dist az quat filterDeviationCheckObjects self batch
  = Throw (runtime_error "cannot store a negative time point in rclcpp::Time").
Proof.
  intro Hneg. unfold setPredictedObjects.
  destruct (Z.ltb_spec (header_stamp batch) 0) as [_|Hpos]; [reflexivity|lia].
Qed.

Lemma setPredictedObjects_state dist az quat
        (filterDeviationCheckObjects : PredictedObjects -> PredictedObjects)
        self batch d :
  store_ok (object_map_ self) = true ->
  getTimeDelay self = Ok d ->
  (0 <= d)%Q ->
  0 <= header_stamp batch ->
  exists after,
    setPredictedObjects dist az quat filterDeviationCheckObjects self batch = Ok after
    /\ parameters_ after = parameters_ self
    /\ current_stamp_ after = header_stamp batch
    /\ store_ok (object_map_ after) = true
    /\ history_ok after = true
    /\ forall o,
        In o (objects (filterDeviationCheckObjects batch)) ->
        exists o',
          getObjectByStamp after (object_id o) (header_stamp batch) = Ok (Some o')
          /\ object_id o' = object_id o
          /\ In o' (objects (filterDeviationCheckObjects batch)).
Proof.
  intros Hok Hd Hpos Hstamp.
  unfold setPredictedObjects.
  destruct (Z.ltb_spec (header_stamp batch) 0) as [Hneg|_]; [lia|].
  set (stamped := {| parameters_ := parameters_ self;
                     current_stamp_ := header_stamp batch;
                     object_map_ := object_map_ self;
                     history_path_map_ := history_path_map_ self;
                     debug_target_object_ := debug_target_object_ self |}).
  fold (store_objects stamped (objects (filterDeviationCheckObjects batch))).
  set (kept := objects (filterDeviationCheckObjects batch)).
  set (stored := store_objects stamped kept).
  destruct (store_objects_fields kept stamped) as [Hp [Hc Hok1]]. fold stored in Hp, Hc, Hok1.
  simpl in Hp, Hc. specialize (Hok1 Hok).
  assert (Hd1 : getTimeDelay stored = Ok d).
  { rewrite (getTimeDelay_parameters stored self Hp). exact Hd. }
  rewrite Hc.
  destruct (deleteOldObjects stored (header_stamp batch)) as [trimmed|e] eqn:Hrun.
  2:{ unfold deleteOldObjects in Hrun. rewrite Hd1 in Hrun. discriminate Hrun. }
  simpl bind. eexists. split; [reflexivity|].
  pose proof (deleteOldObjects_store_ok stored _ trimmed Hok1 Hrun) as Hok2.
  assert (Hfields : current_stamp_ trimmed = header_stamp batch).
  { unfold deleteOldObjects in Hrun. rewrite Hd1 in Hrun. simpl bind in Hrun.
    injection Hrun as <-. rewrite purge_loop_fields. simpl. exact Hc. }
  split.
  { unfold deleteOldObjects in Hrun. rewrite Hd1 in Hrun. simpl bind in Hrun.
    injection Hrun as <-. rewrite purge_loop_fields. simpl. exact Hp. }
  split; [exact Hfields|]. split; [exact Hok2|].
  split; [apply updateHistoryPath_history_ok; exact (store_ok_nodup _ Hok2)|].
  intros o Hin.
  destruct (store_objects_stored kept stamped o Hin) as [m [o' [Hf [He [Hid Hin']]]]].
  fold stored in Hf. simpl current_stamp_ in He.
  destruct (deleteOldObjects_keeps_entry stored (header_stamp batch) d trimmed
              (object_id o) m o' (header_stamp batch)
              (store_ok_nodup _ Hok1) Hd1 Hrun Hf He) as [m' [Hf' He']].
  { assert (0 <= from_seconds (d * 2)).
    { apply from_seconds_nonneg. apply Qmult_le_0_compat; [exact Hpos|discriminate]. }
    lia. }
  exists o'. split; [|split; assumption].
  apply (getObjectByStamp_stored _ (object_id o) (header_stamp batch) m' o');
    [exact Hok2|exact Hf'|exact He'].
Qed.

(** X12: with a non-negative evaluation delay, [setPredictedObjects] of a
    batch whose header stamp is not negative succeeds on a well-formed
    store, sets the current stamp to the stamp of the batch, leaves the
    store well formed with a history path for every key, and every object
    of the filtered batch can be read back at the stamp of the batch
    under its identifier: the lookup returns that object, or a later
    object of the batch with the same identifier.  (A negative header
    stamp is refused, [setPredictedObjects_negative_stamp].) *)
Theorem setPredictedObjects_ingest dist az quat
        (filterDeviationCheckObjects : PredictedObjects -> PredictedObjects)
        self batch d :
  store_ok (object_map_ self) = true ->
  getTimeDelay self = Ok d ->
  (0 <= d)%Q ->
  0 <= header_stamp batch ->
  exists after,
    setPredictedObjects dist az quat filterDeviationCheckObjects self batch = Ok after
    /\ current_stamp_ after = header_stamp batch
    /\ store_ok (object_map_ after) = true
    /\ history_ok after = true
    /\ forall o,
        In o (objects (filterDeviationCheckObjects batch)) ->
        exists o',
          getObjectByStamp after (object_id o) (header_stamp batch) = Ok (Some o')
          /\ object_id o' = object_id o
          /\ In o' (objects (filterDeviationCheckObjects batch)).
Proof.
  intros Hok Hd Hpos Hstamp.
  destruct (setPredictedObjects_state dist az quat filterDeviationCheckObjects self batch d
              Hok Hd Hpos Hstamp) as [after [Hrun [_ Hrest]]].
  now exists after.
Qed.

Lemma setPredictedObjects_ingest_witness :
  exists after,
    setPredictedObjects axis_distance diamond_azimuth yaw_quaternion (fun batch => batch)
      far_apart repeated_batch = Ok after
    /\ current_stamp_ after = header_stamp repeated_batch
    /\ store_ok (object_map_ after) = true
    /\ history_ok after = true
    /\ forall o,
        In o (objects repeated_batch) ->
        exists o',
          getObjectByStamp after (object_id o) (header_stamp repeated_batch)
          = Ok (Some o')
          /\ object_id o' = object_id o
          /\ In o' (objects repeated_batch).
Proof.
  apply (setPredictedObjects_ingest axis_distance diamond_azimuth yaw_quaternion
           (fun batch => batch) far_apart repeated_batch 5).
  - reflexivity.
  - reflexivity.
  - discriminate.
  - discriminate.
Defined.

(** In [far_apart], the batch of 101 s names [a] twice: the later object
    is the one stored, and the entry of [a] at 0 s, now older than the
    window, is gone. *)
Example setPredictedObjects_repeated_batch :
  exists after,
    setPredictedObjects axis_distance diamond_azimuth yaw_quaternion (fun batch => batch)
      far_apart repeated_batch = Ok after
    /\ getObjectByStamp after "a" (101 * second) = Ok (Some (object_at "a" 3 3))
    /\ find String.eqb (object_map_ after) "a"%string
       = Some [(101 * second, object_at "a" 3 3)]
    /\ map fst (object_map_ after) = ["a"; "b"; "c"]%string.
Proof. eexists. split; [reflexivity|]. repeat split. Qed.

(** ** The engine does not raise on a well-formed state *)

Lemma deviation_loop_returns self deviation stamp :
  store_ok (object_map_ self) = true ->
  history_ok self = true ->
  forall batch stat,
    exists stat', for_each batch (deviation_step self deviation stamp) stat = Ok stat'.
Proof.
  intros Hok Hh. induction batch as [|o batch IH]; intro stat; simpl.
  - now exists stat.
  - unfold deviation_step at 1.
    destruct (hasPassedTime_uuid_returns self (object_id o) stamp Hok) as [b [-> Hb]].
    simpl. destruct b; simpl; [|apply IH].
    destruct (find String.eqb (object_map_ self) (object_id o)) as [m|] eqn:E;
      [|now contradiction (Hb eq_refl)].
    destruct (history_ok_find self (object_id o) m Hh (find_In String.eqb_eq _ _ _ E))
      as [paths Hp].
    unfold at_. rewrite Hp. simpl. destruct (snd paths); simpl; apply IH.
Qed.

Lemma calculate_deviation_total dist lateral yaw iteration self metric d :
  store_ok (object_map_ self) = true ->
  history_ok self = true ->
  getTimeDelay self = Ok d ->
  metric <> predicted_path_deviation ->
  calculate dist lateral yaw iteration self metric = Ok (None, debug_target_object_ self)
  \/ exists stat,
      calculate dist lateral yaw iteration self metric
      = Ok (Some [(match metric with
                   | yaw_deviation => "yaw_deviation"
                   | _ => "lateral_deviation"
                   end%string, stat)], debug_target_object_ self).
Proof.
  intros Hok Hh Hd Hm. unfold calculate.
  destruct (object_map_ self) as [|e om] eqn:Eom; [now left|]. rewrite <- Eom in *.
  rewrite Hd. simpl bind.
  destruct (hasPassedTime self (current_stamp_ self - from_seconds d)); simpl; [|now left].
  set (batch := getObjectsByStamp self (current_stamp_ self - from_seconds d)).
  destruct metric; [| |contradiction|now left].
  - right. unfold calcLateralDeviationMetrics.
    destruct (deviation_loop_returns self lateral (header_stamp batch) Hok Hh
                (objects batch) stat_empty) as [stat ->].
    now exists stat.
  - right. unfold calcYawDeviationMetrics.
    destruct (deviation_loop_returns self yaw (header_stamp batch) Hok Hh
                (objects batch) stat_empty) as [stat ->].
    now exists stat.
Qed.

(** X13: on a well-formed store with a history path for every key and at
    least one horizon, [calculate] returns for the lateral and the yaw
    deviation (and for a metric of the default branch) without raising;
    its mapping, when there is one, holds the one name of the metric. *)
Theorem calculate_deviation_returns dist lateral yaw iteration self metric d :
  store_ok (object_map_ self) = true ->
  history_ok self = true ->
  getTimeDelay self = Ok d ->
  metric <> predicted_path_deviation ->
  calculate dist lateral yaw iteration self metric = Ok (None, debug_target_object_ self)
  \/ exists stat,
      calculate dist lateral yaw iteration self metric
      = Ok (Some [(match metric with
                   | yaw_deviation => "yaw_deviation"
                   | _ => "lateral_deviation"
                   end%string, stat)], debug_target_object_ self).
Proof. exact (calculate_deviation_total dist lateral yaw iteration self metric d). Qed.

Lemma calculate_deviation_returns_witness :
  calculate axis_distance no_deviation no_deviation identity_order two_tracks yaw_deviation
  = Ok (None, debug_target_object_ two_tracks)
  \/ exists stat,
      calculate axis_distance no_deviation no_deviation identity_order two_tracks
        yaw_deviation
      = Ok (Some [("yaw_deviation"%string, stat)], debug_target_object_ two_tracks).
Proof.
  apply (calculate_deviation_returns axis_distance no_deviation no_deviation identity_order
           two_tracks yaw_deviation 10).
  - reflexivity.
  - reflexivity.
  - reflexivity.
  - discriminate.
Defined.

Lemma horizon_returns dist (iteration : Iteration) self batch h debug :
  (forall (K V : Type) (m : list (K * V)), Permutation (iteration K V m) m) ->
  store_ok (object_map_ self) = true ->
  (forall recorded, record_deviations dist self batch h = Ok recorded ->
                    sums_bounded (fst recorded)) ->
  exists r, calcPredictedPathDeviationMetrics_horizon dist iteration self batch h debug
            = Ok r.
Proof.
  intros Hperm Hok Hbound.
  destruct (record_deviations_returns dist self batch h Hok) as [recorded [Hrec [Hnd Hall]]].
  specialize (Hbound recorded Hrec).
  unfold calcPredictedPathDeviationMetrics_horizon. rewrite Hrec. simpl bind.
  destruct (select_paths_loop iteration self (header_stamp batch) (snd recorded)
              (iteration _ _ (fst recorded)) ([], debug)) as [acc' [Hrun _]].
  - apply Permutation_NoDup with (l := map fst (fst recorded)).
    + apply Permutation_map. apply Permutation_sym. apply Hperm.
    + now apply nodup_keys_NoDup.
  - intros uuid inner He.
    assert (Hfind : find String.eqb (fst recorded) uuid = Some inner).
    { apply (nodup_keys_find String.eqb_eq); [exact Hnd|].
      exact (Permutation_in _ (Hperm _ _ (fst recorded)) He). }
    destruct (Hall _ _ Hfind) as [Hkey [Hni [Hnn Hne]]]. split; [exact Hkey|].
    assert (Hin_inner : forall e, In e (iteration _ _ inner) ->
                                  find Nat.eqb inner (fst e) = Some (snd e)).
    { intros [i ds] Hi. apply (nodup_keys_find Nat.eqb_eq); [exact Hni|].
      exact (Permutation_in _ (Hperm _ _ inner) Hi). }
    destruct (min_deviation_index_first_minimum iteration inner) as [ds Hfirst].
    + intro Hnil. pose proof (Hperm _ _ inner) as Hp. rewrite Hnil in Hp.
      apply Permutation_nil in Hp. contradiction.
    + intros e Hi. pose proof (Hin_inner e Hi) as Hf. split.
      * exact (Hne _ _ Hf).
      * exact (Hbound _ _ _ _ Hfind Hf).
    + exists ds. exact (Hin_inner _ (first_minimum_In _ _ _ Hfirst)).
  - reflexivity.
  - rewrite Hrun. simpl bind. eexists. reflexivity.
Qed.

(** X14: on a well-formed store with at least one horizon, when no sum of
    recorded distances reaches the largest double, [calculate] returns for
    the predicted-path deviation without raising, and its mapping, when
    there is one, holds a name for every horizon. *)
Theorem calculate_predicted_returns dist lateral yaw (iteration : Iteration) self d :
  (forall (K V : Type) (m : list (K * V)), Permutation (iteration K V m) m) ->
  store_ok (object_map_ self) = true ->
  getTimeDelay self = Ok d ->
  (forall h recorded,
      In h (prediction_time_horizons (parameters_ self)) ->
      record_deviations dist self
        (getObjectsByStamp self (current_stamp_ self - from_seconds d)) h = Ok recorded ->
      sums_bounded (fst recorded)) ->
  exists m debug,
    calculate dist lateral yaw iteration self predicted_path_deviation = Ok (m, debug)
    /\ match m with
       | None => True
       | Some names =>
           forall h, In h (prediction_time_horizons (parameters_ self)) ->
                     exists stat, find String.eqb names (horizon_name h) = Some stat
       end.
Proof.
  intros Hperm Hok Hd Hbound. unfold calculate.
  destruct (object_map_ self) as [|e om] eqn:Eom.
  { exists None, (debug_target_object_ self). now split. }
  rewrite <- Eom in *. rewrite Hd. simpl bind.
  destruct (hasPassedTime self (current_stamp_ self - from_seconds d)); simpl.
  2:{ exists None, (debug_target_object_ self). now split. }
  set (batch := getObjectsByStamp self (current_stamp_ self - from_seconds d)) in *.
  unfold calcPredictedPathDeviationMetrics.
  assert (Hloop : forall hs acc,
             (forall h, In h hs -> In h (prediction_time_horizons (parameters_ self))) ->
             exists r,
               for_each hs
                 (fun acc time_horizon =>
                    r <- calcPredictedPathDeviationMetrics_horizon dist iteration self batch
                           time_horizon (snd acc) ;;
                    Ok (assign String.eqb (fst acc)
                          (String.append "predicted_path_deviation_" (fixed2 time_horizon))
                          (fst r), snd r))
                 acc = Ok r).
  { induction hs as [|h hs IH]; intros acc Hsub; simpl; [now exists acc|].
    destruct (horizon_returns dist iteration self batch h (snd acc) Hperm Hok) as [r1 ->].
    - intros recorded Hrec. apply (Hbound h recorded); [|exact Hrec].
      apply Hsub. now left.
    - simpl. apply IH. intros h' Hh'. apply Hsub. now right. }
  destruct (Hloop (prediction_time_horizons (parameters_ self))
              ([], debug_target_object_ self)) as [r Hr]; [auto|].
  match goal with
  | |- context [for_each ?l ?body ?a] =>
      replace (for_each l body a) with (Ok r) by (symmetry; exact Hr)
  end.
  simpl bind. exists (Some (fst r)), (snd r). split; [reflexivity|].
  exact (proj2 (horizons_loop_names _ _ _ _ _ _ _ Hr)).
Qed.

Lemma calculate_predicted_returns_witness :
  exists m debug,
    calculate axis_distance no_deviation no_deviation newest_first tie_store
      predicted_path_deviation = Ok (m, debug)
    /\ match m with
       | None => True
       | Some names =>
           forall h, In h (prediction_time_horizons (parameters_ tie_store)) ->
                     exists stat, find String.eqb names (horizon_name h) = Some stat
       end.
Proof.
  apply (calculate_predicted_returns axis_distance no_deviation no_deviation newest_first
           tie_store 1).
  - intros K V m. apply Permutation_sym. apply Permutation_rev.
  - reflexivity.
  - reflexivity.
  - intros h recorded [<-|[]] Hrec. vm_compute in Hrec. injection Hrec as <-.
    intros uuid inner i ds Hf Hi. cbn [fst find] in Hf.
    destruct (String.eqb "a" uuid); [|discriminate Hf]. injection Hf as <-.
    destruct i as [|[|i]]; cbn in Hi; [| |discriminate Hi];
      injection Hi as <-; reflexivity.
Defined.

(** ** Ingest, then evaluate *)

(** X17: after a batch whose header stamp is not negative is ingested
    into a well-formed store, with a non-negative evaluation delay,
    [calculate] on the new state returns for the lateral and the yaw
    deviation without raising: every key the metrics look up has its
    history path. *)
Theorem ingest_then_calculate dist az quat
        (filterDeviationCheckObjects : PredictedObjects -> PredictedObjects)
        lateral yaw iteration self batch d metric :
  store_ok (object_map_ self) = true ->
  getTimeDelay self = Ok d ->
  (0 <= d)%Q ->
  0 <= header_stamp batch ->
  metric <> predicted_path_deviation ->
  exists after r,
    setPredictedObjects dist az quat filterDeviationCheckObjects self batch = Ok after
    /\ calculate dist lateral yaw iteration after metric = Ok r.
Proof.
  intros Hok Hd Hpos Hstamp Hm.
  destruct (setPredictedObjects_state dist az quat filterDeviationCheckObjects self batch d
              Hok Hd Hpos Hstamp) as [after [Hrun [Hp [_ [Hok' [Hh _]]]]]].
  exists after.
  assert (Hd' : getTimeDelay after = Ok d).
  { rewrite (getTimeDelay_parameters after self Hp). exact Hd. }
  destruct (calculate_deviation_total dist lateral yaw iteration after metric d
              Hok' Hh Hd' Hm) as [Hnone|[stat Hsome]]; eexists; split; eassumption.
Qed.

Lemma ingest_then_calculate_witness :
  exists after r,
    setPredictedObjects axis_distance diamond_azimuth yaw_quaternion (fun batch => batch)
      far_apart repeated_batch = Ok after
    /\ calculate axis_distance no_deviation no_deviation identity_order after
         lateral_deviation = Ok r.
Proof.
  apply (ingest_then_calculate axis_distance diamond_azimuth yaw_quaternion
           (fun batch => batch) no_deviation no_deviation identity_order
           far_apart repeated_batch 5 lateral_deviation).
  - reflexivity.
  - reflexivity.
  - discriminate.
  - discriminate.
  - discriminate.
Defined.

(** X18: on a well-formed store, [calculate] returns a mapping only when
    at least one key has reached the evaluated stamp, the current stamp
    minus the evaluation delay. *)
Theorem calculate_some_reached dist lateral yaw iteration self metric m debug :
  store_ok (object_map_ self) = true ->
  calculate dist lateral yaw iteration self metric = Ok (Some m, debug) ->
  exists d uuid,
    getTimeDelay self = Ok d
    /\ hasPassedTime_uuid self uuid (current_stamp_ self - from_seconds d) = Ok true.
Proof.
  intros Hok. unfold calculate.
  destruct (object_map_ self) as [|e om] eqn:Eom; [discriminate|]. rewrite <- Eom in *.
  destruct (getTimeDelay self) as [d|]; simpl; [|discriminate].
  destruct (hasPassedTime self (current_stamp_ self - from_seconds d)) eqn:Ep;
    simpl; [|discriminate].
  intros _. exists d.
  apply (hasPassedTime_keys self _ Hok) in Ep.
  destruct Ep as [Hnil|[uuid Hu]]; [rewrite Eom in Hnil; discriminate|].
  exists uuid. now split.
Qed.

Lemma calculate_some_reached_witness :
  exists d uuid,
    getTimeDelay two_tracks = Ok d
    /\ hasPassedTime_uuid two_tracks uuid (current_stamp_ two_tracks - from_seconds d)
       = Ok true.
Proof.
  apply (calculate_some_reached axis_distance no_deviation no_deviation identity_order
           two_tracks lateral_deviation [("lateral_deviation"%string, stat_empty)] []);
    reflexivity.
Defined.

(** ** The incremental history path *)

(** X15: for a window size that fits [size_t],
    [generateHistoryPathWithPrev] is defined exactly when the previous
    path holds at least [2 * (window_size / 2)] poses; it then returns one
    pose more than the previous path, and the poses before the last
    [window_size / 2] of the previous path are returned as they were. *)
Theorem generateHistoryPathWithPrev_extends dist az quat prev new_pose window_size :
  0 <= window_size < SIZE_MOD ->
  let half := window_size / 2 in
  let n := List.length prev in
  (2 * half <= Z.of_nat n ->
   exists history_path,
     generateHistoryPathWithPrev dist az quat prev new_pose window_size = Ok history_path
     /\ List.length history_path = S n
     /\ firstn (n - Z.to_nat half) history_path = firstn (n - Z.to_nat half) prev)
  /\ (Z.of_nat n < 2 * half ->
      generateHistoryPathWithPrev dist az quat prev new_pose window_size
      = Throw undefined_behaviour).
Proof.
  intros Hw half n.
  assert (Hsize : SIZE_MOD = 2 ^ 64) by reflexivity.
  assert (Hhalf : 0 <= half /\ 2 * half <= window_size).
  { unfold half. pose proof (Z.mul_div_le window_size 2).
    pose proof (Z.div_pos window_size 2). lia. }
  assert (Htwice : (half * 2) mod SIZE_MOD = 2 * half).
  { rewrite Z.mod_small; lia. }
  unfold generateHistoryPathWithPrev. fold half. fold n. rewrite Htwice.
  split; intro Hcase.
  - assert (E1 : (Z.of_nat n <? half) = false) by (apply Z.ltb_ge; lia).
    assert (E2 : (Z.of_nat n <? 2 * half) = false) by (apply Z.ltb_ge; lia).
    rewrite E1, E2. simpl orb. cbv iota.
    eexists. split; [reflexivity|].
    set (kept := firstn (Z.to_nat (Z.of_nat n - half)) prev).
    assert (Hkept : List.length kept = (n - Z.to_nat half)%nat).
    { unfold kept. rewrite length_firstn. fold n. lia. }
    split.
    + rewrite length_app, Hkept, length_skipn.
      rewrite (proj1 (averageFilterPath_length_pos _ _ _ _ _)).
      rewrite length_app, length_skipn. fold n. simpl List.length. lia.
    + rewrite firstn_app, Hkept, Nat.sub_diag. simpl firstn. rewrite app_nil_r.
      rewrite firstn_all2 by lia.
      unfold kept. f_equal. lia.
  - assert (E2 : (Z.of_nat n <? 2 * half) = true) by (apply Z.ltb_lt; lia).
    rewrite E2, orb_true_r. reflexivity.
Qed.

Lemma generateHistoryPathWithPrev_extends_witness :
  let half := 2 / 2 in
  let n := List.length uneven_path in
  (2 * half <= Z.of_nat n ->
   exists history_path,
     generateHistoryPathWithPrev axis_distance diamond_azimuth yaw_quaternion
       uneven_path (pose_at 4 0) 2 = Ok history_path
     /\ List.length history_path = S n
     /\ firstn (n - Z.to_nat half) history_path = firstn (n - Z.to_nat half) uneven_path)
  /\ (Z.of_nat n < 2 * half ->
      generateHistoryPathWithPrev axis_distance diamond_azimuth yaw_quaternion
        uneven_path (pose_at 4 0) 2 = Throw undefined_behaviour).
Proof.
  apply (generateHistoryPathWithPrev_extends axis_distance diamond_azimuth yaw_quaternion
           uneven_path (pose_at 4 0) 2).
  split; [discriminate|reflexivity].
Defined.

(** ** What the recording loops record *)

Lemma push_deviation_from_batch batch dm uuid i d :
  from_batch batch dm ->
  (exists o, In o batch /\ object_id o = uuid
             /\ (i < List.length (predicted_paths o))%nat) ->
  from_batch batch (push_deviation dm uuid i d).
Proof.
  intros Hinv Hnew u inner j ds Hf Hj. unfold push_deviation in Hf.
  destruct (string_dec uuid u) as [<-|Hne].
  - rewrite (find_assign_same String.eqb_eq) in Hf. injection Hf as <-.
    destruct (Nat.eq_dec i j) as [<-|Hij]; [exact Hnew|].
    rewrite (find_assign_other Nat.eqb_eq) in Hj by exact Hij.
    unfold get_or in Hj.
    destruct (find String.eqb dm uuid) as [inner0|] eqn:E; [|discriminate Hj].
    exact (Hinv _ _ _ _ E Hj).
  - rewrite (find_assign_other String.eqb_eq) in Hf by exact Hne.
    exact (Hinv _ _ _ _ Hf Hj).
Qed.

Lemma walk_path_from_batch dist self batch uuid i path_id step h stamp :
  (exists o, In o batch /\ object_id o = uuid
             /\ (i < List.length (predicted_paths o))%nat) ->
  forall poses j acc acc',
    from_batch batch (fst acc) ->
    walk_path dist self uuid i path_id step h stamp poses j acc = Ok acc' ->
    from_batch batch (fst acc').
Proof.
  intro Hnew. induction poses as [|p rest IH]; intros j acc acc' Hacc; simpl.
  - intro H. now injection H as <-.
  - destruct (Qlt_bool h (seconds step * inject_Z j)); [intro H; now injection H as <-|].
    destruct (hasPassedTime_uuid self uuid (stamp + from_seconds (seconds step * inject_Z j)))
      as [b|]; simpl; [|discriminate].
    destruct b; simpl; [|now apply IH].
    destruct (getObjectByStamp self uuid (stamp + from_seconds (seconds step * inject_Z j)))
      as [r|]; simpl; [|discriminate].
    destruct r as [history_object|]; [|now apply IH].
    apply IH. simpl. now apply push_deviation_from_batch.
Qed.

Lemma walk_paths_from_batch dist self batch uuid h stamp :
  forall paths i acc acc',
    (forall k, (k < List.length paths)%nat ->
               exists o, In o batch /\ object_id o = uuid
                         /\ (i + k < List.length (predicted_paths o))%nat) ->
    from_batch batch (fst acc) ->
    walk_paths dist self uuid h stamp paths i acc = Ok acc' ->
    from_batch batch (fst acc').
Proof.
  induction paths as [|predicted_path rest IH]; intros i acc acc' Hidx Hacc; simpl.
  - intro H. now injection H as <-.
  - match goal with
    | |- context [walk_path ?a ?b ?c ?d ?e ?f ?g ?h0 ?i0 ?j ?k] =>
        destruct (walk_path a b c d e f g h0 i0 j k) as [acc1|] eqn:E1
    end; simpl; [|discriminate].
    apply IH.
    + intros k Hk. destruct (Hidx (S k)) as [o [Hin [Hid Hlt]]]; [simpl; lia|].
      exists o. repeat split; [assumption..|lia].
    + eapply walk_path_from_batch; [|exact Hacc|exact E1].
      destruct (Hidx O) as [o [Hin [Hid Hlt]]]; [simpl; lia|].
      exists o. repeat split; [assumption..|lia].
Qed.

Lemma record_loop_from_batch dist self batch h stamp : forall objs acc acc',
  (forall o, In o objs -> In o batch) ->
  from_batch batch (fst acc) ->
  for_each objs
    (fun acc object =>
       walk_paths dist self (object_id object) h stamp (predicted_paths object) 0 acc)
    acc = Ok acc' ->
  from_batch batch (fst acc').
Proof.
  induction objs as [|o objs IH]; intros acc acc' Hsub Hacc; simpl.
  - intro H. now injection H as <-.
  - destruct (walk_paths dist self (object_id o) h stamp (predicted_paths o) 0 acc)
      as [acc1|] eqn:E1; simpl; [|discriminate].
    apply IH.
    + intros o' Ho'. apply Hsub. now right.
    + eapply walk_paths_from_batch; [|exact Hacc|exact E1].
      intros k Hk. exists o. repeat split; [apply Hsub; now left|].
      simpl. exact Hk.
Qed.

(** X16: on a well-formed store the recording loops of
    [calcPredictedPathDeviationMetrics] run to their end without raising;
    what they record is keyed once per object and once per hypothesis,
    every recorded object is a key of the store and an object of the
    batch, every recorded hypothesis is one of its predicted paths, and
    no hypothesis is recorded without a distance. *)
Theorem record_deviations_well_formed dist self batch h :
  store_ok (object_map_ self) = true ->
  exists recorded,
    record_deviations dist self batch h = Ok recorded
    /\ nodup_keys String.eqb (fst recorded) = true
    /\ forall uuid inner,
        find String.eqb (fst recorded) uuid = Some inner ->
        find String.eqb (object_map_ self) uuid <> None
        /\ nodup_keys Nat.eqb inner = true
        /\ forall i ds,
            find Nat.eqb inner i = Some ds ->
            ds <> []
            /\ exists o, In o (objects batch) /\ object_id o = uuid
                         /\ (i < List.length (predicted_paths o))%nat.
Proof.
  intro Hok.
  destruct (record_deviations_returns dist self batch h Hok) as [recorded [Hrec [Hnd Hall]]].
  exists recorded. split; [exact Hrec|]. split; [exact Hnd|].
  assert (Hfrom : from_batch (objects batch) (fst recorded)).
  { unfold record_deviations in Hrec.
    eapply record_loop_from_batch; [| |exact Hrec]; [auto|].
    intros uuid inner i ds Hf. discriminate Hf. }
  intros uuid inner Hfind.
  destruct (Hall _ _ Hfind) as [Hkey [Hni [_ Hne]]].
  split; [exact Hkey|]. split; [exact Hni|].
  intros i ds Hi. split; [exact (Hne _ _ Hi)|exact (Hfrom _ _ _ _ Hfind Hi)].
Qed.

Lemma record_deviations_well_formed_witness :
  exists recorded,
    record_deviations axis_distance tie_store tie_batch 1 = Ok recorded
    /\ nodup_keys String.eqb (fst recorded) = true
    /\ forall uuid inner,
        find String.eqb (fst recorded) uuid = Some inner ->
        find String.eqb (object_map_ tie_store) uuid <> None
        /\ nodup_keys Nat.eqb inner = true
        /\ forall i ds,
            find Nat.eqb inner i = Some ds ->
            ds <> []
            /\ exists o, In o (objects tie_batch) /\ object_id o = uuid
                         /\ (i < List.length (predicted_paths o))%nat.
Proof.
  apply (record_deviations_well_formed axis_distance tie_store tie_batch 1). reflexivity.
Defined.
